(** * Event delivery and session coordination of the ytdpnl extension

    A shallow embedding of [src/api.ts] (the durable retry queue, the retry
    sweep, the single-flight session bootstrap and the delivery pipeline)
    and of the storage helpers of [src/lib.ts] it relies on.

    - Browser storage areas are finite maps from keys to strings;
      [setItem] throws [QuotaExceededError] when the browser refuses the
      write, and when it does is a parameter of the model.
    - Synchronous code is written in a state-and-exception monad [Sync]
      over the [World] (storage areas, closure variables of every [createApi]
      instance, the requests issued so far, the registered promise
      callbacks, the clock and the page location).
    - [async] functions are trees of synchronous steps separated by
      suspension points ([Await]); [exec] runs such a tree against a scripted
      environment that settles the awaited promise and may change the world
      while the function is suspended.  Awaiting the promise of another
      [async] function of the same call chain is sequential composition;
      a function is suspended only where it waits for a request.
    - [log] only prints, and is left out. *)

From Stdlib Require Import ZArith Ascii String List Bool Lia.
From stdpp Require Import base option list gmap strings countable.

Local Open Scope string_scope.
Local Open Scope list_scope.
Local Open Scope Z_scope.

(** ** JavaScript truthiness of strings *)

(** [!s] is true of the empty string only. *)
Definition truthy (s : string) : bool := negb (String.eqb s "").

(** [!x] for [x : string | null | undefined]. *)
Definition truthyO (o : option string) : bool :=
  match o with
  | Some s => truthy s
  | None => false
  end.

(** ** Data model *)

(** Modelled from the spec: the class [Event] (common/models/event is not
    under src/).  The fields are those [api.ts] reads or writes (section 3 of
    the spec: type tag, [localUuid], session identifier, page URL, context,
    client version, tab-active flag); the type-specific payload is kept as
    an opaque string.  A field that may be [undefined] is an [option]. *)
Record Event := mkEvent {
  ev_type : string;
  localUuid : string;
  ev_sessionUuid : string;
  url : option string;
  context : option string;
  extensionVersion : option string;
  tabActive : option bool;
  ev_payload : string
}.

Definition set_context (c : option string) (e : Event) : Event :=
  mkEvent (ev_type e) (localUuid e) (ev_sessionUuid e) (url e) c
          (extensionVersion e) (tabActive e) (ev_payload e).

Definition set_extensionVersion (v : option string) (e : Event) : Event :=
  mkEvent (ev_type e) (localUuid e) (ev_sessionUuid e) (url e) (context e)
          v (tabActive e) (ev_payload e).

Definition set_tabActive (t : option bool) (e : Event) : Event :=
  mkEvent (ev_type e) (localUuid e) (ev_sessionUuid e) (url e) (context e)
          (extensionVersion e) t (ev_payload e).

Definition set_ev_sessionUuid (s : string) (e : Event) : Event :=
  mkEvent (ev_type e) (localUuid e) s (url e) (context e)
          (extensionVersion e) (tabActive e) (ev_payload e).

Definition set_url (u : option string) (e : Event) : Event :=
  mkEvent (ev_type e) (localUuid e) (ev_sessionUuid e) u (context e)
          (extensionVersion e) (tabActive e) (ev_payload e).

(** [type StoredEvent]; [lastAttempt] is a [Date], kept as its number of
    milliseconds since the epoch. *)
Record StoredEvent := mkStoredEvent {
  se_apiUrl : string;
  event : Event;
  lastAttempt : Z;
  persisted : bool;
  attempts : Z;
  se_participantCode : string;
  tryImmediately : bool
}.

Definition set_lastAttempt (t : Z) (s : StoredEvent) : StoredEvent :=
  mkStoredEvent (se_apiUrl s) (event s) t (persisted s) (attempts s)
                (se_participantCode s) (tryImmediately s).

Definition set_persisted (b : bool) (s : StoredEvent) : StoredEvent :=
  mkStoredEvent (se_apiUrl s) (event s) (lastAttempt s) b (attempts s)
                (se_participantCode s) (tryImmediately s).

Definition set_attempts (n : Z) (s : StoredEvent) : StoredEvent :=
  mkStoredEvent (se_apiUrl s) (event s) (lastAttempt s) (persisted s) n
                (se_participantCode s) (tryImmediately s).

Definition set_tryImmediately (b : bool) (s : StoredEvent) : StoredEvent :=
  mkStoredEvent (se_apiUrl s) (event s) (lastAttempt s) (persisted s)
                (attempts s) (se_participantCode s) b.

(** Modelled from the spec: [Session] (common/models/session is not under
    src/), a server-issued identifier; [api.ts] reads [uuid] only. *)
Record Session := mkSession { uuid : string }.

(** The value carried by a successful response: a [Session] for
    [post<Session>], a boolean for [post<boolean>]. *)
Inductive Value :=
| VSession (s : Session)
| VBool (b : bool).

(** [res.value.uuid]; the type of [post<Session>] excludes the second case. *)
Definition value_uuid (v : Value) : string :=
  match v with
  | VSession s => uuid s
  | VBool _ => ""
  end.

(** Modelled from the spec: [Maybe<T>] (common/util is not under src/), the
    interpreted response of section 6: [{kind: 'Success', value}], or a
    structured failure [{kind: 'Failure', message, code?}]. *)
Inductive Maybe :=
| Success (value : Value)
| Failure (message : string) (code : option string).

(** Modelled from the spec: the routes [api.ts] imports from
    common/clientRoutes (not under src/), one constructor per imported
    name; [postEventRoute] stands for the route named [postEvent]. *)
Inductive Route :=
| postCreateSession
| postCheckParticipantCode
| getParticipantConfig
| postEventRoute
| getParticipantChannelSource.

Inductive Verb := POST | GET.

Inductive Body :=
| BodyEmpty
| BodyCode (code : string)
| BodyEvent (e : Event).

(** The object returned by [headers()]. *)
Record Headers := mkHeaders {
  content_type : string;
  x_participant_code : string
}.

Record Request := mkRequest {
  rq_verb : Verb;
  rq_apiUrl : string;
  rq_route : Route;
  rq_body : Body;
  rq_headers : Headers
}.

(** A promise returned by [post]/[get] is named by the position of its
    request in the list of requests issued so far. *)
Abbreviation PromiseId := nat (only parsing).

(** A reference to the closure created by one call of [createApi]. *)
Abbreviation ApiRef := nat (only parsing).

(** The [let] and captured variables of a [createApi] closure. *)
Record ApiVars := mkApiVars {
  apiUrl : string;
  participantCode : string;
  sessionUuid : string;
  sessionPromise : option PromiseId
}.

Definition set_participantCode (c : string) (a : ApiVars) : ApiVars :=
  mkApiVars (apiUrl a) c (sessionUuid a) (sessionPromise a).

Definition set_sessionUuid (s : string) (a : ApiVars) : ApiVars :=
  mkApiVars (apiUrl a) (participantCode a) s (sessionPromise a).

Definition set_sessionPromise (p : option PromiseId) (a : ApiVars) : ApiVars :=
  mkApiVars (apiUrl a) (participantCode a) (sessionUuid a) p.

#[global] Instance ApiVars_inhabited : Inhabited ApiVars :=
  populate (mkApiVars "" "" "" None).

(** The callbacks [api.ts] attaches to a promise with [then]/[catch]: both
    handlers of [createSession] run [sessionPromise = undefined] in the
    closure that created the promise. *)
Inductive Callback :=
| ClearSessionPromise (self : ApiRef).

Record World := mkWorld {
  localStorage : gmap string string;
  sessionStorage : gmap string string;
  tabIsActive : option bool;
  apis : list ApiVars;
  requests : list Request;
  reactions : list (PromiseId * Callback);
  clock : Z;
  href : string;
  referrer : string
}.

Definition set_localStorage (s : gmap string string) (w : World) : World :=
  mkWorld s (sessionStorage w) (tabIsActive w) (apis w) (requests w)
          (reactions w) (clock w) (href w) (referrer w).

Definition set_sessionStorage (s : gmap string string) (w : World) : World :=
  mkWorld (localStorage w) s (tabIsActive w) (apis w) (requests w)
          (reactions w) (clock w) (href w) (referrer w).

Definition set_tabIsActive (t : option bool) (w : World) : World :=
  mkWorld (localStorage w) (sessionStorage w) t (apis w) (requests w)
          (reactions w) (clock w) (href w) (referrer w).

Definition set_apis (a : list ApiVars) (w : World) : World :=
  mkWorld (localStorage w) (sessionStorage w) (tabIsActive w) a (requests w)
          (reactions w) (clock w) (href w) (referrer w).

Definition set_requests (r : list Request) (w : World) : World :=
  mkWorld (localStorage w) (sessionStorage w) (tabIsActive w) (apis w) r
          (reactions w) (clock w) (href w) (referrer w).

Definition set_reactions (r : list (PromiseId * Callback)) (w : World) : World :=
  mkWorld (localStorage w) (sessionStorage w) (tabIsActive w) (apis w)
          (requests w) r (clock w) (href w) (referrer w).

Definition set_clock (t : Z) (w : World) : World :=
  mkWorld (localStorage w) (sessionStorage w) (tabIsActive w) (apis w)
          (requests w) (reactions w) t (href w) (referrer w).

(** ** Synchronous code: state and exceptions *)

Inductive Exception :=
| Error (message : string)
| SyntaxError
| QuotaExceededError.

Inductive Res (A : Type) : Type :=
| Ok (a : A)
| Exn (e : Exception).
Arguments Ok {A} a.
Arguments Exn {A} e.

Definition Sync (A : Type) : Type := World -> Res A * World.

Definition sret {A} (a : A) : Sync A := fun w => (Ok a, w).

Definition sthrow {A} (e : Exception) : Sync A := fun w => (Exn e, w).

Definition sbind {A B} (m : Sync A) (f : A -> Sync B) : Sync B :=
  fun w =>
    match m w with
    | (Ok a, w') => f a w'
    | (Exn e, w') => (Exn e, w')
    end.

(** [try { m } catch (e) { h e }] *)
Definition scatch {A} (m : Sync A) (h : Exception -> Sync A) : Sync A :=
  fun w =>
    match m w with
    | (Ok a, w') => (Ok a, w')
    | (Exn e, w') => h e w'
    end.

Definition sget : Sync World := fun w => (Ok w, w).

Definition smodify (f : World -> World) : Sync unit := fun w => (Ok tt, f w).

Declare Scope sync_scope.
Delimit Scope sync_scope with sync.
Notation "'do' x <- m ; k" := (sbind m (fun x => k))
  (at level 10, x name, m at level 100, k at level 200) : sync_scope.
Notation "'do_' m ; k" := (sbind m (fun _ => k))
  (at level 10, m at level 100, k at level 200) : sync_scope.

(** ** What the browser and the libraries do

    [JSON.stringify] and [JSON.parse] on arrays of [StoredEvent] ([None]
    when the call throws), [compressToUTF16] and [decompressFromUTF16] of
    lz-string ([None] for [null]), the version in package.json, and the
    storage quota: [setItem_refused area st key value] tells whether
    [setItem(key, value)] on the storage area [area], holding [st], throws
    [QuotaExceededError]. *)

(** [localStorage] and [sessionStorage]. *)
Inductive Area := localArea | sessionArea.

Class External := {
  JSON_stringify : list StoredEvent -> option string;
  JSON_parse : string -> option (list StoredEvent);
  compressToUTF16 : string -> string;
  decompressFromUTF16 : string -> option string;
  packageJson_version : string;
  setItem_refused : Area -> gmap string string -> string -> string -> bool
}.

(** What the queue relies on: serialisation of plain records succeeds and is
    undone by parsing, and decompression undoes compression. *)
Class Lawful (X : External) : Prop := {
  stringify_total : forall l, is_Some (JSON_stringify l);
  parse_stringify : forall l s, JSON_stringify l = Some s -> JSON_parse s = Some l;
  stringify_nonempty : forall l, JSON_stringify l <> Some "";
  decompress_compress : forall s, decompressFromUTF16 (compressToUTF16 s) = Some s;
  compress_nonempty : forall s, compressToUTF16 s <> ""
}.

(** A browser whose storage areas have room for every write. *)
Class Spacious (X : External) : Prop := {
  setItem_accepted :
    forall area st key value, setItem_refused area st key value = false
}.

(** ** lib.ts: namespaced storage *)

Module Lib.

Section Storage.

Context {X : External}.

Definition namespace : string := "ytdpnl-extension-".

(** [area.setItem(key, value)] on the content [st] of the area. *)
Definition setItem (area : Area) (key value : string)
    (st : gmap string string) : Res unit * gmap string string :=
  if setItem_refused area st key value then (Exn QuotaExceededError, st)
  else (Ok tt, <[key := value]> st).

(** The body shared by [getFromLocalStorage] and [getFromSessionStorage]:
    read the namespaced key; failing that, migrate the legacy key. *)
Definition getFrom (area : Area) (key : string) (st : gmap string string)
  : Res (option string) * gmap string string :=
  let newFormat := st !! (namespace +:+ key) in
  if truthyO newFormat then (Ok newFormat, st)
  else
    match st !! key with
    | Some oldFormat =>
        if truthy oldFormat
        then
          match setItem area (namespace +:+ key) oldFormat st with
          | (Ok _, st') => (Ok (Some oldFormat), delete key st')
          | (Exn e, st') => (Exn e, st')
          end
        else (Ok None, st)
    | None => (Ok None, st)
    end.

(** The body shared by [saveToLocalStorage] and [saveToSessionStorage]:
    the legacy key is removed, then the namespaced key is set. *)
Definition saveTo (area : Area) (key value : string)
    (st : gmap string string) : Res unit * gmap string string :=
  setItem area (namespace +:+ key) value (delete key st).

Definition getFromLocalStorage (key : string) : Sync (option string) :=
  fun w =>
    let '(v, st) := getFrom localArea key (localStorage w) in
    (v, set_localStorage st w).

Definition getFromSessionStorage (key : string) : Sync (option string) :=
  fun w =>
    let '(v, st) := getFrom sessionArea key (sessionStorage w) in
    (v, set_sessionStorage st w).

Definition saveToLocalStorage (key value : string) : Sync unit :=
  fun w =>
    let '(r, st) := saveTo localArea key value (localStorage w) in
    (r, set_localStorage st w).

Definition saveToSessionStorage (key value : string) : Sync unit :=
  fun w =>
    let '(r, st) := saveTo sessionArea key value (sessionStorage w) in
    (r, set_sessionStorage st w).

End Storage.

End Lib.

(** ** Asynchronous code

    An [async] function is a tree: synchronous reads and writes of the
    world, requests handed to [post] (which returns a promise at once),
    callbacks attached to a promise, and suspension points where the
    function waits for a promise to settle.

    Modelled from the spec: the verbs made by [makeApiVerbCreator]
    (common/util is not under src/).  [Post] sends the request and returns
    its promise; the promise settles to a [Maybe]: a success, or a failure
    that also stands for a transport error (section 6: any other failure or
    transport error is a retryable failure). *)

Inductive Async (A : Type) : Type :=
| Ret (a : A)
| Throw (e : Exception)
| Get (k : World -> Async A)
| Put (w : World) (k : Async A)
| Post (r : Request) (k : PromiseId -> Async A)
| Then (p : PromiseId) (cb : Callback) (k : Async A)
| Await (p : PromiseId) (k : Maybe -> Async A).
Arguments Ret {A} a.
Arguments Throw {A} e.
Arguments Get {A} k.
Arguments Put {A} w k.
Arguments Post {A} r k.
Arguments Then {A} p cb k.
Arguments Await {A} p k.

Fixpoint abind {A B} (m : Async A) (f : A -> Async B) : Async B :=
  match m with
  | Ret a => f a
  | Throw e => Throw e
  | Get k => Get (fun w => abind (k w) f)
  | Put w k => Put w (abind k f)
  | Post r k => Post r (fun p => abind (k p) f)
  | Then p cb k => Then p cb (abind k f)
  | Await p k => Await p (fun r => abind (k r) f)
  end.

(** A synchronous call made from an [async] function. *)
Definition liftS {A} (s : Sync A) : Async A :=
  Get (fun w =>
    match s w with
    | (Ok a, w') => Put w' (Ret a)
    | (Exn e, w') => Put w' (Throw e)
    end).

Declare Scope async_scope.
Delimit Scope async_scope with async.
Notation "'do' x <- m ; k" := (abind m (fun x => k))
  (at level 10, x name, m at level 100, k at level 200) : async_scope.
Notation "'do_' m ; k" := (abind m (fun _ => k))
  (at level 10, m at level 100, k at level 200) : async_scope.

(** *** Settling a promise *)

Definition runCallback (cb : Callback) (w : World) : World :=
  match cb with
  | ClearSessionPromise self =>
      set_apis (alter (set_sessionPromise None) self (apis w)) w
  end.

(** When promise [p] settles, the callbacks attached to it run in the order
    they were attached and leave the registry. *)
Definition fire (p : PromiseId) (w : World) : World :=
  fold_left (fun w' r => runCallback (snd r) w')
    (List.filter (fun r => Nat.eqb (fst r) p) (reactions w))
    (set_reactions
       (List.filter (fun r => negb (Nat.eqb (fst r) p)) (reactions w)) w).

(** *** Running an [async] function

    One step of the environment: the value the awaited promise settles to,
    and what the rest of the page did to the world in the meantime. *)
Record EnvStep := mkEnvStep {
  settled : Maybe;
  interfere : World -> World
}.

Inductive Outcome (A : Type) : Type :=
| Finished (r : Res A)
| Suspended (p : PromiseId) (k : Maybe -> Async A).
Arguments Finished {A} r.
Arguments Suspended {A} p k.

(** [exec m env w tr] runs [m] from world [w]; each suspension consumes one
    step of [env], and the run stops suspended when [env] is used up.  The
    trace [tr] gains, for each request issued, the request and the world at
    the moment it is issued. *)
Fixpoint exec {A} (m : Async A) (env : list EnvStep) (w : World)
    (tr : list (Request * World))
  : Outcome A * World * list EnvStep * list (Request * World) :=
  match m with
  | Ret a => (Finished (Ok a), w, env, tr)
  | Throw e => (Finished (Exn e), w, env, tr)
  | Get k => exec (k w) env w tr
  | Put w' k => exec k env w' tr
  | Post r k =>
      exec (k (length (requests w))) env
           (set_requests (requests w ++ [r]) w) (tr ++ [(r, w)])
  | Then p cb k =>
      exec k env (set_reactions (reactions w ++ [(p, cb)]) w) tr
  | Await p k =>
      match env with
      | [] => (Suspended p k, w, [], tr)
      | s :: env' => exec (k (settled s)) env' (interfere s (fire p w)) tr
      end
  end.

(** The synchronous part of a call: run until the first suspension. *)
Definition start {A} (m : Async A) (w : World) : Outcome A * World :=
  let '(o, w', _, _) := exec m [] w [] in (o, w').

(** ** api.ts *)

Section Api.

Context {X : External}.

Import Lib.

Definition retryDelay : Z := 60000.
Definition eventsStorageKey : string := "events".

(** [new Date(e.lastAttempt)]: the timestamp read back from its serialised
    form. *)
Definition reviveDate (e : StoredEvent) : StoredEvent :=
  set_lastAttempt (lastAttempt e) e.

Definition loadStoredEvents : Sync (list StoredEvent) :=
  (do dataStr <- getFromLocalStorage eventsStorageKey;
   match dataStr with
   | None => sret []
   | Some data =>
     if negb (truthy data) then sret []
     else
       do flag <- getFromLocalStorage "lz-string";
       let json :=
         if bool_decide (flag = Some "true")
         then decompressFromUTF16 data
         else Some data in
       match json with
       | None => sret []
       | Some j =>
         if negb (truthy j) then sret []
         else
           match JSON_parse j with
           | Some l => sret (map reviveDate l)
           | None => sthrow SyntaxError
           end
       end
   end)%sync.

(** The [try] block of [saveStoredEvents]. *)
Definition writeStoredEvents (events : list StoredEvent) : Sync unit :=
  (do_ saveToLocalStorage "lz-string" "true";
   match JSON_stringify events with
   | Some s => saveToLocalStorage eventsStorageKey (compressToUTF16 s)
   | None => sthrow (Error "JSON.stringify")
   end)%sync.

Definition saveStoredEvents (events : list StoredEvent) : Sync unit :=
  scatch (writeStoredEvents events)
         (fun _ => saveToLocalStorage eventsStorageKey "").

Definition clearStoredEvent (ev : Event) : Sync unit :=
  (do events <- loadStoredEvents;
   let newEvents :=
     List.filter
       (fun e => negb (String.eqb (localUuid (event e)) (localUuid ev)))
       events in
   saveStoredEvents newEvents)%sync.

(** *** The closure created by [createApi] *)

Definition getApi (self : ApiRef) : Sync ApiVars :=
  fun w => (Ok (apis w !!! self), w).

Definition modifyApi (f : ApiVars -> ApiVars) (self : ApiRef) : Sync unit :=
  smodify (fun w => set_apis (alter f self (apis w)) w).

(** [a ?? b] *)
Definition nullish {A} (a : option A) (b : A) : A :=
  match a with
  | Some x => x
  | None => b
  end.

Definition createApi (url : string) (overrideParticipantCode : option string)
  : Sync ApiRef :=
  (do stored <- getFromLocalStorage "participantCode";
   do session <- getFromSessionStorage "sessionUuid";
   let code := nullish stored (nullish overrideParticipantCode "") in
   fun w =>
     (Ok (length (apis w)),
      set_apis (apis w ++ [mkApiVars url code (nullish session "") None]) w))%sync.

Definition storeEvent (self : ApiRef) (ev : Event) : Sync unit :=
  (do storedEvents <- loadStoredEvents;
   do vars <- getApi self;
   do w <- sget;
   let toStore :=
     mkStoredEvent (apiUrl vars) ev (clock w) false 1
                   (participantCode vars) true in
   saveStoredEvents (storedEvents ++ [toStore]))%sync.

Definition headers (self : ApiRef) : Sync Headers :=
  (do vars <- getApi self;
   sret (mkHeaders "application/json" (participantCode vars)))%sync.

(** [verb('POST')(route, body, headers)]: the request goes out and its
    promise is returned. *)
Definition post (self : ApiRef) (route : Route) (body : Body) (h : Headers)
  : Async PromiseId :=
  (do vars <- liftS (getApi self);
   Post (mkRequest POST (apiUrl vars) route body h) Ret)%async.

Definition createSession (self : ApiRef) : Async Maybe :=
  (do vars <- liftS (getApi self);
   match sessionPromise vars with
   | Some p => Await p Ret
   | None =>
     do h <- liftS (headers self);
     do p <- post self postCreateSession BodyEmpty h;
     do_ liftS (modifyApi (set_sessionPromise (Some p)) self);
     Then p (ClearSessionPromise self) (Await p Ret)
   end)%async.

Definition setAuth (self : ApiRef) (code : string) : Sync unit :=
  (do_ saveToLocalStorage "participantCode" code;
   modifyApi (set_participantCode code) self)%sync.

Definition getAuth (self : ApiRef) : Sync string :=
  (do vars <- getApi self; sret (participantCode vars))%sync.

Definition newSession (self : ApiRef) : Async string :=
  (do vars <- liftS (getApi self);
   if negb (truthy (participantCode vars))
   then Throw (Error "Missing participant code!")
   else
     do res <- createSession self;
     match res with
     | Success value =>
       do_ liftS (modifyApi (set_sessionUuid (value_uuid value)) self);
       do_ liftS (saveToSessionStorage "sessionUuid" (value_uuid value));
       Ret (value_uuid value)
     | Failure message _ =>
       Throw (Error ("Failed to create new session: " +:+ message))
     end)%async.

Definition getSession (self : ApiRef) : Sync (option string) :=
  (do vars <- getApi self;
   sret (if String.eqb (sessionUuid vars) "" then None
         else Some (sessionUuid vars)))%sync.

Definition ensureSession (self : ApiRef) : Async unit :=
  (do vars <- liftS (getApi self);
   if negb (String.eqb (sessionUuid vars) "") then Ret tt
   else
     match sessionPromise vars with
     | Some p => Await p (fun _ => Ret tt)
     | None => do_ newSession self; Ret tt
     end)%async.

Definition postEvent (self : ApiRef) (inputEvent : Event) (storeForRetry : bool)
  : Async bool :=
  (do h <- liftS (headers self);
   if negb (truthy (x_participant_code h)) then Ret false
   else
     do w <- liftS sget;
     let ev0 :=
       set_tabActive (tabIsActive w)
         (set_extensionVersion (Some packageJson_version)
            (set_context (Some (nullish (context inputEvent) (referrer w)))
               inputEvent)) in
     do ev1 <-
       (if String.eqb (ev_sessionUuid ev0) ""
        then
          do_ ensureSession self;
          do vars <- liftS (getApi self);
          Ret (set_ev_sessionUuid (sessionUuid vars) ev0)
        else Ret ev0);
     do_ (if storeForRetry then liftS (storeEvent self ev1) else Ret tt);
     do w' <- liftS sget;
     let ev2 :=
       if negb (truthyO (url ev1)) then set_url (Some (href w')) ev1 else ev1 in
     do p <- post self postEventRoute (BodyEvent ev2) h;
     do res <- Await p Ret;
     match res with
     | Success _ =>
       do_ liftS (clearStoredEvent ev2); Ret true
     | Failure _ code =>
       if bool_decide (code = Some "EVENT_ALREADY_EXISTS_OK")
       then do_ liftS (clearStoredEvent ev2); Ret true
       else Ret false
     end)%async.

Definition getHeaders (self : ApiRef) : Sync Headers := headers self.

Definition setTabActive (active : option bool) : Sync unit :=
  smodify (set_tabIsActive active).

(** *** The retry sweep *)

(** The body of the [for] loop of [retryToPostStoredEvents], returning the
    entry as the loop leaves it. *)
Definition sweepEntry (storedEvent : StoredEvent) : Async StoredEvent :=
  (do w <- liftS sget;
   let latestAttempt := lastAttempt storedEvent in
   let timeUntilNextAttempt := latestAttempt + retryDelay - clock w in
   if (0 <? timeUntilNextAttempt) && negb (tryImmediately storedEvent)
   then Ret storedEvent
   else
     let se :=
       set_tryImmediately false
         (set_attempts (attempts storedEvent + 1) storedEvent) in
     do api <- liftS (createApi (se_apiUrl se) (Some (se_participantCode se)));
     do h <- liftS (getHeaders api);
     if negb (truthy (x_participant_code h))
     then Ret (set_persisted true se)
     else
       do result <- postEvent api (event se) false;
       if result : bool
       then Ret (set_persisted true se)
       else
         do w' <- liftS sget;
         Ret (set_lastAttempt (clock w') se))%async.

Fixpoint sweepLoop (storedEvents : list StoredEvent)
  : Async (list StoredEvent) :=
  match storedEvents with
  | [] => Ret []
  | storedEvent :: rest =>
    (do se <- sweepEntry storedEvent;
     do rest' <- sweepLoop rest;
     Ret (se :: rest'))%async
  end.

Definition retryToPostStoredEvents : Async unit :=
  (do storedEvents <- liftS loadStoredEvents;
   do swept <- sweepLoop storedEvents;
   let remainingEvents := List.filter (fun e => negb (persisted e)) swept in
   liftS (saveStoredEvents remainingEvents))%async.

End Api.

(** ** A reference instance of the external libraries

    A serialisation that satisfies [Lawful], used to run the model on
    concrete inputs: records are numbered through their [Countable]
    instance and the number is written in binary digits; compression
    prefixes one character.  The storage areas of [external] accept every
    write; those of [limited quota] refuse a write that would leave the
    area with more than [quota] characters of keys and values. *)

Module Reference.

#[global] Instance Event_eq_dec : EqDecision Event.
Proof. solve_decision. Defined.

#[global] Instance StoredEvent_eq_dec : EqDecision StoredEvent.
Proof. solve_decision. Defined.

#[global] Instance Event_countable : Countable Event.
Proof.
  refine (inj_countable
    (fun e => [encode (ev_type e); encode (localUuid e);
               encode (ev_sessionUuid e); encode (url e); encode (context e);
               encode (extensionVersion e); encode (tabActive e);
               encode (ev_payload e)])
    (fun l =>
       match l with
       | [a; b; c; d; e; f; g; h] =>
           a' ← decode a; b' ← decode b; c' ← decode c; d' ← decode d;
           e' ← decode e; f' ← decode f; g' ← decode g; h' ← decode h;
           Some (mkEvent a' b' c' d' e' f' g' h')
       | _ => None
       end) _).
  intros []; cbv beta iota.
  repeat (rewrite decode_encode; cbn [mbind option_bind]). reflexivity.
Defined.

#[global] Instance StoredEvent_countable : Countable StoredEvent.
Proof.
  refine (inj_countable
    (fun s => [encode (se_apiUrl s); encode (event s); encode (lastAttempt s);
               encode (persisted s); encode (attempts s);
               encode (se_participantCode s); encode (tryImmediately s)])
    (fun l =>
       match l with
       | [a; b; c; d; e; f; g] =>
           a' ← decode a; b' ← decode b; c' ← decode c; d' ← decode d;
           e' ← decode e; f' ← decode f; g' ← decode g;
           Some (mkStoredEvent a' b' c' d' e' f' g')
       | _ => None
       end) _).
  intros []; cbv beta iota.
  repeat (rewrite decode_encode; cbn [mbind option_bind]). reflexivity.
Defined.

Fixpoint digits_of_pos (p : positive) : string :=
  match p with
  | xH => "h"
  | xO q => String "o"%char (digits_of_pos q)
  | xI q => String "i"%char (digits_of_pos q)
  end.

Fixpoint pos_of_digits (s : string) : option positive :=
  match s with
  | EmptyString => None
  | String c r =>
    if Ascii.eqb c "h"%char then (if String.eqb r "" then Some xH else None)
    else if Ascii.eqb c "o"%char then xO <$> pos_of_digits r
    else if Ascii.eqb c "i"%char then xI <$> pos_of_digits r
    else None
  end.

Definition stringify (l : list StoredEvent) : option string :=
  Some (digits_of_pos (encode l)).

Definition parse (s : string) : option (list StoredEvent) :=
  pos_of_digits s ≫= decode.

Definition compress (s : string) : string := String " "%char s.

Definition decompress (s : string) : option string :=
  match s with
  | EmptyString => None
  | String c r => if Ascii.eqb c " "%char then Some r else None
  end.

#[global] Instance external : External := {|
  JSON_stringify := stringify;
  JSON_parse := parse;
  compressToUTF16 := compress;
  decompressFromUTF16 := decompress;
  packageJson_version := "1.0.0";
  setItem_refused := fun _ _ _ _ => false
|}.

(** The characters an area holds, keys and values. *)
Definition area_size (st : gmap string string) : nat :=
  map_fold (fun key value n => (String.length key + String.length value + n)%nat)
           0%nat st.

Definition limited (quota : nat) : External := {|
  JSON_stringify := stringify;
  JSON_parse := parse;
  compressToUTF16 := compress;
  decompressFromUTF16 := decompress;
  packageJson_version := "1.0.0";
  setItem_refused := fun _ st key value =>
    (quota <? area_size (<[key := value]> st))%nat
|}.

End Reference.


(** ** Auxiliary definitions used in the statements *)

(** The storage area after [saveStoredEvents] wrote the serialisation [s]. *)
Definition saved {X : External} (s : string) (st : gmap string string)
  : gmap string string :=
  <[Lib.namespace +:+ eventsStorageKey := compressToUTF16 s]>
    (delete eventsStorageKey
       (<[Lib.namespace +:+ "lz-string" := "true"]> (delete "lz-string" st))).

(** A storage area whose [events] value is not valid JSON. *)
Definition malformed_world : World :=
  mkWorld (<["ytdpnl-extension-events" := "{"]> ∅) ∅ None [] [] [] 0 "" "".

(** The request [createSession] hands to [post]. *)
Definition createSession_request (vars : ApiVars) : Request :=
  mkRequest POST (apiUrl vars) postCreateSession BodyEmpty
            (mkHeaders "application/json" (participantCode vars)).

(** The world right after [createSession] issued a request: the request is
    out, its promise is the in-flight handle of the closure, and the
    clearing callback is attached to it. *)
Definition session_requested (self : ApiRef) (w : World) : World :=
  set_reactions
    (reactions w ++ [(length (requests w), ClearSessionPromise self)])
    (set_apis
       (alter (set_sessionPromise (Some (length (requests w)))) self (apis w))
       (set_requests
          (requests w ++ [createSession_request (apis w !!! self)]) w)).

(** Calls made one after the other with no promise settling in between:
    each runs up to its first suspension. *)
Fixpoint callAll {A} (calls : list (Async A)) (w : World)
  : list (Outcome A) * World :=
  match calls with
  | [] => ([], w)
  | m :: rest =>
    let '(o, w1) := start m w in
    let '(os, w2) := callAll rest w1 in
    (o :: os, w2)
  end.

(** A continuation that hands the settled value back to its caller. *)
Definition delivers (res : Maybe) (k : Maybe -> Async Maybe) : Prop :=
  forall env w tr, exec (k res) env w tr = (Finished (Ok res), w, env, tr).

(** *** The phases of [postEvent]

    [postEvent] is cut at the points the statements below refer to: the
    enrichment of the input event, the assignment of the session
    identifier, the submission, and the interpretation of the response.
    [postEvent_phases] shows that the pieces put together are [postEvent]. *)

Definition enrich {X : External} (w : World) (inputEvent : Event) : Event :=
  set_tabActive (tabIsActive w)
    (set_extensionVersion (Some packageJson_version)
       (set_context (Some (nullish (context inputEvent) (referrer w)))
          inputEvent)).

Definition session_phase {X : External} (self : ApiRef) (ev0 : Event)
  : Async Event :=
  (if String.eqb (ev_sessionUuid ev0) ""
   then
     do_ ensureSession self;
     do vars <- liftS (getApi self);
     Ret (set_ev_sessionUuid (sessionUuid vars) ev0)
   else Ret ev0)%async.

Definition fill_url (w : World) (ev1 : Event) : Event :=
  if negb (truthyO (url ev1)) then set_url (Some (href w)) ev1 else ev1.

(** The responses [postEvent] treats as a delivery. *)
Definition delivered (res : Maybe) : bool :=
  match res with
  | Success _ => true
  | Failure _ code => bool_decide (code = Some "EVENT_ALREADY_EXISTS_OK")
  end.

Definition respond {X : External} (ev2 : Event) (res : Maybe) : Async bool :=
  match res with
  | Success _ =>
    (do_ liftS (clearStoredEvent ev2); Ret true)%async
  | Failure _ code =>
    if bool_decide (code = Some "EVENT_ALREADY_EXISTS_OK")
    then (do_ liftS (clearStoredEvent ev2); Ret true)%async
    else Ret false
  end.

Definition submit_phase {X : External} (self : ApiRef) (h : Headers)
    (ev1 : Event) (storeForRetry : bool) : Async bool :=
  (do_ (if storeForRetry then liftS (storeEvent self ev1) else Ret tt);
   do w' <- liftS sget;
   do p <- post self postEventRoute (BodyEvent (fill_url w' ev1)) h;
   do res <- Await p Ret;
   respond (fill_url w' ev1) res)%async.

(** The envelope [storeEvent] appends for event [ev] in world [w]. *)
Definition envelope (self : ApiRef) (w : World) (ev : Event) : StoredEvent :=
  mkStoredEvent (apiUrl (apis w !!! self)) ev (clock w) false 1
                (participantCode (apis w !!! self)) true.

(** [e.event.localUuid !== event.localUuid], the filter of
    [clearStoredEvent]. *)
Definition other_uuid (ev : Event) (s : StoredEvent) : bool :=
  negb (String.eqb (localUuid (event s)) (localUuid ev)).

(** A property of every request a function may issue and of every value it
    may return, whatever the environment does. *)
Fixpoint always {A} (I : Request -> Prop) (Q : A -> Prop) (m : Async A) : Prop :=
  match m with
  | Ret a => Q a
  | Throw _ => True
  | Get k => forall w, always I Q (k w)
  | Put _ k => always I Q k
  | Post r k => I r /\ forall p, always I Q (k p)
  | Then _ _ k => always I Q k
  | Await _ k => forall r, always I Q (k r)
  end.

(** A request on the session-creation route. *)
Definition creates_session (r : Request) : Prop :=
  rq_route r = postCreateSession.

(** The request [postEvent] hands to [post] for event [ev1] in world [w]. *)
Definition submission (self : ApiRef) (h : Headers) (w : World) (ev1 : Event)
  : Request :=
  mkRequest POST (apiUrl (apis w !!! self)) postEventRoute
            (BodyEvent (fill_url w ev1)) h.

(** ** Concrete scenarios

    Run with the reference instance of the external libraries. *)

Module Scenario.

Import Reference.

Definition page_view : Event :=
  mkEvent "PAGE_VIEW" "uuid-1" "" None None None None "".

Definition watch_time : Event :=
  mkEvent "WATCH_TIME" "uuid-2" "S1" (Some "https://www.youtube.com/watch?v=1")
          None None None "42".

(** Participant P1 is signed in; [session] is the cached session identifier
    of the page's closure (closure 0). *)
Definition signed_in (session : string) : World :=
  mkWorld (<["ytdpnl-extension-participantCode" := "P1"]> ∅) ∅ (Some true)
          [mkApiVars "https://collector" "P1" session None]
          [] [] 1000 "https://www.youtube.com/" "https://referrer/".

(** Nobody is signed in. *)
Definition anonymous : World :=
  mkWorld ∅ ∅ None [mkApiVars "https://collector" "" "" None]
          [] [] 1000 "https://www.youtube.com/" "".

Definition offline : EnvStep := mkEnvStep (Failure "offline" None) id.
Definition accepted : EnvStep := mkEnvStep (Success (VBool true)) id.

Definition outcome_of {A} (r : Outcome A * World * list EnvStep * list (Request * World))
  : Outcome A := fst (fst (fst r)).
Definition world_of {A} (r : Outcome A * World * list EnvStep * list (Request * World))
  : World := snd (fst (fst r)).
Definition rest_of {A} (r : Outcome A * World * list EnvStep * list (Request * World))
  : list EnvStep := snd (fst r).
Definition trace_of {A} (r : Outcome A * World * list EnvStep * list (Request * World))
  : list (Request * World) := snd r.

(** What a finished call returned. *)
Definition returned {A} (o : Outcome A) : option (Res A) :=
  match o with
  | Finished r => Some r
  | Suspended _ _ => None
  end.

(** The queue as [loadStoredEvents] reads it. *)
Definition queue (w : World) : Res (list StoredEvent) :=
  fst (loadStoredEvents w).

(** *** A page view posted while offline *)

(** [page_view] as [postEvent] enriches it on this page, under the cached
    session. *)
Definition enriched_page_view : Event :=
  set_ev_sessionUuid "S1" (enrich (signed_in "S1") page_view).

Definition offline_post :=
  exec (postEvent 0%nat page_view true) [offline] (signed_in "S1") [].

(** The world from which the envelope of [page_view] is submitted, and the
    request. *)
Definition offline_post_stored : World :=
  snd (storeEvent 0%nat enriched_page_view (signed_in "S1")).

Definition offline_post_request : Request :=
  submission 0%nat (mkHeaders "application/json" "P1") offline_post_stored
             enriched_page_view.

(** *** The same event posted again, and answered as a duplicate

    The queue already holds one envelope of [page_view]; the second call
    stores another copy and waits for its response. *)
Definition second_post_stored : World :=
  snd (storeEvent 0%nat enriched_page_view (world_of offline_post)).

Definition second_post_request : Request :=
  submission 0%nat (mkHeaders "application/json" "P1") second_post_stored
             enriched_page_view.

Definition pending_world : World :=
  set_requests (requests second_post_stored ++ [second_post_request])
               second_post_stored.

Definition pending_continuation : Maybe -> Async bool :=
  respond (fill_url second_post_stored enriched_page_view).

Definition two_copies : list StoredEvent :=
  [envelope 0%nat offline_post_stored enriched_page_view;
   envelope 0%nat second_post_stored enriched_page_view].

Definition duplicate : Maybe :=
  Failure "duplicate" (Some "EVENT_ALREADY_EXISTS_OK").

(** *** An event posted when the storage has no room for the queue

    The local storage area takes 100 characters and holds the participant
    code.  The flag fits, the compressed queue does not: its [setItem]
    throws, and the [catch] of [saveStoredEvents] writes the empty
    string. *)
Definition cramped : External := limited 100.

(** The world in which the [try] block of [saveStoredEvents] threw. *)
Definition unstored : World :=
  snd (@writeStoredEvents cramped
         [envelope 0%nat (signed_in "S1")
            (@enrich cramped (signed_in "S1") watch_time)]
         (signed_in "S1")).

(** The world the [catch] leaves. *)
Definition forgotten : World :=
  snd (@Lib.saveToLocalStorage cramped eventsStorageKey "" unstored).

(** *** A sweep over a queue of two entries, one delivered, one not *)

Definition two_queued : World :=
  world_of (exec (postEvent 0%nat watch_time true) [offline]
                 (world_of offline_post) []).

Definition sweep_env : list EnvStep := [accepted; offline].

Definition swept := exec retryToPostStoredEvents sweep_env two_queued [].

(** *** A retry after the participant code changed

    The entry was queued while P1 was signed in; P2 signs in; the sweep
    runs. *)
Definition switched_identity : World :=
  snd (setAuth 0%nat "P2" (world_of offline_post)).

(** The entry the queue holds at that point, recorded under P1. *)
Definition queued_P1 : StoredEvent :=
  envelope 0%nat offline_post_stored enriched_page_view.

Definition retry_after_switch :=
  exec retryToPostStoredEvents [] switched_identity [].

(** *** An event posted while a failing session creation is in flight

    No session is cached; [newSession] has issued its request (promise 0);
    [postEvent] is called before the request completes; the request fails;
    the submission fails as well, and a sweep follows. *)
Definition creating : World :=
  snd (start (newSession 0%nat) (signed_in "")).

Definition server_error : EnvStep :=
  mkEnvStep (Failure "Internal Server Error" None) id.

Definition post_while_creating :=
  exec (postEvent 0%nat page_view true) [server_error; offline] creating [].

Definition session_S2 : EnvStep :=
  mkEnvStep (Success (VSession (mkSession "S2"))) id.

Definition retry_of_sessionless :=
  exec retryToPostStoredEvents [session_S2; offline]
       (world_of post_while_creating) [].

(** The session identifiers of the events in the bodies of the requests. *)
Definition submitted_sessions (tr : list (Request * World)) : list string :=
  flat_map (fun x => match rq_body (fst x) with
                     | BodyEvent ev => [ev_sessionUuid ev]
                     | _ => []
                     end) tr.

(** The session identifiers of the events in the queue. *)
Definition queued_sessions (w : World) : list string :=
  match queue w with
  | Ok l => map (fun s => ev_sessionUuid (event s)) l
  | Exn _ => []
  end.

(** The participant codes recorded in the queue. *)
Definition queued_codes (w : World) : list string :=
  match queue w with
  | Ok l => map se_participantCode l
  | Exn _ => []
  end.

Definition routes (tr : list (Request * World)) : list Route :=
  map (fun x => rq_route (fst x)) tr.

Definition header_codes (tr : list (Request * World)) : list string :=
  map (fun x => x_participant_code (rq_headers (fst x))) tr.

End Scenario.

(** * Further code of the repository

    The rest of the storage helpers of [src/lib.ts] and of the closure of
    [src/api.ts], the helpers of the page scraper and [walkTree] of
    [src/lib.ts], the recommendation fetcher and the home-shown event of
    the home page sub-app, and the tab bookkeeping of the background
    script. *)

From Stdlib Require DecimalString.

Import Lib.

(** ** lib.ts: deleting and cleaning storage *)

(** The body shared by [deleteFromLocalStorage] and
    [deleteFromSessionStorage]. *)
Definition deleteFrom (key : string) (st : gmap string string)
  : gmap string string :=
  delete (namespace +:+ key) (delete key st).

Definition deleteFromLocalStorage (key : string) : Sync unit :=
  smodify (fun w => set_localStorage (deleteFrom key (localStorage w)) w).

Definition deleteFromSessionStorage (key : string) : Sync unit :=
  smodify (fun w => set_sessionStorage (deleteFrom key (sessionStorage w)) w).

(** The loop shared by [cleanLocalStorage] and [cleanSessionStorage] over
    the keys [Object.keys] returned. *)
Definition cleanKeys (keys : list string) (st : gmap string string)
  : gmap string string :=
  fold_left
    (fun st' key => if String.prefix namespace key then delete key st' else st')
    keys st.

(** The body shared by [cleanLocalStorage] and [cleanSessionStorage]. *)
Definition cleanArea (st : gmap string string) : gmap string string :=
  cleanKeys (map fst (map_to_list st)) st.

Definition cleanLocalStorage : Sync unit :=
  smodify (fun w => set_localStorage (cleanArea (localStorage w)) w).

Definition cleanSessionStorage : Sync unit :=
  smodify (fun w => set_sessionStorage (cleanArea (sessionStorage w)) w).

Definition cleanStorage : Sync unit :=
  (do_ cleanLocalStorage; cleanSessionStorage)%sync.

(** ** api.ts: the rest of the closure *)

(** [for (const listener of onLogOutListeners) listener()] *)
Fixpoint notify (listeners : list (Sync unit)) : Sync unit :=
  match listeners with
  | [] => sret tt
  | listener :: rest => (do_ listener; notify rest)%sync
  end.

(** [logout]; the array [onLogOutListeners] of the closure, which
    [addOnLogoutListener] fills, is passed in. *)
Definition logout (self : ApiRef) (onLogOutListeners : list (Sync unit))
  : Sync unit :=
  (do_ deleteFromLocalStorage "participantCode";
   do_ deleteFromLocalStorage eventsStorageKey;
   do_ deleteFromSessionStorage "sessionUuid";
   do_ deleteFromSessionStorage "cfg";
   do_ modifyApi (set_participantCode "") self;
   do_ modifyApi (set_sessionUuid "") self;
   do_ cleanStorage;
   notify onLogOutListeners)%sync.

Definition addOnLogoutListener (listener : Sync unit)
    (onLogOutListeners : list (Sync unit)) : list (Sync unit) :=
  onLogOutListeners ++ [listener].

Definition checkParticipantCode (self : ApiRef) (code : string) : Async bool :=
  (do h <- liftS (headers self);
   do p <- post self postCheckParticipantCode (BodyCode code) h;
   do result <- Await p Ret;
   match result with
   | Success _ => Ret true
   | Failure _ _ => Ret false
   end)%async.


(** The world after [logout] ran with no listener registered. *)
Definition logged_out (self : ApiRef) (w : World) : World :=
  snd (logout self [] w).

(** Whether the session storage area of world [w] refuses the save of
    the session [uuid]. *)
Definition session_refused {X : External} (uuid : string) (w : World) : bool :=
  setItem_refused sessionArea (delete "sessionUuid" (sessionStorage w))
                  (namespace +:+ "sessionUuid") uuid.

(** The world after [newSession] received the session [uuid] in world [w]
    and the session storage area accepted it: the identifier is cached in
    the closure and saved to session storage. *)
Definition session_established (self : ApiRef) (uuid : string) (w : World)
  : World :=
  set_sessionStorage
    (<[namespace +:+ "sessionUuid" := uuid]>
       (delete "sessionUuid" (sessionStorage w)))
    (set_apis (alter (set_sessionUuid uuid) self (apis w)) w).

(** The request [checkParticipantCode] hands to [post]. *)
Definition checkParticipantCode_request (vars : ApiVars) (code : string)
  : Request :=
  mkRequest POST (apiUrl vars) postCheckParticipantCode (BodyCode code)
            (mkHeaders "application/json" (participantCode vars)).

(** [result.kind === 'Success'] *)
Definition is_success (res : Maybe) : bool :=
  match res with
  | Success _ => true
  | Failure _ _ => false
  end.

(** The world after [newSession] received the session [uuid] in world [w]
    and the session storage area refused it: the identifier is cached in
    the closure, and the legacy key is gone. *)
Definition session_cached (self : ApiRef) (uuid : string) (w : World)
  : World :=
  set_sessionStorage (delete "sessionUuid" (sessionStorage w))
    (set_apis (alter (set_sessionUuid uuid) self (apis w)) w).


(** The error [newSession] throws when the creation request fails. *)
Definition creation_failed (message : string) : Exception :=
  Error ("Failed to create new session: " +:+ message).


(** ** api.ts: the retry sweep, entry by entry *)

(** An entry as the sweep leaves it once it decided to retry it:
    [attempts += 1] and [tryImmediately = false]. *)
Definition retried (storedEvent : StoredEvent) : StoredEvent :=
  set_tryImmediately false (set_attempts (attempts storedEvent + 1) storedEvent).

(** The test of the sweep for leaving an entry alone at time [now]. *)
Definition not_due (now : Z) (storedEvent : StoredEvent) : Prop :=
  now < lastAttempt storedEvent + 60000 /\ tryImmediately storedEvent = false.

(** What a sweep may change in an entry: nothing in the event, the
    collector URL or the recorded participant code, and at most one more
    attempt. *)
Definition same_entry (s0 s : StoredEvent) : Prop :=
  event s = event s0
  /\ se_apiUrl s = se_apiUrl s0
  /\ se_participantCode s = se_participantCode s0
  /\ (attempts s = attempts s0 \/ attempts s = attempts s0 + 1).

(** ** lib.ts: helpers of the page scraper *)

(** A DOM element as [findParentById] reads it: its [id], its parent, and
    a handle that tells elements apart. *)
#[warnings="-register-all"] Inductive Element :=
| mkElement (el_handle : nat) (el_id : string) (parentElement : option Element).

Definition el_id (elt : Element) : string :=
  match elt with mkElement _ i _ => i end.

Fixpoint findParentById (elId : string) (elt : Element) : option Element :=
  match elt with
  | mkElement _ i parent =>
    if String.eqb i elId then Some elt
    else
      match parent with
      | Some p => findParentById elId p
      | None => None
      end
  end.

(** The element followed by its ancestors, nearest first. *)
Fixpoint ancestors_or_self (elt : Element) : list Element :=
  match elt with
  | mkElement _ _ parent =>
    elt :: match parent with
           | Some p => ancestors_or_self p
           | None => []
           end
  end.

(** [str.indexOf(needle)], [None] for [-1]. *)
Definition indexOf (needle str : string) : option nat := String.index 0 needle str.

(** [str.slice(0, index)] for [0 <= index]. *)
Definition slice0 (index : nat) (str : string) : string :=
  String.substring 0 index str.

Definition removeLettersAfter (subStrNeedle str : string) : string :=
  match indexOf subStrNeedle str with
  | None => str
  | Some index => slice0 index str
  end.

(** [.] of a regular expression: any character but a line terminator (the
    ASCII ones; an [href] holds ASCII characters only). *)
Definition is_dot (c : ascii) : bool :=
  negb (Ascii.eqb c "010"%char || Ascii.eqb c "013"%char).

Fixpoint all_dots (s : string) : bool :=
  match s with
  | EmptyString => true
  | String c r => is_dot c && all_dots r
  end.

(** [/\?v=(.+)$/.exec(href)]: the capture group of the leftmost match. *)
Fixpoint exec_v (href : string) : option string :=
  match href with
  | EmptyString => None
  | String c rest =>
    let captured := String.substring 3 (String.length href - 3) href in
    if String.prefix "?v=" href && negb (String.eqb captured "")
       && all_dots captured
    then Some captured
    else exec_v rest
  end.

(** [isLinkToVideo] on the [href] of the link; [None] for [false]. *)
Definition isLinkToVideo (href : string) : option string :=
  match exec_v href with
  | Some m1 => Some (removeLettersAfter "&" m1)
  | None => None
  end.

(** [s] occurs in [t]. *)
Definition occurs (s t : string) : Prop :=
  exists a b, t = a +:+ s +:+ b.

(** *** getRecommendationsOnPage *)

(** [RecommendationBase] (common/types/Recommendation). *)
Record RecommendationBase := mkRecommendationBase {
  rb_videoId : string;
  rb_title : string;
  rb_url : string
}.

(** How the promise of [getRecommendationsOnPage] settles. *)
Inductive Scraped :=
| Resolved (videos : list RecommendationBase)
| Rejected (e : Exception)
| OutOfFuel.

Definition delays : list Z := [1000; 2000; 3000; 5000; 8000; 13000].
Definition maxAttempts : nat := length delays.

(** [getVideos], called when [attempts] scrapes have failed.  [scrape n] is
    what [doGetRecommendationBases(linkSelector)] finds at the [n]-th call;
    the result comes with the delays handed to [setTimeout], in order. *)
Fixpoint getVideos (scrape : nat -> list RecommendationBase) (minimum : nat)
    (fuel attempts : nat) : Scraped * list Z :=
  match fuel with
  | O => (OutOfFuel, [])
  | S fuel' =>
    let videos := scrape attempts in
    if (minimum <=? length videos)%nat then (Resolved videos, [])
    else
      let attempts' := S attempts in
      if (attempts' <? maxAttempts)%nat then
        let delay := nth attempts' delays 0 in
        let '(r, waits) := getVideos scrape minimum fuel' attempts' in
        (r, delay :: waits)
      else (Rejected (Error "failed to get home videos"), [])
  end.

Definition getRecommendationsOnPage (scrape : nat -> list RecommendationBase)
    (minimum : nat) : Scraped * list Z :=
  getVideos scrape minimum maxAttempts 0.

(** ** The home page sub-app (apps/home) *)

Module HomeApp.

(** [ChannelRecommendation] of lib.ts, with the fields read here. *)
Record ChannelRecommendation := mkChannelRecommendation {
  cr_title : string;
  recommendation : RecommendationBase
}.

(** What the outside answers during one attempt to get recommendations:
    [api.getChannelSource(true)], [fetchRecommendationsToInject(source)]
    and [imageExists(url)]; [None] is a rejected promise. *)
Record Page := mkPage {
  getChannelSource : option string;
  fetchRecommendationsToInject : string -> option (list ChannelRecommendation);
  imageExists : string -> option bool
}.

(** [getRecommendations(force)] of [getRecommendationsToInject];
    [Promise.all] rejects as soon as one of the checks does. *)
Definition getRecommendations (getHomeMiniatureUrl : string -> string)
    (page : Page) (channelSource : string) (force : bool)
  : option (list RecommendationBase) :=
  recommendationsSource ← (if force then getChannelSource page
                           else Some channelSource);
  channelData ← fetchRecommendationsToInject page recommendationsSource;
  let unfilteredRecommendations := take 10 (map recommendation channelData) in
  filtered ← mapM (fun r =>
                     exists_ ← imageExists page (getHomeMiniatureUrl (rb_videoId r));
                     Some (exists_, r))
                  unfilteredRecommendations;
  Some (map snd (List.filter fst filtered)).

(** How the promise of [getRecommendationsToInject] settles. *)
Inductive Injected :=
| Returned (recommendations : list RecommendationBase)
| Thrown
| OutOfFuel.

Definition waitDelays : list Z := [1000; 2000; 3000; 5000; 8000].
Definition maxAttempts : nat := length waitDelays.

(** The [while] loop of [getRecommendationsToInject]; [pages n] is what the
    outside answers during the [n]-th attempt.  The result comes with the
    delays slept, in order. *)
Fixpoint loop (getHomeMiniatureUrl : string -> string) (pages : nat -> Page)
    (channelSource : string) (fuel : nat)
    (recommendations : list RecommendationBase) (attempts : nat)
  : Injected * list Z :=
  match fuel with
  | O => (OutOfFuel, [])
  | S fuel' =>
    if (length recommendations <? 3)%nat && (attempts <? maxAttempts)%nat then
      let attempts' := S attempts in
      match getRecommendations getHomeMiniatureUrl (pages attempts')
              channelSource (3 <=? attempts')%nat with
      | None => (Thrown, [])
      | Some recommendations' =>
        if (length recommendations' <? 3)%nat then
          let delay := nth (attempts' - 1) waitDelays 0 in
          let '(r, waits) := loop getHomeMiniatureUrl pages channelSource
                               fuel' recommendations' attempts' in
          (r, delay :: waits)
        else
          loop getHomeMiniatureUrl pages channelSource fuel'
            recommendations' attempts'
      end
    else (Returned recommendations, [])
  end.

Definition getRecommendationsToInject (getHomeMiniatureUrl : string -> string)
    (pages : nat -> Page) (channelSource : string) : Injected * list Z :=
  loop getHomeMiniatureUrl pages channelSource (S maxAttempts) [] 0.

(** A [HomeShownEvent]: the fields [hashHomeShownEvent] reads, in the order
    in which [triggerEvent] hands them to the constructor (the class,
    common/models/homeShownEvent, is not under src/), and [extra]. *)
Record HomeShownEvent := mkHomeShownEvent {
  defaultRecommendations : list RecommendationBase;
  replacementSource : list RecommendationBase;
  shown : option (list RecommendationBase);
  extra : option (option string * option Z)
}.

Definition hasRecommendations (rs : list RecommendationBase) : string :=
  String.concat "," (map rb_videoId rs).

Definition hashHomeShownEvent (e : HomeShownEvent) : string :=
  String.concat "-"
    [hasRecommendations (defaultRecommendations e);
     hasRecommendations (replacementSource e);
     hasRecommendations (nullish (shown e) [])].

(** The variables of [homeApp] that [triggerEvent] reads and writes. *)
Record HomeState := mkHomeState {
  st_channelSource : option string;
  st_channelPos : option Z;
  st_replacementSource : list RecommendationBase;
  st_homeVideos : list RecommendationBase;
  st_hasIntervention : bool;
  st_shown : list RecommendationBase;
  latestEventSentHash : option string
}.

Definition set_latestEventSentHash (h : option string) (st : HomeState)
  : HomeState :=
  mkHomeState (st_channelSource st) (st_channelPos st)
    (st_replacementSource st) (st_homeVideos st) (st_hasIntervention st)
    (st_shown st) h.

(** What a call of [triggerEvent] does: answer at once, or hand an event to
    [api.postEvent(event, true)].  With [awaited = false] the answer is
    [true] whatever becomes of the post; with [awaited = true] it is [true]
    when the post's promise resolves and [false] when it rejects. *)
Inductive Triggered :=
| Answers (b : bool)
| Posts (e : HomeShownEvent) (awaited : bool).

Definition triggerEvent (st : HomeState) : Triggered * HomeState :=
  if (length (st_homeVideos st) =? 0)%nat then (Answers false, st)
  else if negb (st_hasIntervention st) then
    let event := mkHomeShownEvent (take 10 (st_homeVideos st)) [] (Some []) None in
    let hash := hashHomeShownEvent event in
    if bool_decide (Some hash = latestEventSentHash st) then (Answers true, st)
    else (Posts event false, set_latestEventSentHash (Some hash) st)
  else if (length (st_shown st) =? 0)%nat then (Answers false, st)
  else if (length (st_replacementSource st) =? 0)%nat then (Answers false, st)
  else
    let event := mkHomeShownEvent (take 10 (st_homeVideos st))
                   (st_replacementSource st) (Some (st_shown st))
                   (Some (st_channelSource st, st_channelPos st)) in
    let hash := hashHomeShownEvent event in
    if bool_decide (Some hash = latestEventSentHash st) then (Answers true, st)
    else (Posts event true, set_latestEventSentHash (Some hash) st).

End HomeApp.

(** ** The background script

    The script that follows lib.ts in [src/src/lib.ts]: it tells the tabs
    which of them is active. *)

Module Background.

Inductive MessageType := your_tab_is_active | your_tab_is_not_active.

(** [chrome.tabs.sendMessage(to, {type, tabId})]. *)
Record Message := mkMessage {
  msg_to : nat;
  msg_type : MessageType;
  msg_tabId : nat
}.

(** [tabIds], a [Set<number>] in insertion order, and the messages sent. *)
Record State := mkState {
  tabIds : list nat;
  sent : list Message
}.

Definition set_add (id : nat) (s : list nat) : list nat :=
  if bool_decide (id ∈ s) then s else s ++ [id].

Definition set_delete (id : nat) (s : list nat) : list nat :=
  List.filter (fun x => negb (x =? id)%nat) s.

Definition sendMessage (to : nat) (type : MessageType) (tabId : nat)
    (st : State) : State :=
  mkState (tabIds st) (sent st ++ [mkMessage to type tabId]).

(** The listener of [chrome.tabs.onActivated]. *)
Definition onActivated (tabId : option nat) (st : State) : State :=
  match tabId with
  | None => st
  | Some tabId =>
    fold_left
      (fun st' id =>
         if negb (id =? tabId)%nat
         then sendMessage id your_tab_is_not_active tabId st'
         else st')
      (tabIds st)
      (sendMessage tabId your_tab_is_active tabId st)
  end.

(** The listener of [chrome.tabs.onRemoved]. *)
Definition onRemoved (tabId : nat) (st : State) : State :=
  mkState (set_delete tabId (tabIds st)) (sent st).

(** [main] once both queries have answered: [initialTabs] are the [id]s of
    the tabs, [activeTab] the [id] of the active tab ([None] when there is
    no such tab, or it has no id). *)
Definition main (initialTabs : list (option nat)) (activeTab : option nat)
    (st : State) : State :=
  fold_left
    (fun st' id =>
       match id with
       | None => st'
       | Some id =>
         let st'' := mkState (set_add id (tabIds st')) (sent st') in
         if bool_decide (Some id = activeTab)
         then sendMessage id your_tab_is_active id st''
         else sendMessage id your_tab_is_not_active id st''
       end)
    initialTabs st.

(** What the browser reports to the script once [main] has run. *)
Inductive TabEvent :=
| Activated (tabId : option nat)
| Removed (tabId : nat).

Definition handle (st : State) (e : TabEvent) : State :=
  match e with
  | Activated tabId => onActivated tabId st
  | Removed tabId => onRemoved tabId st
  end.

Definition run (events : list TabEvent) (st : State) : State :=
  fold_left handle events st.

Definition initial : State := mkState [] [].

End Background.

(** ** lib.ts: walkTree *)

(** A parsed JSON value as [walkTree] tells values apart: [null], an array,
    another object with its entries in order, or anything else. *)
#[warnings="-register-all"] Inductive Json :=
| JNull
| JOther (text : string)
| JArray (items : list Json)
| JObject (entries : list (string * Json)).

Inductive AndThen := recurse | stop.

(** A [TreeCallback]; what it does besides answering is a change of a
    state [St]. *)
Definition TreeCallback (St : Type) : Type :=
  Json -> list string -> Json -> St -> AndThen * St.

(** [index.toString()] *)
Definition toString (index : nat) : string :=
  DecimalString.NilEmpty.string_of_uint (Nat.to_uint index).

(** [walk] of [walkTree]. *)
Fixpoint walk {St} (cb : TreeCallback St) (fullObject node : Json)
    (path : list string) (s : St) {struct node} : St :=
  let '(andThen, s) := cb node path fullObject s in
  match andThen with
  | stop => s
  | recurse =>
    match node with
    | JNull => s
    | JArray items =>
      (fix each (items : list Json) (index : nat) (s : St) {struct items} : St :=
         match items with
         | [] => s
         | value :: rest =>
           each rest (S index)
             (walk cb fullObject value (path ++ [toString index]) s)
         end) items 0%nat s
    | JObject entries =>
      (fix each (entries : list (string * Json)) (s : St) {struct entries} : St :=
         match entries with
         | [] => s
         | (key, value) :: rest =>
           each rest (walk cb fullObject value (path ++ [key]) s)
         end) entries s
    | JOther _ => s
    end
  end.

Definition walkTree {St} (cb : TreeCallback St) (node : Json) (s : St) : St :=
  walk cb node node [] s.

(** A callback that answers by [answer] and records the node and the path
    it was called with. *)
Definition recording (answer : Json -> list string -> Json -> AndThen)
  : TreeCallback (list (Json * list string)) :=
  fun node path fullObject calls =>
    (answer node path fullObject, calls ++ [(node, path)]).

(** [value] is the item or the entry of [node] under [key]. *)
Inductive child : Json -> string -> Json -> Prop :=
| child_item items index value :
    items !! index = Some value ->
    child (JArray items) (toString index) value
| child_entry entries key value :
    (key, value) ∈ entries ->
    child (JObject entries) key value.

(** [reach answer root node path (n, p)]: [n] at path [p] is [node] at
    [path], or lies below it under nodes for which [answer] is
    [recurse]. *)
Inductive reach (answer : Json -> list string -> Json -> AndThen)
    (root : Json) : Json -> list string -> Json * list string -> Prop :=
| reach_here node path : reach answer root node path (node, path)
| reach_below node path key value x :
    answer node path root = recurse ->
    child node key value ->
    reach answer root value (path ++ [key]) x ->
    reach answer root node path x.

(** ** Further concrete cases *)

Module Cases.

Import Reference Scenario.

(** A storage area holding one value under a legacy key. *)
Definition legacy_area : gmap string string := <["cfg" := "control"]> ∅.

(** The sweep's loop body on the entry queued by [offline_post], the retry
    being answered with a failure. *)
Definition failed_retry :=
  exec (sweepEntry queued_P1) [offline] (world_of offline_post) [].

(** The entry as that retry leaves it. *)
Definition failed_entry : StoredEvent :=
  match outcome_of failed_retry with
  | Finished (Ok s) => s
  | _ => queued_P1
  end.

(** The entries of a queue, none when it cannot be read. *)
Definition entries (w : World) : list StoredEvent :=
  match queue w with
  | Ok l => l
  | Exn _ => []
  end.

(** An entry recorded without a participant code. *)
Definition orphan : StoredEvent :=
  mkStoredEvent "https://collector" watch_time 1000 false 1 "" true.

(** A sweep over the queue [offline_post] left, the retry failing again. *)
Definition one_swept :=
  exec retryToPostStoredEvents [offline] (world_of offline_post) [].

(** The world after [clearStoredEvent] removed the copies of [page_view]
    from the queue [offline_post] left. *)
Definition cleared : World :=
  snd (clearStoredEvent page_view (world_of offline_post)).

Definition video (id : string) : RecommendationBase :=
  mkRecommendationBase id ("title of " +:+ id)
    ("https://www.youtube.com/watch?v=" +:+ id).

(** The home page scraped, no intervention, nothing sent yet. *)
Definition scraped : HomeApp.HomeState :=
  HomeApp.mkHomeState None None [] [video "a"; video "b"; video "c"] false []
    None.

Definition home_shown : HomeApp.HomeShownEvent :=
  HomeApp.mkHomeShownEvent [video "a"; video "b"; video "c"] [] (Some []) None.

(** Two tabs known to the background script. *)
Definition two_tabs : Background.State := Background.mkState [1%nat; 2%nat] [].

End Cases.

(** ** Properties of the machinery *)

Lemma truthy_true (s : string) : truthy s = true <-> s <> "".
Proof.
  unfold truthy. rewrite negb_true_iff. split.
  - intros E ->. discriminate.
  - intros N. apply String.eqb_neq, N.
Qed.

Lemma exec_abind {A B} (m : Async A) (f : A -> Async B) env w tr :
  exec (abind m f) env w tr =
  match exec m env w tr with
  | (Finished (Ok a), w1, env1, tr1) => exec (f a) env1 w1 tr1
  | (Finished (Exn e), w1, env1, tr1) => (Finished (Exn e), w1, env1, tr1)
  | (Suspended p k, w1, env1, tr1) =>
      (Suspended p (fun r => abind (k r) f), w1, env1, tr1)
  end.
Proof.
  revert env w tr.
  induction m as [a | e | k IH | w0 k IH | r k IH | p cb k IH | p k IH];
    intros env w tr; simpl; auto.
  destruct env as [| s env']; auto.
Qed.

Lemma exec_liftS {A} (s : Sync A) env w tr :
  exec (liftS s) env w tr =
  (Finished (fst (s w)), snd (s w), env, tr).
Proof.
  unfold liftS. simpl. destruct (s w) as [[a | e] w']; reflexivity.
Qed.

Lemma exec_sget env w tr :
  exec (liftS sget) env w tr = (Finished (Ok w), w, env, tr).
Proof. reflexivity. Qed.

(** The trace only grows, and the run does not depend on what it already
    holds. *)
Lemma exec_trace {A} (m : Async A) env w tr :
  exec m env w tr =
  let '(o, w', env', t) := exec m env w [] in (o, w', env', tr ++ t).
Proof.
  revert env w tr.
  induction m as [a | e | k IH | w0 k IH | r k IH | p cb k IH | p k IH];
    intros env w tr; simpl; rewrite ?app_nil_r; auto.
  - rewrite (IH _ env _ (tr ++ [(r, w)])), (IH _ env _ [(r, w)]).
    destruct (exec (k (length (requests w))) env _ []) as [[[o w'] env'] t].
    rewrite app_assoc. reflexivity.
  - destruct env as [| s env']; simpl; rewrite ?app_nil_r; auto.
Qed.

(** ** The reference instance is lawful *)

Lemma pos_of_digits_of_pos p :
  Reference.pos_of_digits (Reference.digits_of_pos p) = Some p.
Proof.
  induction p as [q IH | q IH | ]; simpl; try rewrite IH; reflexivity.
Qed.

Lemma digits_of_pos_nonempty p : Reference.digits_of_pos p <> "".
Proof. destruct p; discriminate. Qed.

#[global] Instance Reference_lawful : Lawful Reference.external.
Proof.
  split; simpl.
  - intros l. eexists. reflexivity.
  - intros l s [= <-]. unfold Reference.parse.
    rewrite pos_of_digits_of_pos. simpl. apply decode_encode.
  - intros l [= E]. eapply digits_of_pos_nonempty, E.
  - reflexivity.
  - discriminate.
Qed.

#[global] Instance Reference_spacious : Spacious Reference.external.
Proof. split. reflexivity. Qed.

(** ** The durable queue: what is read back after a write *)

Import Lib.

(** What is read back is stated for serialisations that satisfy [Lawful].
    The storage areas accept every write ([Spacious]) only where a lemma
    says what an accepted write leaves; [load_after_forgetting],
    [load_after_write], [load_after_any_save] and
    [storeEvent_appends_or_forgets] hold whatever the browser accepts. *)

Section Queue.

Context {X : External} {L : Lawful X} {S : Spacious X}.

Lemma map_reviveDate (l : list StoredEvent) : map reviveDate l = l.
Proof.
  induction l as [| [] l IH]; simpl; [reflexivity |].
  rewrite IH. reflexivity.
Qed.

Lemma saveToLocalStorage_accepted (key value : string) (w : World) :
  setItem_refused localArea (delete key (localStorage w))
                  (namespace +:+ key) value = false ->
  saveToLocalStorage key value w
  = (Ok tt,
     set_localStorage
       (<[namespace +:+ key := value]> (delete key (localStorage w))) w).
Proof.
  intros H. unfold saveToLocalStorage, saveTo, setItem. rewrite H. reflexivity.
Qed.

Lemma saveToLocalStorage_refused (key value : string) (w : World) :
  setItem_refused localArea (delete key (localStorage w))
                  (namespace +:+ key) value = true ->
  saveToLocalStorage key value w
  = (Exn QuotaExceededError, set_localStorage (delete key (localStorage w)) w).
Proof.
  intros H. unfold saveToLocalStorage, saveTo, setItem. rewrite H. reflexivity.
Qed.

Lemma saveStoredEvents_saved (l : list StoredEvent) (w : World) :
  exists s, JSON_stringify l = Some s /\
    saveStoredEvents l w = (Ok tt, set_localStorage (saved s (localStorage w)) w).
Proof.
  destruct (stringify_total l) as [s E]. exists s. split; [exact E |].
  unfold saveStoredEvents, writeStoredEvents, scatch, sbind.
  rewrite saveToLocalStorage_accepted by apply setItem_accepted.
  rewrite E.
  rewrite saveToLocalStorage_accepted by apply setItem_accepted.
  reflexivity.
Qed.

Lemma getFromLocalStorage_hit (key v : string) (w : World) :
  localStorage w !! (namespace +:+ key) = Some v -> v <> "" ->
  getFromLocalStorage key w = (Ok (Some v), w).
Proof.
  intros E N. unfold getFromLocalStorage, getFrom. rewrite E. simpl.
  rewrite (proj2 (truthy_true v) N). destruct w; reflexivity.
Qed.

Lemma loadStoredEvents_saved (l : list StoredEvent) (s : string) (w : World) :
  JSON_stringify l = Some s ->
  localStorage w = saved s (localStorage w) ->
  loadStoredEvents w = (Ok l, w).
Proof.
  intros E Hst.
  assert (Hs : s <> "") by (intros ->; exact (stringify_nonempty l E)).
  assert (Hev : getFromLocalStorage eventsStorageKey w
                = (Ok (Some (compressToUTF16 s)), w)).
  { apply getFromLocalStorage_hit; [| apply compress_nonempty].
    rewrite Hst. unfold saved. apply lookup_insert_eq. }
  assert (Hlz : getFromLocalStorage "lz-string" w = (Ok (Some "true"), w)).
  { apply getFromLocalStorage_hit; [| discriminate].
    rewrite Hst. unfold saved.
    rewrite lookup_insert_ne by done.
    rewrite lookup_delete_ne by done.
    apply lookup_insert_eq. }
  unfold loadStoredEvents, sbind. rewrite Hev. cbv beta iota.
  rewrite (proj2 (truthy_true _) (compress_nonempty s)).
  cbv beta iota delta [negb]. rewrite Hlz. cbv beta iota.
  rewrite bool_decide_eq_true_2 by reflexivity.
  rewrite decompress_compress.
  rewrite (proj2 (truthy_true _) Hs). cbv beta iota delta [negb].
  rewrite (parse_stringify l s E). unfold sret.
  rewrite map_reviveDate. reflexivity.
Qed.

Lemma saved_idem s st : saved s (saved s st) = saved s st.
Proof.
  unfold saved. apply map_eq. intros k.
  repeat (rewrite ?lookup_insert, ?lookup_delete; repeat case_decide; subst;
          try discriminate; try reflexivity; try congruence).
Qed.

(** Reading the queue right after writing it returns what was written, and
    leaves the world as the write left it. *)
Lemma load_after_save (l : list StoredEvent) (w : World) :
  exists w', saveStoredEvents l w = (Ok tt, w') /\
             loadStoredEvents w' = (Ok l, w').
Proof.
  destruct (saveStoredEvents_saved l w) as (s & E & Hsave).
  eexists. split; [exact Hsave |].
  apply (loadStoredEvents_saved l s); [exact E |].
  simpl. symmetry. apply saved_idem.
Qed.

(** The queue reads as empty once the [catch] of [saveStoredEvents] wrote
    the empty string. *)
Lemma load_after_forgetting (wt ws : World) :
  saveToLocalStorage eventsStorageKey "" wt = (Ok tt, ws) ->
  loadStoredEvents ws = (Ok [], ws).
Proof.
  unfold saveToLocalStorage, saveTo, setItem.
  destruct (setItem_refused _ _ _ _); [discriminate |].
  intros [= <-].
  unfold loadStoredEvents, sbind, getFromLocalStorage, getFrom.
  cbn [localStorage set_localStorage].
  rewrite lookup_insert_eq. cbn [truthyO truthy String.eqb negb].
  rewrite lookup_insert_ne by done. rewrite lookup_delete_eq.
  destruct wt; reflexivity.
Qed.

(** When [saveStoredEvents] returns, the queue reads as what was to be
    saved, or as empty: every failure of the write is answered by
    forgetting all the events. *)
(** When the [try] block of [saveStoredEvents] completes, the queue reads
    as what was written. *)
Lemma load_after_write (l : list StoredEvent) (w w' : World) :
  writeStoredEvents l w = (Ok tt, w') ->
  loadStoredEvents w' = (Ok l, w')
  /\ apis w' = apis w /\ clock w' = clock w /\ requests w' = requests w.
Proof.
  intros Ew.
  unfold writeStoredEvents, sbind, saveToLocalStorage, saveTo, setItem in Ew.
  destruct (setItem_refused localArea (delete "lz-string" (localStorage w)) _ _);
    [discriminate |].
  destruct (stringify_total l) as [s E]. rewrite E in Ew.
  cbn [localStorage set_localStorage] in Ew.
  destruct (setItem_refused localArea _ _ _); [discriminate |].
  injection Ew as <-.
  split; [| repeat split].
  apply (loadStoredEvents_saved l s); [exact E |].
  cbn [localStorage set_localStorage]. symmetry. apply saved_idem.
Qed.

(** When [saveStoredEvents] returns, the queue reads as what was to be
    saved, or as empty: every failure of the write is answered by
    forgetting all the events. *)
Lemma load_after_any_save (l : list StoredEvent) (w w' : World) :
  saveStoredEvents l w = (Ok tt, w') ->
  loadStoredEvents w' = (Ok l, w') \/ loadStoredEvents w' = (Ok [], w').
Proof.
  unfold saveStoredEvents, scatch.
  destruct (writeStoredEvents l w) as [[[] | ex] wt] eqn:Ew.
  2:{ intros H. right. exact (load_after_forgetting _ _ H). }
  intros [= <-]. left. exact (proj1 (load_after_write _ _ _ Ew)).
Qed.

(** [storeEvent] either appends the envelope to whatever the queue holds,
    or, when the write throws and the empty string is accepted, leaves the
    queue empty. *)
Lemma storeEvent_appends_or_forgets (self : ApiRef) (ev : Event) (w ws : World) :
  storeEvent self ev w = (Ok tt, ws) ->
  (exists old,
     loadStoredEvents ws = (Ok (old ++ [envelope self ws ev]), ws))
  \/ (exists old wl ex wt,
        loadStoredEvents w = (Ok old, wl)
        /\ writeStoredEvents (old ++ [envelope self wl ev]) wl = (Exn ex, wt)
        /\ saveToLocalStorage eventsStorageKey "" wt = (Ok tt, ws)
        /\ loadStoredEvents ws = (Ok [], ws)).
Proof.
  unfold storeEvent, sbind.
  destruct (loadStoredEvents w) as [[old | e] wl] eqn:El; [| discriminate].
  unfold getApi, sget. cbv beta iota. unfold saveStoredEvents, scatch.
  fold (envelope self wl ev).
  destruct (writeStoredEvents (old ++ [envelope self wl ev]) wl)
    as [[[] | ex] wt] eqn:Ew.
  - intros [= <-]. left. exists old.
    destruct (load_after_write _ _ _ Ew) as (Hl & Ha & Hc & _).
    unfold envelope in *. rewrite Ha, Hc. exact Hl.
  - intros H. right. exists old, wl, ex, wt.
    repeat split; [exact Ew | exact H | exact (load_after_forgetting _ _ H)].
Qed.

End Queue.

(** ** The durable queue store: reading *)

(** C3 (the code departs from the claim).  [loadStoredEvents] guards against
    an absent blob and against a blob that does not decompress, but calls
    [JSON.parse] outside any [try]: when the stored [events] value is not
    valid JSON the exception reaches the caller instead of an empty
    sequence. *)
Theorem loadStoredEvents_malformed_blob_throws
    (X : External) (w : World) (blob : string) :
  localStorage w !! (namespace +:+ eventsStorageKey) = Some blob ->
  blob <> "" ->
  localStorage w !! (namespace +:+ "lz-string") = None ->
  localStorage w !! "lz-string" = None ->
  JSON_parse blob = None ->
  loadStoredEvents w = (Exn SyntaxError, w).
Proof.
  intros Hblob Hne Hflag Hold Hparse.
  unfold loadStoredEvents, sbind.
  rewrite (getFromLocalStorage_hit _ _ _ Hblob Hne). cbv beta iota.
  rewrite (proj2 (truthy_true _) Hne). cbv beta iota delta [negb].
  unfold getFromLocalStorage at 1, getFrom.
  rewrite Hflag, Hold. simpl truthyO. cbv beta iota.
  rewrite bool_decide_eq_false_2 by discriminate.
  rewrite (proj2 (truthy_true _) Hne). cbv beta iota delta [negb].
  rewrite Hparse. unfold sthrow. destruct w; reflexivity.
Qed.

Lemma loadStoredEvents_malformed_blob_throws_witness :
  @loadStoredEvents Reference.external malformed_world
  = (Exn SyntaxError, malformed_world).
Proof.
  apply (loadStoredEvents_malformed_blob_throws Reference.external
           malformed_world "{");
    [reflexivity | discriminate | reflexivity | reflexivity | reflexivity].
Defined.

(** ** The session coordinator *)

(** C9.  [getSession] returns [undefined] exactly when the cached session
    identifier is the empty string and the cached identifier otherwise; it
    never returns the empty string, and it leaves the world as it was. *)
Theorem getSession_undefined_iff_empty (self : ApiRef) (w : World) :
  exists r : option string,
    getSession self w = (Ok r, w) /\
    (r = None <-> sessionUuid (apis w !!! self) = "") /\
    (sessionUuid (apis w !!! self) <> "" ->
     r = Some (sessionUuid (apis w !!! self))) /\
    r <> Some "".
Proof.
  unfold getSession, sbind, getApi, sret.
  destruct (String.eqb (sessionUuid (apis w !!! self)) "") eqn:E.
  - apply String.eqb_eq in E. exists None. rewrite E.
    repeat split; auto; try discriminate. intros N. contradiction.
  - apply String.eqb_neq in E. eexists. split; [reflexivity |].
    repeat split; try discriminate; auto.
    + intros Hs. contradiction.
    + intros [= Hs]. contradiction.
Qed.

(** ** The retry sweep: which entries are skipped *)

Lemma createApi_ok {X : External} (u : string) (o : option string) (w : World) :
  (exists w', createApi u o w = (Ok (length (apis w)), w') /\
              requests w' = requests w)
  \/ exists e w', createApi u o w = (Exn e, w').
Proof.
  unfold createApi, sbind, getFromLocalStorage, getFromSessionStorage.
  destruct (getFrom localArea "participantCode" (localStorage w)) as [[c | e] st];
    [| right; eauto].
  cbn [localStorage sessionStorage set_localStorage].
  destruct (getFrom sessionArea "sessionUuid" (sessionStorage w))
    as [[s | e] st']; [| right; eauto].
  left. eexists. split; reflexivity.
Qed.


(** ** Single-flight session creation *)

Section Session.

Context {X : External}.

Lemma createSession_idle (self : ApiRef) (w : World) :
  sessionPromise (apis w !!! self) = None ->
  exists k,
    exec (createSession self) [] w []
    = (Suspended (length (requests w)) k, session_requested self w, [],
       [(createSession_request (apis w !!! self), w)])
    /\ forall res, delivers res k.
Proof.
  intros Hidle. unfold createSession.
  rewrite exec_abind, exec_liftS. unfold getApi at 1. cbn [fst snd].
  cbv beta iota. rewrite Hidle.
  eexists. split.
  - simpl. reflexivity.
  - intros res env w' tr. reflexivity.
Qed.

Lemma createSession_in_flight (self : ApiRef) (w : World) (q : PromiseId) :
  sessionPromise (apis w !!! self) = Some q ->
  exists k,
    exec (createSession self) [] w [] = (Suspended q k, w, [], [])
    /\ forall res, delivers res k.
Proof.
  intros Hq. unfold createSession.
  rewrite exec_abind, exec_liftS. unfold getApi at 1. cbn [fst snd].
  cbv beta iota. rewrite Hq.
  eexists. split.
  - simpl. reflexivity.
  - intros res env w' tr. reflexivity.
Qed.

Lemma start_createSession_idle (self : ApiRef) (w : World) :
  sessionPromise (apis w !!! self) = None ->
  exists k,
    start (createSession self) w
    = (Suspended (length (requests w)) k, session_requested self w)
    /\ forall res, delivers res k.
Proof.
  intros Hidle. destruct (createSession_idle self w Hidle) as (k & E & D).
  exists k. split; [| exact D]. unfold start. rewrite E. reflexivity.
Qed.

Lemma callAll_in_flight (self : ApiRef) (w : World) (q : PromiseId) (n : nat) :
  sessionPromise (apis w !!! self) = Some q ->
  exists os,
    callAll (replicate n (createSession self)) w = (os, w)
    /\ length os = n
    /\ Forall (fun o => exists k, o = Suspended q k /\ forall res, delivers res k)
              os.
Proof.
  intros Hq. induction n as [| n (os & E & Hl & Hf)].
  - exists []. simpl. auto.
  - destruct (createSession_in_flight self w q Hq) as (k & Ek & D).
    exists (Suspended q k :: os). simpl. unfold start. rewrite Ek, E.
    split; [reflexivity |]. split; [simpl; congruence |].
    constructor; [exists k; auto | exact Hf].
Qed.

(** *** Settling: the callbacks only clear in-flight handles *)

Lemma run_callbacks_requests (cbs : list (PromiseId * Callback)) (w : World) :
  requests (fold_left (fun w' r => runCallback (snd r) w') cbs w) = requests w.
Proof.
  revert w. induction cbs as [| [q [s]] cbs IH]; intros w; simpl; auto.
  rewrite IH. reflexivity.
Qed.

Lemma run_callbacks_cleared (cbs : list (PromiseId * Callback)) (w : World)
    (self : ApiRef) (a : ApiVars) :
  apis w !! self = Some (set_sessionPromise None a) ->
  apis (fold_left (fun w' r => runCallback (snd r) w') cbs w) !! self
  = Some (set_sessionPromise None a).
Proof.
  revert w. induction cbs as [| [q [s]] cbs IH]; intros w Hw; simpl; auto.
  apply IH. unfold set_apis. cbn [apis].
  destruct (decide (s = self)) as [-> | N].
  - rewrite list_lookup_alter_eq, Hw. reflexivity.
  - rewrite list_lookup_alter_ne by exact N. exact Hw.
Qed.

Lemma run_callbacks_clears (cbs : list (PromiseId * Callback)) (w : World)
    (q : PromiseId) (self : ApiRef) (a : ApiVars) :
  apis w !! self = Some a ->
  In (q, ClearSessionPromise self) cbs ->
  apis (fold_left (fun w' r => runCallback (snd r) w') cbs w) !! self
  = Some (set_sessionPromise None a).
Proof.
  revert w a. induction cbs as [| [q' [s]] cbs IH]; intros w a Hw Hin.
  - destruct Hin.
  - simpl. destruct Hin as [E | Hin].
    + injection E as -> ->. apply run_callbacks_cleared.
      unfold set_apis. cbn [apis].
      rewrite list_lookup_alter_eq, Hw. reflexivity.
    + destruct (decide (s = self)) as [-> | N].
      * change (set_sessionPromise None a)
          with (set_sessionPromise None (set_sessionPromise None a)).
        apply IH; [| exact Hin]. unfold set_apis. cbn [apis].
        rewrite list_lookup_alter_eq, Hw. reflexivity.
      * apply IH; [| exact Hin]. unfold set_apis. cbn [apis].
        rewrite list_lookup_alter_ne by exact N. exact Hw.
Qed.

Lemma fire_requests (p : PromiseId) (w : World) :
  requests (fire p w) = requests w.
Proof. unfold fire. rewrite run_callbacks_requests. reflexivity. Qed.

Lemma fire_clears (p : PromiseId) (w : World) (self : ApiRef) (a : ApiVars) :
  apis w !! self = Some a ->
  In (p, ClearSessionPromise self) (reactions w) ->
  apis (fire p w) !! self = Some (set_sessionPromise None a).
Proof.
  intros Hw Hin. unfold fire.
  apply (run_callbacks_clears _ _ p); [exact Hw |].
  apply filter_In. split; [exact Hin |]. simpl. apply Nat.eqb_refl.
Qed.

(** C5.  From a closure with no creation request in flight, any number of
    [createSession()] calls made before the request completes issue exactly
    one request; every caller is suspended on the promise of that request
    and receives the value it settles to, whatever that value is.  When the
    promise settles the in-flight handle is cleared, and the next call
    issues a fresh request. *)
Theorem createSession_single_flight
    (self : ApiRef) (w : World) (vars : ApiVars) (n : nat) :
  apis w !! self = Some vars ->
  sessionPromise vars = None ->
  exists (w1 : World) (os : list (Outcome Maybe)),
    callAll (replicate (S n) (createSession self)) w = (os, w1)
    /\ requests w1 = requests w ++ [createSession_request vars]
    /\ length os = S n
    /\ Forall (fun o => exists k, o = Suspended (length (requests w)) k
                                /\ forall res, delivers res k) os
    /\ sessionPromise (apis (fire (length (requests w)) w1) !!! self) = None
    /\ exists k w2,
         start (createSession self) (fire (length (requests w)) w1)
         = (Suspended (S (length (requests w))) k, w2)
         /\ requests w2 = requests w1 ++ [createSession_request vars].
Proof.
  intros Hself Hidle.
  pose proof (list_lookup_total_correct _ _ _ Hself) as Htot.
  assert (Hidle' : sessionPromise (apis w !!! self) = None)
    by (rewrite Htot; exact Hidle).
  destruct (start_createSession_idle self w Hidle') as (k & Ek & D).
  set (p := length (requests w)) in *.
  set (w1 := session_requested self w) in *.
  assert (H1 : apis w1 !! self = Some (set_sessionPromise (Some p) vars)).
  { unfold w1, session_requested, set_reactions, set_apis. cbn [apis].
    rewrite list_lookup_alter_eq, Hself. reflexivity. }
  assert (Hq : sessionPromise (apis w1 !!! self) = Some p).
  { rewrite (list_lookup_total_correct _ _ _ H1). reflexivity. }
  destruct (callAll_in_flight self w1 p n Hq) as (os & Eos & Hl & Hf).
  assert (Hreq : requests w1 = requests w ++ [createSession_request vars]).
  { unfold w1, session_requested. simpl. rewrite Htot. reflexivity. }
  assert (Hfire : apis (fire p w1) !! self
                  = Some (set_sessionPromise None
                            (set_sessionPromise (Some p) vars))).
  { apply fire_clears; [exact H1 |].
    unfold w1, session_requested. simpl. apply in_or_app. right. left.
    reflexivity. }
  pose proof (list_lookup_total_correct _ _ _ Hfire) as Hftot.
  exists w1, (Suspended p k :: os).
  split; [simpl; rewrite Ek, Eos; reflexivity |].
  split; [exact Hreq |].
  split; [simpl; congruence |].
  split; [constructor; [exists k; auto | exact Hf] |].
  split; [rewrite Hftot; reflexivity |].
  assert (Hidle2 : sessionPromise (apis (fire p w1) !!! self) = None)
    by (rewrite Hftot; reflexivity).
  destruct (start_createSession_idle self (fire p w1) Hidle2) as (k2 & Ek2 & _).
  exists k2, (session_requested self (fire p w1)).
  split.
  - rewrite Ek2. rewrite fire_requests, Hreq, length_app. simpl.
    replace (length (requests w) + 1)%nat with (S p) by (unfold p; lia).
    reflexivity.
  - unfold session_requested at 1. simpl.
    rewrite fire_requests, Hftot. reflexivity.
Qed.

(** C10.  [createSession] does not look at the participant code: with an
    empty code and no request in flight it issues the creation request with
    an empty [X-Participant-Code] header (and with a request in flight it
    joins that request); it never throws.  [newSession] in the same state
    throws 'Missing participant code!' before any request is issued. *)
Theorem createSession_no_identity_check (self : ApiRef) (w : World) :
  participantCode (apis w !!! self) = "" ->
  match sessionPromise (apis w !!! self) with
  | None =>
    exists k,
      exec (createSession self) [] w []
      = (Suspended (length (requests w)) k, session_requested self w, [],
         [(createSession_request (apis w !!! self), w)])
      /\ x_participant_code
           (rq_headers (createSession_request (apis w !!! self))) = ""
  | Some q =>
    exists k, exec (createSession self) [] w [] = (Suspended q k, w, [], [])
  end
  /\ exec (newSession self) [] w []
     = (Finished (Exn (Error "Missing participant code!")), w, [], []).
Proof.
  intros Hcode. split.
  - destruct (sessionPromise (apis w !!! self)) as [q |] eqn:Hp.
    + destruct (createSession_in_flight self w q Hp) as (k & E & _).
      exists k. exact E.
    + destruct (createSession_idle self w Hp) as (k & E & _).
      exists k. split; [exact E | exact Hcode].
  - unfold newSession. rewrite exec_abind, exec_liftS.
    unfold getApi at 1. cbn [fst snd]. cbv beta iota.
    rewrite Hcode. reflexivity.
Qed.

End Session.

(** ** Reasoning about every run of an [async] function *)

Lemma always_abind {A B} (I : Request -> Prop) (Q : B -> Prop)
    (m : Async A) (f : A -> Async B) :
  always I (fun a => always I Q (f a)) m -> always I Q (abind m f).
Proof.
  induction m as [a | e | k IH | w0 k IH | r k IH | p cb k IH | p k IH];
    simpl; auto.
  intros [Hr Hk]. split; auto.
Qed.

Lemma always_liftS {A} (I : Request -> Prop) (Q : A -> Prop) (s : Sync A) :
  (forall w a w', s w = (Ok a, w') -> Q a) -> always I Q (liftS s).
Proof.
  intros H. unfold liftS. simpl. intros w.
  destruct (s w) as [[a | e] w'] eqn:E; simpl; eauto.
Qed.

Lemma always_weaken {A} (I : Request -> Prop) (Q Q' : A -> Prop) (m : Async A) :
  (forall a, Q a -> Q' a) -> always I Q m -> always I Q' m.
Proof.
  intros HQ.
  induction m as [a | e | k IH | w0 k IH | r k IH | p cb k IH | p k IH];
    simpl; auto.
  intros [Hr Hk]. split; auto.
Qed.

Lemma always_exec {A} (I : Request -> Prop) (Q : A -> Prop) (m : Async A) :
  always I Q m ->
  forall env w tr o w' env' tr',
    exec m env w tr = (o, w', env', tr') ->
    (exists t, tr' = tr ++ t /\ Forall (fun x => I (fst x)) t)
    /\ (forall a, o = Finished (Ok a) -> Q a).
Proof.
  induction m as [a | e | k IH | w0 k IH | r k IH | p cb k IH | p k IH];
    simpl; intros Hm env w tr o w' env' tr' E.
  - injection E as <- <- <- <-. split.
    + exists []. rewrite app_nil_r. auto.
    + intros a' [= <-]. exact Hm.
  - injection E as <- <- <- <-. split.
    + exists []. rewrite app_nil_r. auto.
    + intros a' [=].
  - eapply IH; eauto.
  - eapply IH; eauto.
  - destruct Hm as [Hr Hk].
    destruct (IH _ (Hk _) _ _ _ _ _ _ _ E) as [(t & -> & Ht) HQ].
    split; [| exact HQ].
    exists ((r, w) :: t). rewrite <- app_assoc. split; [reflexivity |].
    constructor; auto.
  - eapply IH; eauto.
  - destruct env as [| s env0].
    + injection E as <- <- <- <-. split.
      * exists []. rewrite app_nil_r. auto.
      * intros a' [=].
    + eapply IH; eauto.
Qed.

(** ** The delivery pipeline *)

Section Pipeline.

Context {X : External}.

Lemma postEvent_phases (self : ApiRef) (e : Event) (r : bool) :
  postEvent self e r
  = (do h <- liftS (headers self);
     if negb (truthy (x_participant_code h)) then Ret false
     else
       do w <- liftS sget;
       do ev1 <- session_phase self (enrich w e);
       submit_phase self h ev1 r)%async.
Proof. reflexivity. Qed.

Lemma createSession_always (self : ApiRef) :
  always creates_session (fun _ => True) (createSession self).
Proof.
  unfold createSession. apply always_abind, always_liftS.
  intros w vars w' _. destruct (sessionPromise vars); simpl; auto.
  intros w0. unfold headers, sbind, getApi, sret. simpl.
  intros w1. unfold creates_session. simpl. auto.
Qed.

Lemma newSession_always (self : ApiRef) :
  always creates_session (fun _ => True) (newSession self).
Proof.
  unfold newSession. apply always_abind, always_liftS.
  intros w vars w' _.
  destruct (negb (truthy (participantCode vars))); [exact I |].
  apply always_abind.
  eapply always_weaken; [| apply createSession_always].
  intros [v | msg c] _; [| exact I].
  apply always_abind, always_liftS. intros _ _ _ _.
  apply always_abind, always_liftS. intros _ _ _ _. exact I.
Qed.

Lemma ensureSession_always (self : ApiRef) :
  always creates_session (fun _ => True) (ensureSession self).
Proof.
  unfold ensureSession. apply always_abind, always_liftS.
  intros w vars w' _.
  destruct (negb (String.eqb (sessionUuid vars) "")); [exact I |].
  destruct (sessionPromise vars); [simpl; auto |].
  apply always_abind.
  eapply always_weaken; [| apply newSession_always].
  simpl. auto.
Qed.

(** The session phase issues session-creation requests only, and returns
    its input with, at most, the session identifier changed. *)
Lemma session_phase_always (self : ApiRef) (ev0 : Event) :
  always creates_session
    (fun ev1 => exists s, ev1 = set_ev_sessionUuid s ev0)
    (session_phase self ev0).
Proof.
  unfold session_phase.
  destruct (String.eqb (ev_sessionUuid ev0) "") eqn:E.
  - apply always_abind.
    eapply always_weaken; [| apply ensureSession_always].
    intros _ _. apply always_abind, always_liftS.
    intros w vars w' _. simpl. eauto.
  - simpl. exists (ev_sessionUuid ev0). destruct ev0; reflexivity.
Qed.

End Pipeline.

(** *** Queue operations touch the local storage area only *)

Section QueueOps.

Context {X : External} {L : Lawful X} {S : Spacious X}.

Lemma getFromLocalStorage_frame (key : string) (w : World) :
  exists r st, getFromLocalStorage key w = (r, set_localStorage st w).
Proof.
  unfold getFromLocalStorage.
  destruct (getFrom localArea key (localStorage w)) as [r st]. eauto.
Qed.

Lemma loadStoredEvents_frame (w : World) :
  exists r st, loadStoredEvents w = (r, set_localStorage st w).
Proof.
  unfold loadStoredEvents, sbind.
  destruct (getFromLocalStorage_frame eventsStorageKey w) as (v & st & ->).
  destruct v as [[data |] | e]; [| unfold sret; eauto | eauto].
  destruct (negb (truthy data)); [unfold sret; eauto |].
  destruct (getFromLocalStorage_frame "lz-string" (set_localStorage st w))
    as (flag & st' & ->).
  change (set_localStorage st' (set_localStorage st w))
    with (set_localStorage st' w).
  destruct flag as [flag | e]; [| eauto].
  destruct (if bool_decide (flag = Some "true")
            then decompressFromUTF16 data else Some data) as [j |];
    [| unfold sret; eauto].
  destruct (negb (truthy j)); [unfold sret; eauto |].
  destruct (JSON_parse j); unfold sret, sthrow; eauto.
Qed.

(** [storeEvent] appends the envelope to whatever the queue holds. *)
Lemma storeEvent_appends (self : ApiRef) (ev : Event) (w : World) :
  match storeEvent self ev w with
  | (Ok _, ws) =>
    exists old,
      loadStoredEvents ws = (Ok (old ++ [envelope self ws ev]), ws)
      /\ apis ws = apis w /\ requests ws = requests w
  | (Exn _, _) => True
  end.
Proof.
  unfold storeEvent, sbind.
  destruct (loadStoredEvents_frame w) as (r & st & E). rewrite E.
  destruct r as [old | e]; [| exact I].
  unfold getApi, sget. cbv beta iota.
  destruct (load_after_save
              (old ++ [mkStoredEvent
                         (apiUrl (apis (set_localStorage st w) !!! self)) ev
                         (clock (set_localStorage st w)) false 1
                         (participantCode
                            (apis (set_localStorage st w) !!! self)) true])
              (set_localStorage st w)) as (ws & Es & El).
  rewrite Es. exists old.
  destruct (saveStoredEvents_saved
              (old ++ [mkStoredEvent
                         (apiUrl (apis (set_localStorage st w) !!! self)) ev
                         (clock (set_localStorage st w)) false 1
                         (participantCode
                            (apis (set_localStorage st w) !!! self)) true])
              (set_localStorage st w)) as (s & _ & Es').
  rewrite Es' in Es. injection Es as <-.
  split; [exact El |]. split; reflexivity.
Qed.

(** [clearStoredEvent] leaves exactly the entries with another
    [localUuid]. *)
Lemma clearStoredEvent_filters (ev : Event) (w : World) (evs : list StoredEvent) :
  fst (loadStoredEvents w) = Ok evs ->
  exists w3,
    clearStoredEvent ev w = (Ok tt, w3)
    /\ loadStoredEvents w3 = (Ok (List.filter (other_uuid ev) evs), w3)
    /\ apis w3 = apis w /\ requests w3 = requests w.
Proof.
  intros Hl.
  change (clearStoredEvent ev w)
    with (sbind loadStoredEvents
            (fun events =>
               saveStoredEvents (List.filter (other_uuid ev) events)) w).
  unfold sbind.
  destruct (loadStoredEvents_frame w) as (r & st & E).
  rewrite E in Hl |- *. simpl in Hl. subst r.
  destruct (load_after_save (List.filter (other_uuid ev) evs)
              (set_localStorage st w)) as (w3 & Es & El).
  rewrite Es.
  exists w3. split; [reflexivity |]. split; [exact El |].
  destruct (saveStoredEvents_saved (List.filter (other_uuid ev) evs)
              (set_localStorage st w)) as (s & _ & Es').
  rewrite Es' in Es. injection Es as <-. split; reflexivity.
Qed.

End QueueOps.

(** The statements that say which entries a successful write leaves in
    the queue ([postEvent_stores_when_accepted],
    [postEvent_response_handling]) are for storage areas that accept every
    write ([Spacious]); [postEvent_stores_or_forgets] and
    [sweep_leaves_no_persisted] hold whatever the browser accepts. *)

Section Delivery.

Context {X : External} {L : Lawful X} {S : Spacious X}.

Lemma respond_exec (ev2 : Event) (res : Maybe) env w tr :
  exec (respond ev2 res) env w tr =
  if delivered res
  then (Finished (match fst (clearStoredEvent ev2 w) with
                  | Ok _ => Ok true
                  | Exn e => Exn e
                  end),
        snd (clearStoredEvent ev2 w), env, tr)
  else (Finished (Ok false), w, env, tr).
Proof.
  assert (H : exec (do_ liftS (clearStoredEvent ev2); Ret true)%async env w tr
              = (Finished (match fst (clearStoredEvent ev2 w) with
                           | Ok _ => Ok true
                           | Exn e => Exn e
                           end),
                 snd (clearStoredEvent ev2 w), env, tr)).
  { rewrite exec_abind, exec_liftS.
    destruct (clearStoredEvent ev2 w) as [[[] | e] w']; reflexivity. }
  destruct res as [v | msg code]; simpl; [exact H |].
  destruct (bool_decide (code = Some "EVENT_ALREADY_EXISTS_OK"));
    [exact H | reflexivity].
Qed.

Lemma submit_phase_exec (self : ApiRef) (h : Headers) (ev1 : Event) (r : bool)
    env w tr :
  exec (submit_phase self h ev1 r) env w tr =
  match (if r then storeEvent self ev1 w else (Ok tt, w)) with
  | (Exn e, ws) => (Finished (Exn e), ws, env, tr)
  | (Ok _, ws) =>
    exec (Await (length (requests ws)) (respond (fill_url ws ev1))) env
         (set_requests (requests ws ++ [submission self h ws ev1]) ws)
         (tr ++ [(submission self h ws ev1, ws)])
  end.
Proof.
  unfold submit_phase. rewrite exec_abind.
  assert (E : exec (if r then liftS (storeEvent self ev1) else Ret tt) env w tr
              = (Finished (fst (if r then storeEvent self ev1 w else (Ok tt, w))),
                 snd (if r then storeEvent self ev1 w else (Ok tt, w)), env, tr)).
  { destruct r; [apply exec_liftS | reflexivity]. }
  rewrite E.
  destruct (if r then storeEvent self ev1 w else (Ok tt, w)) as [[[] | e] ws];
    [| reflexivity].
  cbn [fst snd]. destruct env as [| s env0]; reflexivity.
Qed.

Lemma headers_eq (self : ApiRef) (w : World) :
  headers self w
  = (Ok (mkHeaders "application/json" (participantCode (apis w !!! self))), w).
Proof. reflexivity. Qed.

(** How a run of [postEvent] that gets as far as the submission looks: the
    session phase ended with an event [ev1], the envelope was stored if
    asked for, and the request went out from the world [ws]. *)
Lemma postEvent_exec (self : ApiRef) (e : Event) (r : bool)
    env w o w' env' tr :
  exec (postEvent self e r) env w [] = (o, w', env', tr) ->
  (Forall (fun x => creates_session (fst x)) tr
   /\ forall p k, o = Suspended p k ->
        forall tr0 req wp, tr = tr0 ++ [(req, wp)] ->
                           rq_route req <> postEventRoute)
  \/ exists s u ws env1 tr1,
       let ev1 := set_ev_sessionUuid s (enrich w e) in
       let h := mkHeaders "application/json" (participantCode (apis w !!! self)) in
       tr = tr1 ++ [(submission self h ws ev1, ws)]
       /\ Forall (fun x => creates_session (fst x)) tr1
       /\ (if r then storeEvent self ev1 u = (Ok tt, ws) else ws = u)
       /\ exec (Await (length (requests ws)) (respond (fill_url ws ev1))) env1
               (set_requests (requests ws ++ [submission self h ws ev1]) ws)
               (tr1 ++ [(submission self h ws ev1, ws)])
          = (o, w', env', tr).
Proof.
  rewrite postEvent_phases, exec_abind, exec_liftS, headers_eq.
  cbn [fst snd x_participant_code]. cbv beta iota.
  destruct (negb (truthy (participantCode (apis w !!! self)))).
  { simpl. intros E; inversion E; subst; clear E. left. split; [constructor | discriminate]. }
  rewrite exec_abind, exec_sget. cbv beta iota. rewrite exec_abind.
  destruct (exec (session_phase self (enrich w e)) env w [])
    as [[[o1 u] env1] tr1] eqn:E1.
  destruct (always_exec _ _ _ (session_phase_always self (enrich w e))
              _ _ _ _ _ _ _ E1) as [(t & Ht & Hroutes) Hev].
  simpl in Ht. subst t.
  assert (Hlast : forall tr0 req wp,
             tr1 = tr0 ++ [(req, wp)] -> rq_route req <> postEventRoute).
  { intros tr0 req wp -> Hr. apply Forall_app in Hroutes as [_ Hreq].
    inversion Hreq as [| ? ? Hc _]. simpl in Hc. unfold creates_session in Hc.
    congruence. }
  destruct o1 as [[ev1 | ex] | p k].
  2:{ intros E; inversion E; subst; clear E. left. split; [exact Hroutes | discriminate]. }
  2:{ intros E; inversion E; subst; clear E. left. split; [exact Hroutes |].
      intros _ _ _. exact Hlast. }
  destruct (Hev ev1 eq_refl) as [s ->].
  rewrite submit_phase_exec.
  destruct r.
  - destruct (storeEvent self (set_ev_sessionUuid s (enrich w e)) u)
      as [[[] | ex] ws] eqn:Es.
    + intros E. right. exists s, u, ws, env1, tr1. cbv zeta.
      split; [| split; [exact Hroutes | split; [exact Es | exact E]]].
      destruct env1 as [| st env0]; simpl in E.
      * injection E as _ _ _ <-. reflexivity.
      * rewrite respond_exec in E.
        destruct (delivered (settled st)); injection E as _ _ _ <-; reflexivity.
    + intros E; inversion E; subst; clear E. left. split; [exact Hroutes | discriminate].
  - intros E. right. exists s, u, u, env1, tr1. cbv zeta.
    split; [| split; [exact Hroutes | split; [reflexivity | exact E]]].
    destruct env1 as [| st env0]; simpl in E.
    + injection E as _ _ _ <-. reflexivity.
    + rewrite respond_exec in E.
      destruct (delivered (settled st)); injection E as _ _ _ <-; reflexivity.
Qed.

(** As long as the storage area accepts the writes: in every run of
    [postEvent(e, true)], each submission of the event is issued from a
    world whose queue already ends with the envelope of the event: attempts
    1, [tryImmediately] true, [persisted] false, the closure's collector
    URL and participant code, and the event as enriched so far (context,
    version, tab flag and session identifier filled; the URL is filled
    after the envelope is written). *)
Lemma postEvent_stores_when_accepted
    (self : ApiRef) (e : Event) env w o w' env' tr req wp :
  exec (postEvent self e true) env w [] = (o, w', env', tr) ->
  In (req, wp) tr ->
  rq_route req = postEventRoute ->
  exists (old : list StoredEvent) (ev : Event) (s : string),
    loadStoredEvents wp
    = (Ok (old ++ [mkStoredEvent (apiUrl (apis wp !!! self)) ev (clock wp)
                                 false 1 (participantCode (apis wp !!! self))
                                 true]), wp)
    /\ ev = set_ev_sessionUuid s (enrich w e)
    /\ localUuid ev = localUuid e
    /\ rq_body req = BodyEvent (fill_url wp ev).
Proof.
  intros E Hin Hroute.
  destruct (postEvent_exec _ _ _ _ _ _ _ _ _ E)
    as [[Hroutes _] | (s & u & ws & env1 & tr1 & Htr & Hroutes & Hs & _)].
  - rewrite Forall_forall in Hroutes. specialize (Hroutes _ Hin).
    simpl in Hroutes. unfold creates_session in Hroutes. congruence.
  - cbv zeta in Htr, Hs. subst tr. apply in_app_or in Hin as [Hin | Hin].
    + rewrite Forall_forall in Hroutes. specialize (Hroutes _ Hin).
      simpl in Hroutes. unfold creates_session in Hroutes. congruence.
    + destruct Hin as [[= <- <-] | []].
      pose proof (storeEvent_appends self (set_ev_sessionUuid s (enrich w e)) u)
        as Ha.
      rewrite Hs in Ha. destruct Ha as (old & Hl & _ & _).
      exists old, (set_ev_sessionUuid s (enrich w e)), s.
      split; [exact Hl |]. split; [reflexivity |]. split; reflexivity.
Qed.

(** C1 (corrected).  In every run of [postEvent(e, true)], each submission
    of the event is issued after [storeEvent] returned, from a world whose
    queue either ends with the envelope of the event (attempts 1,
    [tryImmediately] true, [persisted] false, the closure's collector URL
    and participant code, the event as enriched so far), or reads as empty
    because the write of the queue threw (the browser refused it, or
    [JSON.stringify] threw) and the [catch] of [saveStoredEvents] wrote the
    empty string: then the envelope and the entries queued before are
    forgotten, and the event is submitted all the same. *)
Theorem postEvent_stores_or_forgets
    (self : ApiRef) (e : Event) env w o w' env' tr req wp :
  exec (postEvent self e true) env w [] = (o, w', env', tr) ->
  In (req, wp) tr ->
  rq_route req = postEventRoute ->
  exists (ev : Event) (s : string),
    ev = set_ev_sessionUuid s (enrich w e)
    /\ localUuid ev = localUuid e
    /\ rq_body req = BodyEvent (fill_url wp ev)
    /\ ((exists old,
           loadStoredEvents wp
           = (Ok (old ++ [mkStoredEvent (apiUrl (apis wp !!! self)) ev (clock wp)
                                        false 1
                                        (participantCode (apis wp !!! self))
                                        true]), wp))
        \/ (exists u old wl ex wt,
              loadStoredEvents u = (Ok old, wl)
              /\ writeStoredEvents (old ++ [envelope self wl ev]) wl
                 = (Exn ex, wt)
              /\ saveToLocalStorage eventsStorageKey "" wt = (Ok tt, wp)
              /\ loadStoredEvents wp = (Ok [], wp))).
Proof.
  intros E Hin Hroute.
  destruct (postEvent_exec _ _ _ _ _ _ _ _ _ E)
    as [[Hroutes _] | (s & u & ws & env1 & tr1 & Htr & Hroutes & Hs & _)].
  - rewrite Forall_forall in Hroutes. specialize (Hroutes _ Hin).
    simpl in Hroutes. unfold creates_session in Hroutes. congruence.
  - cbv zeta in Htr, Hs. subst tr. apply in_app_or in Hin as [Hin | Hin].
    + rewrite Forall_forall in Hroutes. specialize (Hroutes _ Hin).
      simpl in Hroutes. unfold creates_session in Hroutes. congruence.
    + destruct Hin as [[= <- <-] | []].
      exists (set_ev_sessionUuid s (enrich w e)), s.
      split; [reflexivity |]. split; [reflexivity |]. split; [reflexivity |].
      destruct (storeEvent_appends_or_forgets _ _ _ _ Hs)
        as [(old & Hl) | (old & wl & ex & wt & H1 & H2 & H3 & H4)].
      * left. exists old. exact Hl.
      * right. exists u, old, wl, ex, wt. auto.
Qed.

Lemma localUuid_fill_url (w : World) (ev : Event) :
  localUuid (fill_url w ev) = localUuid ev.
Proof. unfold fill_url. destruct (negb (truthyO (url ev))); reflexivity. Qed.

Lemma other_uuid_ext (ev ev' : Event) :
  localUuid ev = localUuid ev' -> other_uuid ev = other_uuid ev'.
Proof. unfold other_uuid. intros ->. reflexivity. Qed.


(** ** The retry sweep: what it leaves in the queue *)

(** C7.  When a sweep completes, the queue it leaves holds no entry with
    [persisted = true]: what the sweep writes is the swept array with the
    persisted entries filtered out. *)
Theorem sweep_leaves_no_persisted env w w' env' tr :
  exec retryToPostStoredEvents env w [] = (Finished (Ok tt), w', env', tr) ->
  exists remaining,
    loadStoredEvents w' = (Ok remaining, w')
    /\ Forall (fun s => persisted s = false) remaining.
Proof.
  unfold retryToPostStoredEvents.
  rewrite exec_abind, exec_liftS.
  destruct (loadStoredEvents w) as [[evs | ex] wl]; cbn [fst snd];
    [| discriminate].
  rewrite exec_abind.
  destruct (exec (sweepLoop evs) env wl []) as [[[o u] env1] tr1].
  destruct o as [[swept | ex] | p k]; try discriminate.
  rewrite exec_liftS.
  destruct (saveStoredEvents
              (List.filter (fun s => negb (persisted s)) swept) u)
    as [[[] | ex] w3] eqn:Es; cbn [fst snd]; [| discriminate].
  intros E. injection E as <- _ _.
  destruct (load_after_any_save _ _ _ Es) as [El | El].
  - eexists. split; [exact El |].
    apply Forall_forall. intros x Hx. apply filter_In in Hx as [_ Hx].
    apply negb_true_iff in Hx. exact Hx.
  - eexists. split; [exact El | constructor].
Qed.

End Delivery.

(** ** Where the code departs from the specification *)

(** [retry_headers_use_stored_code] is for storage areas that accept every
    write ([Spacious]): [createApi] reads the session identifier with
    [getFromSessionStorage], which moves a legacy value with [setItem]. *)

Section Departures.

Context {X : External} {S : Spacious X}.

(** [saveStoredEvents] answers every failure of its write (the browser
    refuses it for want of room, or [JSON.stringify] throws) by writing the
    empty string, and [storeEvent] and [postEvent] go on as if the envelope
    had been stored.  So whenever the write of the queue with the new
    envelope throws and the empty string is accepted, [postEvent(e, true)],
    called with a participant code, issues the submission of [e] from a
    world whose queue reads as empty: the envelope is not in the store
    when the POST starts, and the entries queued before are gone as
    well. *)
Lemma postEvent_submits_without_envelope
    (self : ApiRef) (e : Event) (w wl wt ws : World)
    (old : list StoredEvent) (ex : Exception) :
  participantCode (apis w !!! self) <> "" ->
  ev_sessionUuid e <> "" ->
  loadStoredEvents w = (Ok old, wl) ->
  writeStoredEvents (old ++ [envelope self wl (enrich w e)]) wl = (Exn ex, wt) ->
  saveToLocalStorage eventsStorageKey "" wt = (Ok tt, ws) ->
  exists k w1,
    exec (postEvent self e true) [] w []
    = (Suspended (length (requests ws)) k, w1, [],
       [(submission self
           (mkHeaders "application/json" (participantCode (apis w !!! self)))
           ws (enrich w e), ws)])
    /\ loadStoredEvents ws = (Ok [], ws).
Proof.
  intros Hcode Hsess Hload Htry Hcatch.
  assert (Hstore : storeEvent self (enrich w e) w = (Ok tt, ws)).
  { unfold storeEvent, sbind. rewrite Hload. unfold getApi, sget.
    cbv beta iota. unfold saveStoredEvents, scatch.
    unfold envelope in Htry. rewrite Htry. exact Hcatch. }
  rewrite postEvent_phases, exec_abind, exec_liftS, headers_eq.
  cbn [fst snd x_participant_code]. cbv beta iota.
  rewrite (proj2 (truthy_true _) Hcode). cbn [negb]. cbv iota.
  rewrite exec_abind, exec_sget. cbv beta iota.
  rewrite exec_abind. unfold session_phase.
  assert (Hs : String.eqb (ev_sessionUuid (enrich w e)) "" = false).
  { apply String.eqb_neq. exact Hsess. }
  rewrite Hs. cbn [exec]. rewrite submit_phase_exec, Hstore. cbn [exec].
  eexists _, _. split; [reflexivity |].
  exact (load_after_forgetting _ _ Hcatch).
Qed.

Lemma getFrom_accepted (area : Area) (key : string) (st : gmap string string) :
  exists v st', getFrom area key st = (Ok v, st').
Proof.
  unfold getFrom, setItem.
  destruct (truthyO (st !! (namespace +:+ key))); [eauto |].
  destruct (st !! key) as [oldFormat |]; [| eauto].
  rewrite setItem_accepted.
  destruct (truthy oldFormat); eauto.
Qed.

Lemma createApi_stored_code (u : string) (o : option string) (w : World)
    (code : string) :
  localStorage w !! (namespace +:+ "participantCode") = Some code ->
  code <> "" ->
  exists session st,
    createApi u o w
    = (Ok (length (apis w)),
       set_apis (apis w ++ [mkApiVars u code session None])
                (set_sessionStorage st w)).
Proof.
  intros Hc Hne. unfold createApi, sbind.
  rewrite (getFromLocalStorage_hit _ _ _ Hc Hne). cbv beta iota.
  unfold getFromSessionStorage.
  destruct (getFrom_accepted sessionArea "sessionUuid" (sessionStorage w))
    as (session & st & ->).
  exists (nullish session ""), st. reflexivity.
Qed.

(** C4 (the code departs from the claim).  Whenever a participant code is
    stored in local storage, a due entry whose event carries a session
    identifier is submitted with that stored code in [X-Participant-Code],
    whatever participant code the entry recorded: [createApi] reads
    [getFromLocalStorage('participantCode') ?? overrideParticipantCode], so
    the entry's own code is only a fallback. *)
Theorem retry_headers_use_stored_code
    (se : StoredEvent) (w : World) (code : string) :
  localStorage w !! (namespace +:+ "participantCode") = Some code ->
  code <> "" ->
  tryImmediately se = true ->
  ev_sessionUuid (event se) <> "" ->
  exists k w1 req wp,
    exec (sweepEntry se) [] w []
    = (Suspended (length (requests w)) k, w1, [], [(req, wp)])
    /\ rq_route req = postEventRoute
    /\ x_participant_code (rq_headers req) = code.
Proof.
  intros Hc Hne Htry Hsess.
  unfold sweepEntry. rewrite exec_abind, exec_sget. cbv beta iota zeta.
  rewrite Htry. rewrite andb_false_r.
  rewrite exec_abind, exec_liftS.
  match goal with
  | |- context [createApi ?u ?o w] =>
      destruct (createApi_stored_code u o w code Hc Hne) as (sess & st & Ec);
      rewrite Ec
  end.
  cbn [fst snd]. cbv beta iota.
  set (w1 := set_apis _ (set_sessionStorage st w)).
  assert (Hv : apis w1 !!! length (apis w)
               = mkApiVars
                   (se_apiUrl (set_tryImmediately false
                                 (set_attempts (attempts se + 1) se)))
                   code sess None).
  { unfold w1, set_apis. cbn [apis]. apply list_lookup_total_middle.
    reflexivity. }
  rewrite exec_abind, exec_liftS. unfold getHeaders. rewrite headers_eq.
  cbn [fst snd x_participant_code]. cbv beta iota. rewrite Hv.
  cbn [participantCode]. rewrite (proj2 (truthy_true code) Hne).
  cbn [negb]. cbv iota.
  rewrite exec_abind, postEvent_phases.
  rewrite exec_abind, exec_liftS, headers_eq.
  cbn [fst snd x_participant_code]. cbv beta iota. rewrite Hv.
  cbn [participantCode]. rewrite (proj2 (truthy_true code) Hne).
  cbn [negb]. cbv iota.
  rewrite exec_abind, exec_sget. cbv beta iota.
  rewrite exec_abind. unfold session_phase.
  assert (Hs : String.eqb (ev_sessionUuid (enrich w1 (event se))) "" = false).
  { apply String.eqb_neq. exact Hsess. }
  cbn [event set_tryImmediately set_attempts]. rewrite Hs.
  cbn [exec]. rewrite submit_phase_exec. cbv iota. cbn [exec].
  eexists _, _, _, _. split; [reflexivity |]. split; reflexivity.
Qed.

Lemma runCallback_keeps (cb : Callback) (w : World) (self : ApiRef) :
  sessionUuid (apis (runCallback cb w) !!! self) = sessionUuid (apis w !!! self)
  /\ participantCode (apis (runCallback cb w) !!! self)
     = participantCode (apis w !!! self)
  /\ apiUrl (apis (runCallback cb w) !!! self) = apiUrl (apis w !!! self)
  /\ tabIsActive (runCallback cb w) = tabIsActive w
  /\ referrer (runCallback cb w) = referrer w.
Proof.
  destruct cb as [s]. unfold runCallback, set_apis. cbn [apis].
  rewrite list_lookup_total_alter.
  destruct (decide (s = self /\ s < length (apis w))%nat) as [[-> _] | _];
    repeat split; reflexivity.
Qed.

Lemma run_callbacks_keep (cbs : list (PromiseId * Callback)) (w : World)
    (self : ApiRef) :
  let w' := fold_left (fun w' r => runCallback (snd r) w') cbs w in
  sessionUuid (apis w' !!! self) = sessionUuid (apis w !!! self)
  /\ participantCode (apis w' !!! self) = participantCode (apis w !!! self)
  /\ apiUrl (apis w' !!! self) = apiUrl (apis w !!! self)
  /\ tabIsActive w' = tabIsActive w
  /\ referrer w' = referrer w.
Proof.
  revert w. induction cbs as [| [q cb] cbs IH]; intros w; simpl.
  - repeat split; reflexivity.
  - destruct (IH (runCallback cb w)) as (A & B & C & D & E).
    destruct (runCallback_keeps cb w self) as (A' & B' & C' & D' & E').
    simpl in *. repeat split; congruence.
Qed.

Lemma fire_keeps (p : PromiseId) (w : World) (self : ApiRef) :
  sessionUuid (apis (fire p w) !!! self) = sessionUuid (apis w !!! self)
  /\ participantCode (apis (fire p w) !!! self)
     = participantCode (apis w !!! self).
Proof.
  unfold fire.
  destruct (run_callbacks_keep
              (List.filter (fun r => Nat.eqb (fst r) p) (reactions w))
              (set_reactions
                 (List.filter (fun r => negb (Nat.eqb (fst r) p)) (reactions w))
                 w) self) as (A & B & _).
  split; assumption.
Qed.

(** C6 (the code departs from the claim).  Let [postEvent] be called for an
    event without session identifier while no identifier is cached and a
    creation request is in flight.  When that request fails, the call goes
    on exactly as the submission of the event with the empty session
    identifier: [ensureSession] returns without looking at the result of
    the request it waited for, and [postEvent] assigns the cached, still
    empty, identifier before it stores and submits the event. *)
Theorem postEvent_after_failed_creation
    (self : ApiRef) (e : Event) (r : bool) (w : World) (p : PromiseId)
    (message : string) (code : option string) (env : list EnvStep) :
  participantCode (apis w !!! self) <> "" ->
  sessionUuid (apis w !!! self) = "" ->
  sessionPromise (apis w !!! self) = Some p ->
  ev_sessionUuid e = "" ->
  exec (postEvent self e r) (mkEnvStep (Failure message code) id :: env) w []
  = exec (submit_phase self
            (mkHeaders "application/json" (participantCode (apis w !!! self)))
            (set_ev_sessionUuid "" (enrich w e)) r)
         env (fire p w) [].
Proof.
  intros Hcode Hsess Hflight He.
  rewrite postEvent_phases, exec_abind, exec_liftS, headers_eq.
  cbn [fst snd x_participant_code]. cbv beta iota.
  rewrite (proj2 (truthy_true _) Hcode). cbn [negb]. cbv iota.
  rewrite exec_abind, exec_sget. cbv beta iota. rewrite exec_abind.
  unfold session_phase.
  assert (Hs : String.eqb (ev_sessionUuid (enrich w e)) "" = true).
  { apply String.eqb_eq. exact He. }
  rewrite Hs. rewrite exec_abind. unfold ensureSession.
  rewrite exec_abind, exec_liftS. unfold getApi. cbn [fst snd].
  cbv beta iota. rewrite Hsess. cbn [String.eqb negb]. cbv iota.
  rewrite Hflight. cbn [exec settled interfere]. unfold id at 1.
  rewrite exec_abind, exec_liftS. unfold getApi. cbn [fst snd].
  cbv beta iota. cbn [exec].
  destruct (fire_keeps p w self) as [-> _]. rewrite Hsess. reflexivity.
Qed.

End Departures.

(** ** The scenarios *)

Module ScenarioFacts.

Import Reference Scenario.

Example offline_post_queues_one :
  returned (outcome_of offline_post) = Some (Ok false)
  /\ queue (world_of offline_post)
     = Ok [mkStoredEvent "https://collector"
             (mkEvent "PAGE_VIEW" "uuid-1" "S1" None (Some "https://referrer/")
                      (Some "1.0.0") (Some true) "")
             1000 false 1 "P1" true].
Proof. vm_compute. split; reflexivity. Qed.

Example sweep_delivers_first_keeps_second :
  returned (outcome_of swept) = Some (Ok tt)
  /\ option_map (map (fun s => (localUuid (event s), attempts s, persisted s)))
       (match queue (world_of swept) with Ok l => Some l | Exn _ => None end)
     = Some [("uuid-2", 2, false)].
Proof. vm_compute. split; reflexivity. Qed.

Example offline_post_stored_before_submitting :
  exists (old : list StoredEvent) (ev : Event) (s : string),
    loadStoredEvents offline_post_stored
    = (Ok (old ++ [mkStoredEvent
                     (apiUrl (apis offline_post_stored !!! 0%nat)) ev
                     (clock offline_post_stored) false 1
                     (participantCode (apis offline_post_stored !!! 0%nat))
                     true]), offline_post_stored)
    /\ ev = set_ev_sessionUuid s (enrich (signed_in "S1") page_view)
    /\ localUuid ev = localUuid page_view
    /\ rq_body offline_post_request = BodyEvent (fill_url offline_post_stored ev).
Proof.
  apply (postEvent_stores_when_accepted 0%nat page_view [offline]
           (signed_in "S1") (outcome_of offline_post) (world_of offline_post)
           (rest_of offline_post) (trace_of offline_post)
           offline_post_request offline_post_stored).
  - vm_compute. reflexivity.
  - vm_compute. left. reflexivity.
  - reflexivity.
Qed.


Lemma createSession_single_flight_witness :
  exists (w1 : World) (os : list (Outcome Maybe)),
    callAll (replicate 3 (createSession 0%nat)) (signed_in "") = (os, w1)
    /\ length (requests w1) = 1%nat
    /\ length os = 3%nat
    /\ sessionPromise (apis (fire 0%nat w1) !!! 0%nat) = None.
Proof.
  destruct (createSession_single_flight 0%nat (signed_in "")
              (mkApiVars "https://collector" "P1" "" None) 2
              eq_refl eq_refl) as (w1 & os & A & B & C & _ & D & _).
  exists w1, os. rewrite B. repeat split; assumption.
Defined.

Lemma postEvent_stores_or_forgets_witness :
  exists (ev : Event) (s : string),
    ev = set_ev_sessionUuid s (enrich (signed_in "S1") page_view)
    /\ localUuid ev = localUuid page_view
    /\ rq_body offline_post_request = BodyEvent (fill_url offline_post_stored ev)
    /\ ((exists old,
           loadStoredEvents offline_post_stored
           = (Ok (old ++ [mkStoredEvent
                            (apiUrl (apis offline_post_stored !!! 0%nat)) ev
                            (clock offline_post_stored) false 1
                            (participantCode (apis offline_post_stored !!! 0%nat))
                            true]), offline_post_stored))
        \/ (exists u old wl ex wt,
              loadStoredEvents u = (Ok old, wl)
              /\ writeStoredEvents (old ++ [envelope 0%nat wl ev]) wl
                 = (Exn ex, wt)
              /\ saveToLocalStorage eventsStorageKey "" wt
                 = (Ok tt, offline_post_stored)
              /\ loadStoredEvents offline_post_stored
                 = (Ok [], offline_post_stored))).
Proof.
  apply (postEvent_stores_or_forgets 0%nat page_view [offline]
           (signed_in "S1") (outcome_of offline_post) (world_of offline_post)
           (rest_of offline_post) (trace_of offline_post)
           offline_post_request offline_post_stored).
  - vm_compute. reflexivity.
  - vm_compute. left. reflexivity.
  - reflexivity.
Defined.

(** The claim as first stated fails: with room for 100 characters in the
    local storage area, [postEvent(watch_time, true)], called with the
    participant code P1, issues its submission from a world whose queue
    holds no envelope at all. *)
Lemma postEvent_submits_from_empty_queue :
  participantCode (apis (signed_in "S1") !!! 0%nat) = "P1"
  /\ exists k w1 req,
       exec (@postEvent cramped 0%nat watch_time true) [] (signed_in "S1") []
       = (Suspended (length (requests forgotten)) k, w1, [], [(req, forgotten)])
       /\ rq_route req = postEventRoute
       /\ @loadStoredEvents cramped forgotten = (Ok [], forgotten)
       /\ ~ exists old x,
             @loadStoredEvents cramped forgotten = (Ok (old ++ [x]), forgotten).
Proof.
  split; [reflexivity |].
  destruct (@postEvent_submits_without_envelope cramped 0%nat watch_time
              (signed_in "S1") (signed_in "S1") unstored forgotten []
              QuotaExceededError) as (k & w1 & Hrun & Hload).
  - vm_compute. discriminate.
  - discriminate.
  - vm_compute. reflexivity.
  - vm_compute. reflexivity.
  - vm_compute. reflexivity.
  - exists k, w1. eexists. split; [exact Hrun |]. split; [reflexivity |].
    split; [exact Hload |].
    intros (old & x & H). rewrite Hload in H.
    pose proof (f_equal fst H) as Hx. cbn [fst] in Hx.
    destruct old; discriminate.
Qed.

Lemma sweep_leaves_no_persisted_witness :
  exists remaining,
    loadStoredEvents (world_of swept) = (Ok remaining, world_of swept)
    /\ Forall (fun s => persisted s = false) remaining.
Proof.
  apply (sweep_leaves_no_persisted sweep_env two_queued (world_of swept)
           (rest_of swept) (trace_of swept)).
  vm_compute. reflexivity.
Defined.

Lemma createSession_no_identity_check_witness :
  (exists k,
     exec (createSession 0%nat) [] anonymous []
     = (Suspended 0%nat k, session_requested 0%nat anonymous, [],
        [(createSession_request (apis anonymous !!! 0%nat), anonymous)])
     /\ x_participant_code
          (rq_headers (createSession_request (apis anonymous !!! 0%nat))) = "")
  /\ exec (newSession 0%nat) [] anonymous []
     = (Finished (Exn (Error "Missing participant code!")), anonymous, [], []).
Proof.
  exact (createSession_no_identity_check 0%nat anonymous eq_refl).
Defined.

Lemma retry_headers_use_stored_code_witness :
  se_participantCode queued_P1 = "P1"
  /\ exists k w1 req wp,
       exec (sweepEntry queued_P1) [] switched_identity []
       = (Suspended (length (requests switched_identity)) k, w1, [],
          [(req, wp)])
       /\ rq_route req = postEventRoute
       /\ x_participant_code (rq_headers req) = "P2".
Proof.
  split; [reflexivity |].
  apply (retry_headers_use_stored_code queued_P1 switched_identity "P2").
  - vm_compute. reflexivity.
  - discriminate.
  - reflexivity.
  - vm_compute. discriminate.
Defined.

Lemma postEvent_after_failed_creation_witness :
  exec (postEvent 0%nat page_view true) [server_error; offline] creating []
  = exec (submit_phase 0%nat
            (mkHeaders "application/json"
                       (participantCode (apis creating !!! 0%nat)))
            (set_ev_sessionUuid "" (enrich creating page_view)) true)
         [offline] (fire 0%nat creating) [].
Proof.
  apply (postEvent_after_failed_creation 0%nat page_view true creating 0%nat
           "Internal Server Error" None [offline]).
  - vm_compute. discriminate.
  - reflexivity.
  - reflexivity.
  - reflexivity.
Defined.

(** An entry queued under P1 and retried after P2 signed in is submitted
    with P2's code in [X-Participant-Code]. *)
Example retry_uses_active_identity :
  queued_codes switched_identity = ["P1"]
  /\ routes (trace_of retry_after_switch) = [postEventRoute]
  /\ header_codes (trace_of retry_after_switch) = ["P2"].
Proof. vm_compute. repeat split; reflexivity. Qed.

(** An event posted while a failing session creation is in flight is stored
    and submitted without a session identifier; the retry of the stored
    entry creates a session and submits the event under an identifier the
    first attempt did not carry, while the stored entry keeps the empty
    one. *)
Example failed_creation_leaves_event_sessionless :
  sessionPromise (apis creating !!! 0%nat) = Some 0%nat
  /\ returned (outcome_of post_while_creating) = Some (Ok false)
  /\ routes (trace_of post_while_creating) = [postEventRoute]
  /\ submitted_sessions (trace_of post_while_creating) = [""]
  /\ queued_sessions (world_of post_while_creating) = [""]
  /\ routes (trace_of retry_of_sessionless) = [postCreateSession; postEventRoute]
  /\ submitted_sessions (trace_of retry_of_sessionless) = ["S2"]
  /\ queued_sessions (world_of retry_of_sessionless) = [""].
Proof. vm_compute. repeat split; reflexivity. Qed.

End ScenarioFacts.

(** * Properties of the further code *)

(** ** lib.ts: namespaced storage *)

Lemma length_append (s1 s2 : string) :
  String.length (s1 +:+ s2) = (String.length s1 + String.length s2)%nat.
Proof.
  induction s1 as [| c s1 IH]; [reflexivity |].
  change (S (String.length (s1 +:+ s2))
          = S (String.length s1 + String.length s2)%nat).
  rewrite IH. reflexivity.
Qed.

Lemma namespaced_ne (key : string) : namespace +:+ key <> key.
Proof.
  intros E. apply (f_equal String.length) in E.
  rewrite length_append in E. unfold namespace in E. simpl in E. lia.
Qed.

Lemma cleanKeys_lookup (keys : list string) (st : gmap string string)
    (k : string) :
  cleanKeys keys st !! k
  = if decide (String.prefix namespace k = true /\ k ∈ keys)
    then None else st !! k.
Proof.
  revert st. induction keys as [| a keys IH]; intros st; simpl.
  - destruct (decide _) as [[_ F] |]; [| reflexivity].
    apply elem_of_nil in F. destruct F.
  - rewrite IH.
    destruct (decide (String.prefix namespace k = true /\ k ∈ keys))
      as [[P Hin] | N].
    + rewrite decide_True; [reflexivity |].
      split; [exact P | apply elem_of_cons; auto].
    + destruct (decide (String.prefix namespace k = true /\ k ∈ a :: keys))
        as [[P Hin] | N'].
      * apply elem_of_cons in Hin as [-> | Hin].
        -- rewrite P. apply lookup_delete_eq.
        -- exfalso. apply N. auto.
      * destruct (String.prefix namespace a) eqn:Pa; [| reflexivity].
        apply lookup_delete_ne. intros ->. apply N'.
        split; [exact Pa | apply elem_of_cons; auto].
Qed.

Section StorageFacts.

Context {X : External}.

Lemma getFrom_absent (area : Area) (key : string) (st : gmap string string) :
  st !! (namespace +:+ key) = None -> st !! key = None ->
  getFrom area key st = (Ok None, st).
Proof. intros H1 H2. unfold getFrom. rewrite H1, H2. reflexivity. Qed.

Lemma getFrom_after_save (area : Area) (key value : string)
    (st : gmap string string) :
  getFrom area key (<[namespace +:+ key := value]> (delete key st))
  = (Ok (if truthy value then Some value else None),
     <[namespace +:+ key := value]> (delete key st)).
Proof.
  unfold getFrom. rewrite lookup_insert_eq. cbn [truthyO].
  destruct (truthy value) eqn:T; [reflexivity |].
  rewrite lookup_insert_ne by apply namespaced_ne.
  rewrite lookup_delete_eq. reflexivity.
Qed.


(** X2.  A value found only under the legacy, un-namespaced key is
    returned, moved under the namespaced key and removed from the legacy
    key, and reading again returns the same value and changes nothing
    more; when the browser refuses the move, the read throws and nothing
    is changed. *)
Theorem legacy_value_migrates (area : Area) (key v : string)
    (st : gmap string string) :
  truthyO (st !! (namespace +:+ key)) = false ->
  st !! key = Some v ->
  v <> "" ->
  if setItem_refused area st (namespace +:+ key) v
  then getFrom area key st = (Exn QuotaExceededError, st)
  else
    exists st',
      getFrom area key st = (Ok (Some v), st')
      /\ st' !! (namespace +:+ key) = Some v
      /\ st' !! key = None
      /\ getFrom area key st' = (Ok (Some v), st').
Proof.
  intros Hnew Hold Hv.
  pose proof (proj2 (truthy_true v) Hv) as Tv.
  destruct (setItem_refused area st (namespace +:+ key) v) eqn:R.
  - unfold getFrom, setItem. rewrite Hnew, Hold, Tv, R. reflexivity.
  - exists (delete key (<[namespace +:+ key := v]> st)).
    assert (Hl : delete key (<[namespace +:+ key := v]> st)
                   !! (namespace +:+ key) = Some v).
    { rewrite lookup_delete_ne
        by (intros E; symmetry in E; exact (namespaced_ne _ E)).
      apply lookup_insert_eq. }
    split; [| split; [exact Hl | split; [apply lookup_delete_eq |]]].
    + unfold getFrom, setItem. rewrite Hnew, Hold, Tv, R. reflexivity.
    + unfold getFrom. rewrite Hl. cbn [truthyO]. rewrite Tv. reflexivity.
Qed.

(** X3.  A read never returns the empty string: it returns [null], leaving
    the storage area as it was, or a non-empty value that is stored under
    the namespaced key from then on, or it throws [QuotaExceededError],
    leaving the area as it was. *)
Theorem get_returns_null_or_nonempty (area : Area) (key : string)
    (st : gmap string string) :
  match getFrom area key st with
  | (Ok (Some v), st') => v <> "" /\ st' !! (namespace +:+ key) = Some v
  | (Ok None, st') => st' = st
  | (Exn e, st') => e = QuotaExceededError /\ st' = st
  end.
Proof.
  assert (Hmove : forall o : string,
    truthy o = true ->
    match
      (match setItem area (namespace +:+ key) o st with
       | (Ok _, st') => (Ok (Some o), delete key st')
       | (Exn e, st') => (Exn e, st')
       end : Res (option string) * gmap string string)
    with
    | (Ok (Some v), st') => v <> "" /\ st' !! (namespace +:+ key) = Some v
    | (Ok None, st') => st' = st
    | (Exn e, st') => e = QuotaExceededError /\ st' = st
    end).
  { intros o To. unfold setItem.
    destruct (setItem_refused area st (namespace +:+ key) o);
      [split; reflexivity |].
    split; [apply truthy_true, To |].
    rewrite lookup_delete_ne
      by (intros E; symmetry in E; exact (namespaced_ne _ E)).
    apply lookup_insert_eq. }
  unfold getFrom.
  destruct (st !! (namespace +:+ key)) as [v |] eqn:Hnew; cbn [truthyO].
  - destruct (truthy v) eqn:T.
    + split; [apply truthy_true, T | exact Hnew].
    + destruct (st !! key) as [o |]; [| reflexivity].
      destruct (truthy o) eqn:To; [| reflexivity].
      apply Hmove, To.
  - destruct (st !! key) as [o |]; [| reflexivity].
    destruct (truthy o) eqn:To; [| reflexivity].
    apply Hmove, To.
Qed.

(** X4.  After a delete the key reads as [null], whether the value was
    stored under the namespaced or under the legacy key. *)
Theorem delete_then_get (area : Area) (key : string)
    (st : gmap string string) :
  getFrom area key (deleteFrom key st) = (Ok None, deleteFrom key st).
Proof.
  apply getFrom_absent; unfold deleteFrom.
  - apply lookup_delete_eq.
  - rewrite lookup_delete_ne by apply namespaced_ne. apply lookup_delete_eq.
Qed.

End StorageFacts.

(** X5.  Cleaning a storage area removes exactly the keys that start with
    the namespace prefix; every other key, a legacy key included, keeps its
    value. *)
Theorem cleanArea_removes_namespaced (st : gmap string string) (k : string) :
  cleanArea st !! k = if String.prefix namespace k then None else st !! k.
Proof.
  unfold cleanArea. rewrite cleanKeys_lookup.
  destruct (String.prefix namespace k) eqn:P.
  - destruct (decide _) as [_ | N]; [reflexivity |].
    destruct (st !! k) as [v |] eqn:E; [| reflexivity].
    exfalso. apply N. split; [reflexivity |].
    apply list_elem_of_In, in_map_iff. exists (k, v). split; [reflexivity |].
    apply list_elem_of_In, elem_of_map_to_list. exact E.
  - destruct (decide _) as [[F _] | _]; [discriminate | reflexivity].
Qed.

(** ** api.ts: identity *)

(** X6.  [setAuth] saves the participant code, then caches it: afterwards
    [getAuth] and the request headers give it, and it is what a closure
    created later reads from storage first (unless it is empty, which
    reads as [null]).  When the browser refuses the save, [setAuth] throws
    and the closure keeps the code it had. *)
Theorem setAuth_round_trip {X : External} (self : ApiRef) (code : string)
    (w : World) (vars : ApiVars) :
  apis w !! self = Some vars ->
  match setAuth self code w with
  | (Ok _, w1) =>
    getAuth self w1 = (Ok code, w1)
    /\ headers self w1 = (Ok (mkHeaders "application/json" code), w1)
    /\ getFromLocalStorage "participantCode" w1
       = (Ok (if truthy code then Some code else None), w1)
  | (Exn e, w1) => e = QuotaExceededError /\ apis w1 = apis w
  end.
Proof.
  intros Hself.
  unfold setAuth, sbind, saveToLocalStorage, saveTo, setItem.
  destruct (setItem_refused localArea _ _ _); [split; reflexivity |].
  cbn [modifyApi smodify].
  assert (Hv : alter (set_participantCode code) self (apis w) !!! self
               = set_participantCode code vars).
  { apply list_lookup_total_correct.
    rewrite list_lookup_alter_eq, Hself. reflexivity. }
  split; [| split].
  - unfold getAuth, sbind, getApi, sret. cbn [apis set_apis set_localStorage].
    rewrite Hv. reflexivity.
  - unfold headers, sbind, getApi, sret. cbn [apis set_apis set_localStorage].
    rewrite Hv. reflexivity.
  - unfold getFromLocalStorage. cbn [localStorage set_apis set_localStorage].
    rewrite getFrom_after_save. reflexivity.
Qed.


(** ** api.ts: logout *)

Lemma cleanArea_lookup (st : gmap string string) (k : string) :
  cleanArea st !! k = if String.prefix namespace k then None else st !! k.
Proof.
  unfold cleanArea. rewrite cleanKeys_lookup.
  destruct (String.prefix namespace k) eqn:P.
  - destruct (decide _) as [_ | N]; [reflexivity |].
    destruct (st !! k) as [v |] eqn:E; [| reflexivity].
    exfalso. apply N. split; [reflexivity |].
    apply list_elem_of_In, in_map_iff. exists (k, v). split; [reflexivity |].
    apply list_elem_of_In, elem_of_map_to_list. exact E.
  - destruct (decide _) as [[F _] | _]; [discriminate | reflexivity].
Qed.

Lemma prefix_namespaced (key : string) :
  String.prefix namespace (namespace +:+ key) = true.
Proof. apply prefix_correct. unfold namespace.
  induction key; reflexivity. Qed.

Lemma logout_world (self : ApiRef) (w : World) :
  logout self [] w
  = (Ok tt,
     set_sessionStorage
       (cleanArea (deleteFrom "cfg" (deleteFrom "sessionUuid" (sessionStorage w))))
       (set_localStorage
          (cleanArea
             (deleteFrom eventsStorageKey
                (deleteFrom "participantCode" (localStorage w))))
          (set_apis
             (alter (set_sessionUuid "") self
                (alter (set_participantCode "") self (apis w))) w))).
Proof. reflexivity. Qed.

Lemma cleaned_deleted_absent (key : string) (st : gmap string string) :
  String.prefix namespace key = false ->
  cleanArea (deleteFrom key st) !! (namespace +:+ key) = None
  /\ cleanArea (deleteFrom key st) !! key = None.
Proof.
  intros P. rewrite !cleanArea_lookup, prefix_namespaced, P.
  split; [reflexivity |]. unfold deleteFrom.
  rewrite lookup_delete_ne by apply namespaced_ne. apply lookup_delete_eq.
Qed.

Lemma getFromLocalStorage_absent {X : External} (key : string) (w : World) :
  localStorage w !! (namespace +:+ key) = None ->
  localStorage w !! key = None ->
  getFromLocalStorage key w = (Ok None, w).
Proof.
  intros H1 H2. unfold getFromLocalStorage.
  rewrite (getFrom_absent _ _ _ H1 H2). destruct w; reflexivity.
Qed.

Lemma getFromSessionStorage_absent {X : External} (key : string) (w : World) :
  sessionStorage w !! (namespace +:+ key) = None ->
  sessionStorage w !! key = None ->
  getFromSessionStorage key w = (Ok None, w).
Proof.
  intros H1 H2. unfold getFromSessionStorage.
  rewrite (getFrom_absent _ _ _ H1 H2). destruct w; reflexivity.
Qed.

Lemma saveToLocalStorage_frame {X : External} (key value : string) (w : World) :
  exists r st, saveToLocalStorage key value w = (r, set_localStorage st w).
Proof.
  unfold saveToLocalStorage.
  destruct (saveTo localArea key value (localStorage w)) as [r st]. eauto.
Qed.

(** [saveStoredEvents] touches the local storage area only. *)
Lemma saveStoredEvents_frame {X : External} (l : list StoredEvent) (w : World) :
  exists r st, saveStoredEvents l w = (r, set_localStorage st w).
Proof.
  unfold saveStoredEvents, writeStoredEvents, scatch, sbind.
  destruct (saveToLocalStorage_frame "lz-string" "true" w) as (r1 & st1 & ->).
  destruct r1 as [[] | e1].
  - destruct (JSON_stringify l) as [s |].
    + destruct (saveToLocalStorage_frame eventsStorageKey (compressToUTF16 s)
                  (set_localStorage st1 w)) as (r2 & st2 & ->).
      destruct r2 as [[] | e2]; [eauto |].
      destruct (saveToLocalStorage_frame eventsStorageKey ""
                  (set_localStorage st2 (set_localStorage st1 w)))
        as (r3 & st3 & ->). eauto.
    + unfold sthrow.
      destruct (saveToLocalStorage_frame eventsStorageKey ""
                  (set_localStorage st1 w)) as (r3 & st3 & ->). eauto.
  - destruct (saveToLocalStorage_frame eventsStorageKey ""
                (set_localStorage st1 w)) as (r3 & st3 & ->). eauto.
Qed.

Section Logout.

Context {X : External}.

Lemma logged_out_storage (self : ApiRef) (w : World) :
  localStorage (logged_out self w) !! (namespace +:+ "participantCode") = None
  /\ localStorage (logged_out self w) !! "participantCode" = None
  /\ localStorage (logged_out self w) !! (namespace +:+ eventsStorageKey) = None
  /\ localStorage (logged_out self w) !! eventsStorageKey = None
  /\ sessionStorage (logged_out self w) !! (namespace +:+ "sessionUuid") = None
  /\ sessionStorage (logged_out self w) !! "sessionUuid" = None.
Proof.
  unfold logged_out. rewrite logout_world. cbn [snd localStorage sessionStorage
    set_sessionStorage set_localStorage set_apis].
  repeat split.
  - rewrite cleanArea_lookup, prefix_namespaced. reflexivity.
  - rewrite cleanArea_lookup. cbn [String.prefix]. unfold deleteFrom.
    rewrite !lookup_delete_ne by done. rewrite lookup_delete_eq. reflexivity.
  - apply cleaned_deleted_absent. reflexivity.
  - apply cleaned_deleted_absent. reflexivity.
  - rewrite cleanArea_lookup, prefix_namespaced. reflexivity.
  - rewrite cleanArea_lookup. cbn [String.prefix]. unfold deleteFrom.
    rewrite !lookup_delete_ne by done. rewrite lookup_delete_eq. reflexivity.
Qed.

(** X7.  After [logout] (no listener registered) the closure holds no
    participant code and no session identifier, neither is stored any more,
    the queue reads as empty, and no storage key with the namespace prefix
    is left.  The in-flight handle of a session creation is left as it
    was, and no request is issued. *)
Theorem logout_clears_identity_and_queue
    (self : ApiRef) (w : World) (vars : ApiVars) :
  apis w !! self = Some vars ->
  let w' := logged_out self w in
  logout self [] w = (Ok tt, w')
  /\ apis w' !! self = Some (mkApiVars (apiUrl vars) "" "" (sessionPromise vars))
  /\ getFromLocalStorage "participantCode" w' = (Ok None, w')
  /\ getFromSessionStorage "sessionUuid" w' = (Ok None, w')
  /\ loadStoredEvents w' = (Ok [], w')
  /\ (forall k, String.prefix namespace k = true ->
                localStorage w' !! k = None /\ sessionStorage w' !! k = None)
  /\ requests w' = requests w.
Proof.
  intros Hself w'. subst w'.
  destruct (logged_out_storage self w) as (A & B & C & D & E & F).
  split; [reflexivity |].
  split.
  { unfold logged_out. rewrite logout_world. cbn [snd apis
      set_sessionStorage set_localStorage set_apis].
    rewrite !list_lookup_alter_eq, Hself. reflexivity. }
  split; [apply getFromLocalStorage_absent; assumption |].
  split; [apply getFromSessionStorage_absent; assumption |].
  split.
  { unfold loadStoredEvents, sbind.
    rewrite (getFromLocalStorage_absent _ _ C D). reflexivity. }
  split; [| reflexivity].
  intros k P. unfold logged_out. rewrite logout_world.
  cbn [snd localStorage sessionStorage set_sessionStorage set_localStorage
       set_apis].
  rewrite !cleanArea_lookup, P. split; reflexivity.
Qed.


End Logout.


(** ** api.ts: session creation *)

Section Sessions.

Context {X : External}.

Lemma createSession_step (self : ApiRef) (w : World) (s : EnvStep) env tr :
  sessionPromise (apis w !!! self) = None ->
  exec (createSession self) (s :: env) w tr
  = (Finished (Ok (settled s)),
     interfere s (fire (length (requests w)) (session_requested self w)),
     env, tr ++ [(createSession_request (apis w !!! self), w)]).
Proof.
  intros Hidle. unfold createSession.
  rewrite exec_abind, exec_liftS. unfold getApi at 1. cbn [fst snd].
  cbv beta iota. rewrite Hidle. reflexivity.
Qed.

Lemma saveToSessionStorage_run (uuid : string) (w : World) :
  saveToSessionStorage "sessionUuid" uuid w
  = if session_refused uuid w
    then (Exn QuotaExceededError,
          set_sessionStorage (delete "sessionUuid" (sessionStorage w)) w)
    else (Ok tt,
          set_sessionStorage
            (<[namespace +:+ "sessionUuid" := uuid]>
               (delete "sessionUuid" (sessionStorage w))) w).
Proof.
  unfold saveToSessionStorage, saveTo, setItem, session_refused.
  destruct (setItem_refused _ _ _ _); reflexivity.
Qed.

(** What [newSession] does with the response to its request, received in
    world [w]. *)
Lemma newSession_answer (self : ApiRef) (res : Maybe) env (w : World) tr :
  exec (match res with
        | Success value =>
          (do_ liftS (modifyApi (set_sessionUuid (value_uuid value)) self);
           do_ liftS (saveToSessionStorage "sessionUuid" (value_uuid value));
           Ret (value_uuid value))%async
        | Failure message _ =>
          Throw (Error ("Failed to create new session: " +:+ message))
        end) env w tr
  = match res with
    | Success v =>
      if session_refused (value_uuid v) w
      then (Finished (Exn QuotaExceededError),
            session_cached self (value_uuid v) w, env, tr)
      else (Finished (Ok (value_uuid v)),
            session_established self (value_uuid v) w, env, tr)
    | Failure message _ =>
      (Finished (Exn (creation_failed message)), w, env, tr)
    end.
Proof.
  destruct res as [v | message c]; [| reflexivity].
  rewrite exec_abind, exec_liftS. cbn [fst snd modifyApi smodify].
  cbv beta iota. rewrite exec_abind, exec_liftS, saveToSessionStorage_run.
  change (session_refused (value_uuid v)
            (set_apis (alter (set_sessionUuid (value_uuid v)) self (apis w)) w))
    with (session_refused (value_uuid v) w).
  destruct (session_refused (value_uuid v) w); reflexivity.
Qed.

Lemma newSession_step (self : ApiRef) (w : World) (s : EnvStep) env :
  participantCode (apis w !!! self) <> "" ->
  sessionPromise (apis w !!! self) = None ->
  exec (newSession self) (s :: env) w []
  = let w2 := interfere s (fire (length (requests w))
                             (session_requested self w)) in
    let tr := [(createSession_request (apis w !!! self), w)] in
    match settled s with
    | Success v =>
      if session_refused (value_uuid v) w2
      then (Finished (Exn QuotaExceededError),
            session_cached self (value_uuid v) w2, env, tr)
      else (Finished (Ok (value_uuid v)),
            session_established self (value_uuid v) w2, env, tr)
    | Failure message _ =>
        (Finished (Exn (creation_failed message)), w2, env, tr)
    end.
Proof.
  intros Hcode Hidle. unfold newSession.
  rewrite exec_abind, exec_liftS. unfold getApi at 1. cbn [fst snd].
  cbv beta iota. rewrite (proj2 (truthy_true _) Hcode). cbn [negb].
  cbv iota. rewrite exec_abind, createSession_step by exact Hidle.
  cbv zeta. apply newSession_answer.
Qed.

Lemma newSession_suspends (self : ApiRef) (w : World) :
  participantCode (apis w !!! self) <> "" ->
  sessionPromise (apis w !!! self) = None ->
  exists k,
    exec (newSession self) [] w []
    = (Suspended (length (requests w)) k, session_requested self w, [],
       [(createSession_request (apis w !!! self), w)])
    /\ forall res env w' tr,
         exec (k res) env w' tr
         = match res with
           | Success v =>
             if session_refused (value_uuid v) w'
             then (Finished (Exn QuotaExceededError),
                   session_cached self (value_uuid v) w', env, tr)
             else (Finished (Ok (value_uuid v)),
                   session_established self (value_uuid v) w', env, tr)
           | Failure message _ =>
               (Finished (Exn (creation_failed message)), w', env, tr)
           end.
Proof.
  intros Hcode Hidle. unfold newSession.
  rewrite exec_abind, exec_liftS. unfold getApi. cbn [fst snd].
  cbv beta iota. rewrite (proj2 (truthy_true _) Hcode). cbn [negb].
  cbv iota. rewrite exec_abind.
  destruct (createSession_idle self w Hidle) as (k0 & -> & D).
  eexists. split; [reflexivity |].
  intros res env w' tr. cbv beta. rewrite exec_abind, (D res).
  apply newSession_answer.
Qed.

Lemma run_callbacks_frame (cbs : list (PromiseId * Callback)) (w : World) :
  let w' := fold_left (fun w' r => runCallback (snd r) w') cbs w in
  length (apis w') = length (apis w)
  /\ localStorage w' = localStorage w
  /\ sessionStorage w' = sessionStorage w.
Proof.
  revert w. induction cbs as [| [q [s]] cbs IH]; intros w; simpl.
  - auto.
  - destruct (IH (runCallback (ClearSessionPromise s) w)) as (A & B & C).
    simpl in *. rewrite A, B, C. rewrite length_alter. auto.
Qed.

Lemma fire_frame (p : PromiseId) (w : World) :
  length (apis (fire p w)) = length (apis w)
  /\ localStorage (fire p w) = localStorage w
  /\ sessionStorage (fire p w) = sessionStorage w.
Proof.
  unfold fire.
  exact (run_callbacks_frame
           (List.filter (fun r => Nat.eqb (fst r) p) (reactions w))
           (set_reactions
              (List.filter (fun r => negb (Nat.eqb (fst r) p)) (reactions w))
              w)).
Qed.

Lemma established_lookup (self : ApiRef) (uuid : string) (w : World) :
  (self < length (apis w))%nat ->
  apis (session_established self uuid w) !!! self
  = set_sessionUuid uuid (apis w !!! self)
  /\ apis (session_cached self uuid w) !!! self
     = set_sessionUuid uuid (apis w !!! self).
Proof.
  intros Hlt. unfold session_established, session_cached, set_sessionStorage,
    set_apis.
  cbn [apis]. split; apply list_lookup_total_alter_eq; exact Hlt.
Qed.

(** The world [newSession] leaves after a successful response. *)
Lemma session_kept (self : ApiRef) (uuid : string) (w w' : World) :
  (self < length (apis w))%nat ->
  uuid <> "" ->
  w' = session_established self uuid w \/ w' = session_cached self uuid w ->
  sessionUuid (apis w' !!! self) = uuid
  /\ participantCode (apis w' !!! self) = participantCode (apis w !!! self)
  /\ getSession self w' = (Ok (Some uuid), w')
  /\ forall env, exec (ensureSession self) env w' [] = (Finished (Ok tt), w', env, []).
Proof.
  intros Hlt Hu Hw.
  pose proof (proj2 (String.eqb_neq _ _) Hu) as Eu.
  destruct (established_lookup self uuid w Hlt) as [He Hc].
  assert (Hv : apis w' !!! self = set_sessionUuid uuid (apis w !!! self))
    by (destruct Hw as [-> | ->]; assumption).
  split; [rewrite Hv; reflexivity |].
  split; [rewrite Hv; reflexivity |].
  split.
  - unfold getSession, sbind, getApi, sret. rewrite Hv.
    cbn [sessionUuid set_sessionUuid]. rewrite Eu. reflexivity.
  - intros env. unfold ensureSession. rewrite exec_abind, exec_liftS.
    unfold getApi. cbn [fst snd]. cbv beta iota. rewrite Hv.
    cbn [sessionUuid set_sessionUuid]. rewrite Eu. reflexivity.
Qed.


Lemma requested_lookup (self : ApiRef) (w : World) (vars : ApiVars) :
  apis w !! self = Some vars ->
  apis (session_requested self w) !! self
  = Some (set_sessionPromise (Some (length (requests w))) vars).
Proof.
  intros Hself. unfold session_requested, set_reactions, set_apis. cbn [apis].
  rewrite list_lookup_alter_eq, Hself. reflexivity.
Qed.

Lemma logged_out_apis (self : ApiRef) (w : World) :
  apis (logged_out self w)
  = alter (set_sessionUuid "") self
      (alter (set_participantCode "") self (apis w)).
Proof. unfold logged_out. rewrite logout_world. reflexivity. Qed.

Lemma logged_out_lookup (self : ApiRef) (w : World) (vars : ApiVars) :
  apis w !! self = Some vars ->
  apis (logged_out self w) !! self
  = Some (mkApiVars (apiUrl vars) "" "" (sessionPromise vars)).
Proof.
  intros Hself. rewrite logged_out_apis, !list_lookup_alter_eq, Hself.
  reflexivity.
Qed.

(** X10.  [logout] does not cancel a session creation in flight: when the
    request succeeds after the logout, [newSession] caches the new
    identifier although no participant is signed in any more. *)
Theorem logout_does_not_cancel_session_creation
    (self : ApiRef) (w : World) (vars : ApiVars) (v : Value) :
  apis w !! self = Some vars ->
  participantCode vars <> "" ->
  sessionPromise vars = None ->
  value_uuid v <> "" ->
  exists k r w',
    exec (newSession self) [] w []
    = (Suspended (length (requests w)) k, session_requested self w, [],
       [(createSession_request vars, w)])
    /\ exec (k (Success v)) []
          (fire (length (requests w))
                (logged_out self (session_requested self w))) []
       = (Finished r, w', [], [])
    /\ participantCode (apis w' !!! self) = ""
    /\ sessionUuid (apis w' !!! self) = value_uuid v
    /\ getSession self w' = (Ok (Some (value_uuid v)), w').
Proof.
  intros Hself Hcode Hidle Hu.
  pose proof (list_lookup_total_correct _ _ _ Hself) as Htot.
  destruct (newSession_suspends self w) as (k & Ek & Hk);
    [rewrite Htot; exact Hcode | rewrite Htot; exact Hidle |].
  rewrite Htot in Ek.
  pose proof (logged_out_lookup _ _ _ (requested_lookup _ _ _ Hself)) as Hout.
  destruct (fire_frame (length (requests w))
              (logged_out self (session_requested self w))) as (Hlen & _ & _).
  destruct (fire_keeps (length (requests w))
              (logged_out self (session_requested self w)) self) as (_ & Hpc).
  assert (Hlt : (self < length (apis (fire (length (requests w))
                   (logged_out self (session_requested self w)))))%nat)
    by (rewrite Hlen; apply lookup_lt_Some in Hout; exact Hout).
  rewrite (list_lookup_total_correct _ _ _ Hout) in Hpc. cbn [participantCode] in Hpc.
  exists k. specialize (Hk (Success v) [] (fire (length (requests w))
                   (logged_out self (session_requested self w))) []).
  cbv beta iota in Hk.
  destruct (session_refused (value_uuid v) _).
  - destruct (session_kept self (value_uuid v) _ _ Hlt Hu (or_intror eq_refl))
      as (Hs & Hp & Hg & _).
    eexists _, _. split; [exact Ek |]. split; [exact Hk |].
    split; [rewrite Hp; exact Hpc |]. split; [exact Hs | exact Hg].
  - destruct (session_kept self (value_uuid v) _ _ Hlt Hu (or_introl eq_refl))
      as (Hs & Hp & Hg & _).
    eexists _, _. split; [exact Ek |]. split; [exact Hk |].
    split; [rewrite Hp; exact Hpc |]. split; [exact Hs | exact Hg].
Qed.

(** X11.  [checkParticipantCode] sends one request carrying the code to
    check and the closure's current participant code (checked or not), and
    answers by the kind of the response alone: [true] for every success,
    whatever value it carries, [false] for every failure; it never
    throws. *)
Theorem checkParticipantCode_answers_on_kind
    (self : ApiRef) (code : string) (w : World) (s : EnvStep)
    (env : list EnvStep) :
  exec (checkParticipantCode self code) (s :: env) w []
  = (Finished (Ok (is_success (settled s))),
     interfere s
       (fire (length (requests w))
          (set_requests
             (requests w ++ [checkParticipantCode_request (apis w !!! self) code])
             w)),
     env,
     [(checkParticipantCode_request (apis w !!! self) code, w)]).
Proof.
  unfold checkParticipantCode.
  rewrite exec_abind, exec_liftS, headers_eq. cbn [fst snd]. cbv beta iota.
  unfold post. cbn [abind liftS exec getApi fst snd].
  destruct (settled s); reflexivity.
Qed.

(** X12.  When [postEvent] has to create the session itself and the
    creation request fails, the call throws the failure and does nothing
    else: the event is neither submitted nor, even with retention asked
    for, written to the queue. *)
Theorem postEvent_fails_with_session_creation
    (self : ApiRef) (e : Event) (r : bool) (w : World) (s : EnvStep)
    (message : string) (code : option string) (env : list EnvStep) :
  participantCode (apis w !!! self) <> "" ->
  sessionUuid (apis w !!! self) = "" ->
  sessionPromise (apis w !!! self) = None ->
  ev_sessionUuid e = "" ->
  settled s = Failure message code ->
  exec (postEvent self e r) (s :: env) w []
  = (Finished (Exn (creation_failed message)),
     interfere s (fire (length (requests w)) (session_requested self w)),
     env, [(createSession_request (apis w !!! self), w)])
  /\ localStorage (fire (length (requests w)) (session_requested self w))
     = localStorage w.
Proof.
  intros Hcode Hsess Hidle He Hs. split.
  - rewrite postEvent_phases, exec_abind, exec_liftS, headers_eq.
    cbn [fst snd x_participant_code]. cbv beta iota.
    rewrite (proj2 (truthy_true _) Hcode). cbn [negb]. cbv iota.
    rewrite exec_abind, exec_sget. cbv beta iota. rewrite exec_abind.
    unfold session_phase.
    assert (Hs0 : String.eqb (ev_sessionUuid (enrich w e)) "" = true)
      by (apply String.eqb_eq; exact He).
    rewrite Hs0. rewrite exec_abind. unfold ensureSession.
    rewrite exec_abind, exec_liftS. unfold getApi. cbn [fst snd].
    cbv beta iota. rewrite Hsess. cbn [String.eqb negb]. cbv iota.
    rewrite Hidle. rewrite exec_abind, newSession_step by assumption.
    cbv zeta. rewrite Hs. reflexivity.
  - destruct (fire_frame (length (requests w)) (session_requested self w))
      as (_ & -> & _). reflexivity.
Qed.

End Sessions.


(** ** api.ts: the retry sweep, entry by entry *)

Lemma always_top {A} (m : Async A) :
  always (fun _ => True) (fun _ => True) m.
Proof.
  induction m as [a | e | k IH | w0 k IH | r k IH | p cb k IH | p k IH];
    simpl; auto.
Qed.

Section Sweep.

Context {X : External}.

Lemma sweepEntry_skip (se : StoredEvent) env w tr :
  not_due (clock w) se ->
  exec (sweepEntry se) env w tr = (Finished (Ok se), w, env, tr).
Proof.
  intros [Hlt Htry]. unfold sweepEntry.
  rewrite exec_abind, exec_sget. cbv beta iota zeta. unfold retryDelay.
  rewrite Htry. cbn [negb]. rewrite andb_true_r.
  rewrite (proj2 (Z.ltb_lt _ _)) by lia. reflexivity.
Qed.

Lemma sweepEntry_unfold (se : StoredEvent) env w tr :
  exec (sweepEntry se) env w tr
  = if (0 <? lastAttempt se + 60000 - clock w) && negb (tryImmediately se)
    then (Finished (Ok se), w, env, tr)
    else
      match createApi (se_apiUrl se) (Some (se_participantCode se)) w with
      | (Exn ex, w1) => (Finished (Exn ex), w1, env, tr)
      | (Ok api, w1) =>
      if negb (truthy (participantCode (apis w1 !!! api)))
      then (Finished (Ok (set_persisted true (retried se))), w1, env, tr)
      else
        match exec (postEvent api (event se) false) env w1 tr with
        | (Finished (Ok true), w2, env2, tr2) =>
            (Finished (Ok (set_persisted true (retried se))), w2, env2, tr2)
        | (Finished (Ok false), w2, env2, tr2) =>
            (Finished (Ok (set_lastAttempt (clock w2) (retried se))),
             w2, env2, tr2)
        | (Finished (Exn ex), w2, env2, tr2) =>
            (Finished (Exn ex), w2, env2, tr2)
        | (Suspended p k, w2, env2, tr2) =>
            (Suspended p
               (fun r =>
                  abind (k r)
                    (fun result : bool =>
                       if result
                       then Ret (set_persisted true (retried se))
                       else abind (liftS sget)
                              (fun w' =>
                                 Ret (set_lastAttempt (clock w') (retried se))))),
             w2, env2, tr2)
        end
      end.
Proof.
  unfold sweepEntry. rewrite exec_abind, exec_sget. cbv beta iota zeta.
  unfold retryDelay.
  destruct ((0 <? lastAttempt se + 60000 - clock w)
            && negb (tryImmediately se)); [reflexivity |].
  rewrite exec_abind, exec_liftS.
  change (se_apiUrl (set_tryImmediately false
                       (set_attempts (attempts se + 1) se)))
    with (se_apiUrl se).
  change (se_participantCode (set_tryImmediately false
                                (set_attempts (attempts se + 1) se)))
    with (se_participantCode se).
  destruct (createApi (se_apiUrl se) (Some (se_participantCode se)) w)
    as [[api | ex] w1]; cbn [fst snd]; [| reflexivity].
  cbv beta iota.
  rewrite exec_abind, exec_liftS. unfold getHeaders. rewrite headers_eq.
  cbn [fst snd x_participant_code]. cbv beta iota.
  match goal with
  | |- context [negb (truthy ?c)] => destruct (negb (truthy c))
  end; [reflexivity |].
  rewrite exec_abind.
  change (event (set_tryImmediately false (set_attempts (attempts se + 1) se)))
    with (event se).
  match goal with
  | |- context [exec (postEvent ?a ?b ?c) ?d ?e ?f] =>
      destruct (exec (postEvent a b c) d e f) as [[[o w2] env2] tr2]
  end.
  destruct o as [[[] | ex] | p k]; try reflexivity.
Qed.

Lemma sweepEntry_outcomes (se se' : StoredEvent) env w w' env' tr :
  exec (sweepEntry se) env w [] = (Finished (Ok se'), w', env', tr) ->
  (not_due (clock w) se /\ se' = se /\ w' = w /\ tr = [])
  \/ (~ not_due (clock w) se
      /\ (se' = set_persisted true (retried se)
          \/ se' = set_lastAttempt (clock w') (retried se))).
Proof.
  rewrite sweepEntry_unfold.
  destruct ((0 <? lastAttempt se + 60000 - clock w)
            && negb (tryImmediately se)) eqn:C.
  - intros E. injection E as <- <- _ <-. left.
    apply andb_true_iff in C as [C1 C2].
    apply Z.ltb_lt in C1. apply negb_true_iff in C2.
    repeat split; auto; lia.
  - intros E. right. split.
    { intros [H1 H2]. rewrite H2 in C. cbn [negb] in C.
      rewrite andb_true_r in C. apply Z.ltb_ge in C. lia. }
    destruct (createApi (se_apiUrl se) (Some (se_participantCode se)) w)
      as [[api | ex] w1]; [| discriminate].
    match type of E with
    | context [negb (truthy ?c)] => destruct (negb (truthy c))
    end.
    + injection E as <- _ _ _. auto.
    + match type of E with
      | context [exec (postEvent ?a ?b ?c) ?d ?e ?f] =>
          destruct (exec (postEvent a b c) d e f) as [[[o w2] env2] tr2]
      end.
      destruct o as [[[] | ex] | p k]; try discriminate.
      * injection E as <- _ _ _. auto.
      * injection E as <- <- _ _. auto.
Qed.

(** X13.  An entry whose retry was answered with a failure (it was
    processed and is still not persisted) is left alone by the sweep for
    the next 60 seconds: the loop body returns it untouched whenever it
    looks at it less than 60000 ms after the answer. *)
Theorem failed_retry_waits_a_minute
    (se se' : StoredEvent) env w w' env' tr env2 (w2 : World) :
  exec (sweepEntry se) env w [] = (Finished (Ok se'), w', env', tr) ->
  ~ not_due (clock w) se ->
  persisted se' = false ->
  clock w2 < clock w' + 60000 ->
  exec (sweepEntry se') env2 w2 [] = (Finished (Ok se'), w2, env2, []).
Proof.
  intros E Hdue Hp Hclock.
  destruct (sweepEntry_outcomes _ _ _ _ _ _ _ E)
    as [(Hnd & _) | (_ & [-> | ->])].
  - contradiction.
  - discriminate.
  - apply sweepEntry_skip. split; [exact Hclock | reflexivity].
Qed.

Lemma sweepEntry_same_entry (se : StoredEvent) :
  always (fun _ => True) (same_entry se) (sweepEntry se).
Proof.
  assert (Hk : same_entry se se)
    by (repeat split; auto).
  assert (Hp : forall b, same_entry se (set_persisted b (retried se)))
    by (intros b; repeat split; simpl; auto).
  assert (Hl : forall t, same_entry se (set_lastAttempt t (retried se)))
    by (intros t; repeat split; simpl; auto).
  unfold sweepEntry. apply always_abind, always_liftS. intros w0 w _ _.
  cbv zeta.
  destruct ((0 <? lastAttempt se + retryDelay - clock w)
            && negb (tryImmediately se)); [exact Hk |].
  apply always_abind, always_liftS. intros w1 api _ _.
  apply always_abind, always_liftS. intros w2 h _ _.
  destruct (negb (truthy (x_participant_code h))); [apply Hp |].
  apply always_abind.
  eapply always_weaken; [| apply always_top].
  intros [] _; [apply Hp |].
  apply always_abind, always_liftS. intros w3 w4 _ _. apply Hl.
Qed.

Lemma sweepLoop_same_entries (l : list StoredEvent) :
  always (fun _ => True) (Forall2 same_entry l) (sweepLoop l).
Proof.
  induction l as [| se l IH]; [simpl; constructor |].
  cbn [sweepLoop]. apply always_abind.
  eapply always_weaken; [| apply sweepEntry_same_entry].
  intros se' Hse. apply always_abind.
  eapply always_weaken; [| exact IH].
  intros l' Hl. simpl. constructor; assumption.
Qed.

Lemma sweepLoop_idle (l : list StoredEvent) env w tr :
  Forall (not_due (clock w)) l ->
  exec (sweepLoop l) env w tr = (Finished (Ok l), w, env, tr).
Proof.
  induction l as [| se l IH]; intros Hl; [reflexivity |].
  inversion Hl as [| ? ? Hse Hl']; subst.
  cbn [sweepLoop]. rewrite exec_abind, sweepEntry_skip by exact Hse.
  rewrite exec_abind, IH by exact Hl'. reflexivity.
Qed.

Lemma filter_all (l : list StoredEvent) :
  Forall (fun s => persisted s = false) l ->
  List.filter (fun s => negb (persisted s)) l = l.
Proof.
  induction l as [| s l IH]; intros H; [reflexivity |].
  inversion H as [| ? ? Hs Hl]; subst. simpl. rewrite Hs. simpl.
  rewrite IH by exact Hl. reflexivity.
Qed.

End Sweep.

Section SweepIdentity.

Context {X : External} {S : Spacious X}.

(** With room in the storage areas [createApi] returns a closure: its
    participant code is the stored one, or failing that the override. *)
Lemma createApi_accepted (url : string) (o : option string) (w : World) :
  exists stored session st st',
    getFrom localArea "participantCode" (localStorage w) = (Ok stored, st)
    /\ createApi url o w
       = (Ok (length (apis w)),
          set_apis
            (apis w
             ++ [mkApiVars url (nullish stored (nullish o "")) session None])
            (set_sessionStorage st' (set_localStorage st w))).
Proof.
  unfold createApi, sbind, getFromLocalStorage, getFromSessionStorage.
  destruct (getFrom_accepted localArea "participantCode" (localStorage w))
    as (stored & st & E1).
  rewrite E1. cbn [sessionStorage set_localStorage].
  destruct (getFrom_accepted sessionArea "sessionUuid" (sessionStorage w))
    as (session & st' & E2).
  rewrite E2. exists stored, (nullish session ""), st, st'.
  split; reflexivity.
Qed.


(** X15.  With no participant code in storage (and storage areas that
    accept every write), a due entry that recorded none either is marked
    persisted without any request being issued, so the sweep drops it. *)
Theorem entry_without_identity_is_dropped (se : StoredEvent) env (w : World) :
  fst (getFrom localArea "participantCode" (localStorage w)) = Ok None ->
  se_participantCode se = "" ->
  ~ not_due (clock w) se ->
  exists w1,
    exec (sweepEntry se) env w []
    = (Finished (Ok (set_persisted true (retried se))), w1, env, [])
    /\ requests w1 = requests w.
Proof.
  intros Hnone Hcode Hdue.
  rewrite sweepEntry_unfold.
  destruct ((0 <? lastAttempt se + 60000 - clock w)
            && negb (tryImmediately se)) eqn:C.
  { exfalso. apply Hdue. apply andb_true_iff in C as [C1 C2].
    apply Z.ltb_lt in C1. apply negb_true_iff in C2. split; [lia | exact C2]. }
  destruct (createApi_accepted (se_apiUrl se) (Some (se_participantCode se)) w)
    as (stored & session & st & st' & Eg & ->).
  rewrite Eg in Hnone. cbn [fst] in Hnone. injection Hnone as ->.
  rewrite Hcode. cbn [nullish].
  set (w1 := set_apis _ _).
  assert (Hv : participantCode (apis w1 !!! length (apis w)) = "").
  { unfold w1, set_apis. cbn [apis].
    rewrite list_lookup_total_middle by reflexivity. reflexivity. }
  rewrite Hv. cbn [truthy String.eqb negb].
  exists w1. split; reflexivity.
Qed.

End SweepIdentity.

Section SweepQueue.

Context {X : External} {L : Lawful X} {S : Spacious X}.

(** X16.  A completed sweep rewrites the queue from the entries it loaded
    when it started: what it leaves is no longer than what it loaded, and
    every entry left is one of the loaded ones, with the same event,
    collector URL and recorded participant code and at most one more
    attempt (none is left when the browser refused the write).  Whatever
    was written to the queue while the sweep was suspended is
    overwritten. *)
Theorem sweep_rewrites_its_snapshot env w w' env' tr (evs : list StoredEvent) :
  exec retryToPostStoredEvents env w [] = (Finished (Ok tt), w', env', tr) ->
  fst (loadStoredEvents w) = Ok evs ->
  exists remaining,
    loadStoredEvents w' = (Ok remaining, w')
    /\ (length remaining <= length evs)%nat
    /\ Forall (fun s => exists s0, In s0 evs /\ same_entry s0 s) remaining.
Proof.
  unfold retryToPostStoredEvents.
  rewrite exec_abind, exec_liftS.
  destruct (loadStoredEvents w) as [[evs0 | ex] wl]; cbn [fst snd];
    [| discriminate].
  rewrite exec_abind.
  destruct (exec (sweepLoop evs0) env wl []) as [[[o u] env1] tr1] eqn:El.
  destruct (always_exec _ _ _ (sweepLoop_same_entries evs0)
              _ _ _ _ _ _ _ El) as [_ Hres].
  destruct o as [[swept | ex] | p k]; try discriminate.
  specialize (Hres swept eq_refl).
  rewrite exec_liftS.
  destruct (saveStoredEvents
              (List.filter (fun s => negb (persisted s)) swept) u)
    as [[[] | ex] w3] eqn:Es; cbn [fst snd]; [| discriminate].
  intros E Hevs. injection E as <- _ _.
  injection Hevs as <-.
  destruct (load_after_any_save _ _ _ Es) as [Eload | Eload].
  2:{ exists []. split; [exact Eload |].
      split; [cbn [length]; lia | constructor]. }
  eexists. split; [exact Eload |]. split.
  - pose proof Hres as Hlen. apply Forall2_length in Hlen. rewrite Hlen.
    apply filter_length_le.
  - apply Forall_forall. intros x Hx. apply filter_In in Hx as [Hx _].
    apply list_elem_of_In, list_elem_of_lookup in Hx as [i Hi].
    destruct (Forall2_lookup_r _ _ _ _ _ Hres Hi) as (s0 & Hs0 & HR).
    exists s0. split; [| exact HR].
    apply list_elem_of_In, list_elem_of_lookup. eauto.
Qed.

(** X17.  A sweep that finds nothing due completes without a request and,
    when the browser accepts the write, leaves the queue reading exactly
    as before. *)
Theorem idle_sweep_keeps_queue env (w : World) (evs : list StoredEvent) :
  fst (loadStoredEvents w) = Ok evs ->
  Forall (fun s => not_due (clock w) s /\ persisted s = false) evs ->
  exists w',
    exec retryToPostStoredEvents env w [] = (Finished (Ok tt), w', env, [])
    /\ loadStoredEvents w' = (Ok evs, w').
Proof.
  intros Hload Hall.
  unfold retryToPostStoredEvents. rewrite exec_abind, exec_liftS.
  destruct (loadStoredEvents_frame w) as (r & st & E).
  rewrite E in Hload |- *. cbn [fst snd] in Hload |- *. subst r.
  rewrite exec_abind, sweepLoop_idle.
  2:{ eapply Forall_impl; [| exact Hall]. intros s [H _]. exact H. }
  rewrite exec_liftS, filter_all.
  2:{ eapply Forall_impl; [| exact Hall]. intros s [_ H]. exact H. }
  destruct (load_after_save evs (set_localStorage st w)) as (w3 & Es & El).
  rewrite Es. exists w3. split; [reflexivity | exact El].
Qed.


End SweepQueue.

(** ** lib.ts: helpers of the page scraper *)

(** X19.  [findParentById] returns the nearest element, among the element
    itself and its ancestors, whose id is the one asked for (the element
    itself when its own id matches), and [undefined] when none has it. *)
Theorem findParentById_nearest (elId : string) (elt : Element) :
  match findParentById elId elt with
  | Some found =>
    exists nearer farther,
      ancestors_or_self elt = nearer ++ found :: farther
      /\ el_id found = elId
      /\ Forall (fun e => el_id e <> elId) nearer
  | None => Forall (fun e => el_id e <> elId) (ancestors_or_self elt)
  end.
Proof.
  revert elt. fix IH 1. intros [h i parent].
  cbn [findParentById ancestors_or_self].
  destruct (String.eqb i elId) eqn:E.
  - apply String.eqb_eq in E. exists [], (match parent with
                                        | Some p => ancestors_or_self p
                                        | None => []
                                        end).
    repeat split; auto.
  - apply String.eqb_neq in E. destruct parent as [p |].
    + specialize (IH p). destruct (findParentById elId p) as [found |].
      * destruct IH as (nearer & farther & Ha & Hid & Hn).
        exists (mkElement h i (Some p) :: nearer), farther.
        rewrite Ha. repeat split; auto.
      * constructor; auto.
    + constructor; auto.
Qed.

Lemma prefix_append (s t : string) :
  String.prefix s t = true <-> exists b, t = s +:+ b.
Proof.
  revert t. induction s as [| c s IH]; intros t.
  - split; [intros _; exists t; reflexivity | intros _; destruct t; reflexivity].
  - destruct t as [| d t]; cbn [String.prefix].
    + split; [discriminate | intros [b Hb]; discriminate].
    + destruct (ascii_dec c d) as [-> | Hne].
      * rewrite IH. split; intros [b Hb]; exists b.
        -- change (String d s +:+ b) with (String d (s +:+ b)). now rewrite Hb.
        -- change (String d s +:+ b) with (String d (s +:+ b)) in Hb.
           now injection Hb.
      * split; [discriminate |].
        intros [b Hb]. change (String c s +:+ b) with (String c (s +:+ b)) in Hb.
        injection Hb as Hd _. congruence.
Qed.

Lemma string_app_assoc (a b c : string) : (a +:+ b) +:+ c = a +:+ (b +:+ c).
Proof.
  induction a as [| x a IH]; [reflexivity |].
  change (String x ((a +:+ b) +:+ c) = String x (a +:+ (b +:+ c))).
  now rewrite IH.
Qed.

Lemma removeLettersAfter_nil (needle : string) :
  removeLettersAfter needle "" = "".
Proof. destruct needle; reflexivity. Qed.

Lemma removeLettersAfter_cons (needle : string) (c : ascii) (r : string) :
  removeLettersAfter needle (String c r)
  = if String.prefix needle (String c r) then ""
    else String c (removeLettersAfter needle r).
Proof.
  unfold removeLettersAfter, indexOf, slice0.
  change (String.index 0 needle (String c r))
    with (if String.prefix needle (String c r) then Some 0%nat
          else match String.index 0 needle r with
               | Some n => Some (S n)
               | None => None
               end).
  destruct (String.prefix needle (String c r)); [reflexivity |].
  destruct (String.index 0 needle r); reflexivity.
Qed.

Lemma removeLettersAfter_split (needle str : string) :
  removeLettersAfter needle str = str
  \/ exists rest, str = removeLettersAfter needle str +:+ needle +:+ rest.
Proof.
  induction str as [| c r IH].
  - left. apply removeLettersAfter_nil.
  - rewrite removeLettersAfter_cons.
    destruct (String.prefix needle (String c r)) eqn:E.
    + right. apply prefix_append in E as [b Hb]. exists b. exact Hb.
    + destruct IH as [-> | [rest Hrest]]; [now left |].
      right. exists rest.
      change (String c r = String c (removeLettersAfter needle r +:+ needle +:+ rest)).
      now rewrite <- Hrest.
Qed.

Lemma removeLettersAfter_free (needle str : string) :
  needle <> "" -> ~ occurs needle (removeLettersAfter needle str).
Proof.
  intros Hne. induction str as [| c r IH]; intros (a & b & Hab).
  - rewrite removeLettersAfter_nil in Hab.
    destruct a; [| discriminate]. destruct needle; [congruence | discriminate].
  - rewrite removeLettersAfter_cons in Hab.
    destruct (String.prefix needle (String c r)) eqn:E.
    + destruct a; [| discriminate]. destruct needle; [congruence | discriminate].
    + destruct a as [| x a].
      * change ("" +:+ needle +:+ b) with (needle +:+ b) in Hab.
        destruct (removeLettersAfter_split needle r) as [Heq | [rest Hrest]].
        -- rewrite Heq in Hab.
           assert (String.prefix needle (String c r) = true)
             by (apply prefix_append; eauto).
           congruence.
        -- assert (String.prefix needle (String c r) = true).
           { apply prefix_append. exists (b +:+ needle +:+ rest).
             rewrite Hrest at 1.
             change (String c (removeLettersAfter needle r +:+ needle +:+ rest))
               with (String c (removeLettersAfter needle r) +:+ needle +:+ rest).
             rewrite Hab. now rewrite string_app_assoc. }
           congruence.
      * change (String x a +:+ needle +:+ b) with (String x (a +:+ needle +:+ b)) in Hab.
        injection Hab as _ Hab. apply IH. now exists a, b.
Qed.

(** X20.  [removeLettersAfter needle str] is the text of [str] before the
    first occurrence of a non-empty [needle]: the needle does not occur in
    the result, and the result is either all of [str] or is followed in
    [str] by the needle. *)
Theorem removeLettersAfter_first_occurrence (needle str : string) :
  needle <> "" ->
  ~ occurs needle (removeLettersAfter needle str)
  /\ (removeLettersAfter needle str = str
      \/ exists rest, str = removeLettersAfter needle str +:+ needle +:+ rest).
Proof.
  intros Hne. split.
  - now apply removeLettersAfter_free.
  - apply removeLettersAfter_split.
Qed.

Lemma substring_full (s : string) : String.substring 0 (String.length s) s = s.
Proof. induction s as [| c s IH]; [reflexivity |]. cbn. now rewrite IH. Qed.

Lemma captured_after (href : string) :
  String.prefix "?v=" href = true ->
  href = "?v=" +:+ String.substring 3 (String.length href - 3) href.
Proof.
  intros H. apply prefix_append in H as [b ->].
  change ("?v=" +:+ b) with (String "?" (String "v" (String "=" b))).
  cbn [String.length Nat.sub String.substring].
  rewrite Nat.sub_0_r, substring_full. reflexivity.
Qed.

Lemma exec_v_some (href m : string) :
  exec_v href = Some m ->
  exists before, href = before +:+ "?v=" +:+ m /\ m <> "" /\ all_dots m = true.
Proof.
  induction href as [| c r IH]; [discriminate |].
  cbn [exec_v].
  set (captured := String.substring 3 (String.length (String c r) - 3) (String c r)).
  destruct (String.prefix "?v=" (String c r)) eqn:Ep; cbn [andb].
  - destruct (String.eqb captured "") eqn:Ee; cbn [negb andb].
    + intros H. destruct (IH H) as (before & -> & Hm).
      exists (String c before). split; [reflexivity | exact Hm].
    + destruct (all_dots captured) eqn:Ed.
      * intros [= <-]. exists "". split; [| split].
        -- apply (captured_after _ Ep).
        -- now apply String.eqb_neq.
        -- exact Ed.
      * intros H. destruct (IH H) as (before & -> & Hm).
        exists (String c before). split; [reflexivity | exact Hm].
  - intros H. destruct (IH H) as (before & -> & Hm).
    exists (String c before). split; [reflexivity | exact Hm].
Qed.

Lemma exec_v_none (href : string) :
  exec_v href = None ->
  forall before rest,
    href = before +:+ "?v=" +:+ rest -> rest = "" \/ all_dots rest = false.
Proof.
  induction href as [| c r IH]; intros H before rest Heq.
  - destruct before; discriminate.
  - cbn [exec_v] in H.
    destruct before as [| x before].
    + assert (Ep : String.prefix "?v=" (String c r) = true)
        by (apply prefix_append; exists rest; exact Heq).
      pose proof (captured_after _ Ep) as Hc.
      rewrite Ep in H. cbn [andb] in H.
      assert (Hr : String.substring 3 (String.length (String c r) - 3) (String c r) = rest).
      { rewrite Heq in Hc at 1.
        change ("" +:+ "?v=" +:+ rest) with (String "?" (String "v" (String "=" rest))) in Hc.
        injection Hc as Hc. now symmetry. }
      rewrite Hr in H.
      destruct (String.eqb rest "") eqn:Ee.
      * left. now apply String.eqb_eq.
      * cbn [negb andb] in H. destruct (all_dots rest); [discriminate | now right].
    + change (String x before +:+ "?v=" +:+ rest)
        with (String x (before +:+ "?v=" +:+ rest)) in Heq.
      injection Heq as _ Heq.
      apply (IH) with (before := before); [| exact Heq].
      destruct (String.prefix "?v=" (String c r)
                && negb (String.eqb (String.substring 3 (String.length (String c r) - 3) (String c r)) "")
                && all_dots (String.substring 3 (String.length (String c r) - 3) (String c r)));
        [discriminate | exact H].
Qed.

(** X21.  [isLinkToVideo] answers with the text that follows a [?v=] of the
    address up to the first [&]: the id it returns holds no [&] (and is
    empty when [&] comes first).  It answers [false] only when every [?v=]
    of the address is followed by nothing or by text with a line break. *)
Theorem isLinkToVideo_id (href : string) :
  match isLinkToVideo href with
  | Some videoId =>
    ~ occurs "&" videoId
    /\ exists before rest,
         href = before +:+ "?v=" +:+ rest /\ rest <> ""
         /\ (videoId = rest \/ exists tail, rest = videoId +:+ "&" +:+ tail)
  | None =>
    forall before rest,
      href = before +:+ "?v=" +:+ rest -> rest = "" \/ all_dots rest = false
  end.
Proof.
  unfold isLinkToVideo. destruct (exec_v href) as [m |] eqn:E.
  - split.
    + apply removeLettersAfter_free. discriminate.
    + destruct (exec_v_some _ _ E) as (before & Hh & Hm & _).
      exists before, m. split; [exact Hh | split; [exact Hm |]].
      apply removeLettersAfter_split.
  - now apply exec_v_none.
Qed.

(** X22.  [getRecommendationsOnPage] scrapes the page at most six times.
    It resolves with the first scrape that finds [minimum] videos, having
    waited 2, 3, 5, 8 and 13 seconds after the failed ones (the first entry
    of [delays] is never used); when the sixth scrape fails too it rejects
    at once, without a further wait. *)
Theorem getRecommendationsOnPage_schedule
    (scrape : nat -> list RecommendationBase) (minimum : nat) :
  exists k,
    (k < 6)%nat
    /\ (forall j, (j < k)%nat -> (length (scrape j) < minimum)%nat)
    /\ snd (getRecommendationsOnPage scrape minimum)
       = take k [2000; 3000; 5000; 8000; 13000]
    /\ ((minimum <= length (scrape k))%nat
        /\ fst (getRecommendationsOnPage scrape minimum) = Resolved (scrape k)
        \/ k = 5%nat
           /\ (length (scrape 5) < minimum)%nat
           /\ fst (getRecommendationsOnPage scrape minimum)
              = Rejected (Error "failed to get home videos")).
Proof.
  unfold getRecommendationsOnPage, maxAttempts, delays.
  cbn [length getVideos].
  destruct (Nat.leb_spec minimum (length (scrape 0%nat))) as [H0 | H0];
    [exists 0%nat; repeat split; auto; lia |].
  cbn [Nat.ltb Nat.leb nth].
  destruct (Nat.leb_spec minimum (length (scrape 1%nat))) as [H1 | H1].
  { exists 1%nat. repeat split; auto; try lia.
    intros [| j] Hj; [exact H0 | lia]. }
  destruct (Nat.leb_spec minimum (length (scrape 2%nat))) as [H2 | H2].
  { exists 2%nat. repeat split; auto; try lia.
    intros [| [| j]] Hj; [exact H0 | exact H1 | lia]. }
  destruct (Nat.leb_spec minimum (length (scrape 3%nat))) as [H3 | H3].
  { exists 3%nat. repeat split; auto; try lia.
    intros [| [| [| j]]] Hj; [exact H0 | exact H1 | exact H2 | lia]. }
  destruct (Nat.leb_spec minimum (length (scrape 4%nat))) as [H4 | H4].
  { exists 4%nat. repeat split; auto; try lia.
    intros [| [| [| [| j]]]] Hj; [exact H0 | exact H1 | exact H2 | exact H3 | lia]. }
  exists 5%nat.
  assert (Hall : forall j, (j < 5)%nat -> (length (scrape j) < minimum)%nat).
  { intros [| [| [| [| [| j]]]]] Hj;
      [exact H0 | exact H1 | exact H2 | exact H3 | exact H4 | lia]. }
  destruct (Nat.leb_spec minimum (length (scrape 5%nat))) as [H5 | H5].
  - repeat split; auto; lia.
  - split; [lia |]. split; [exact Hall |]. split; [reflexivity |].
    right. repeat split; auto.
Qed.

(** ** The home page sub-app *)

Section HomeAppFacts.
Import HomeApp.
Variable getHomeMiniatureUrl : string -> string.

Lemma loop_step (pages : nat -> Page) (cs : string) (fuel : nat)
    (recs : list RecommendationBase) (a : nat) :
  loop getHomeMiniatureUrl pages cs (S fuel) recs a
  = if (length recs <? 3)%nat && (a <? 5)%nat then
      match getRecommendations getHomeMiniatureUrl (pages (S a)) cs
              (3 <=? S a)%nat with
      | None => (Thrown, [])
      | Some recs' =>
        if (length recs' <? 3)%nat then
          (fst (loop getHomeMiniatureUrl pages cs fuel recs' (S a)),
           nth a waitDelays 0
           :: snd (loop getHomeMiniatureUrl pages cs fuel recs' (S a)))
        else loop getHomeMiniatureUrl pages cs fuel recs' (S a)
      end
    else (Returned recs, []).
Proof.
  cbn [loop]. change maxAttempts with 5%nat.
  destruct ((length recs <? 3)%nat && (a <? 5)%nat); [| reflexivity].
  destruct (getRecommendations _ _ _ _) as [recs' |]; [| reflexivity].
  destruct (length recs' <? 3)%nat; [| reflexivity].
  replace (S a - 1)%nat with a by lia.
  destruct (loop _ _ _ _ _ _). reflexivity.
Qed.

Lemma loop_enough (pages : nat -> Page) (cs : string) (fuel : nat)
    (recs : list RecommendationBase) (a : nat) :
  (length recs <? 3)%nat = false ->
  loop getHomeMiniatureUrl pages cs (S fuel) recs a = (Returned recs, []).
Proof. intros H. rewrite loop_step, H. reflexivity. Qed.

(** X23.  [getRecommendationsToInject] makes at most five attempts, the
    first two with the channel source it was given and the later ones with
    the source the server answers when forced.  It returns the first result
    with three recommendations or more, having slept 1, 2, 3 and 5 seconds
    after the short ones; a rejected attempt rejects the whole call; and
    after a fifth short result it still sleeps 8 seconds before returning
    that result. *)
Theorem getRecommendationsToInject_schedule (pages : nat -> Page)
    (channelSource : string) :
  let attempt n :=
    getRecommendations getHomeMiniatureUrl (pages n) channelSource
      (3 <=? n)%nat in
  let result :=
    getRecommendationsToInject getHomeMiniatureUrl pages channelSource in
  exists k,
    (1 <= k <= 5)%nat
    /\ (forall j, (1 <= j < k)%nat ->
          exists recs, attempt j = Some recs /\ (length recs < 3)%nat)
    /\ match attempt k with
       | None => result = (Thrown, take (k - 1) waitDelays)
       | Some recs =>
         if (3 <=? length recs)%nat
         then result = (Returned recs, take (k - 1) waitDelays)
         else k = 5%nat /\ result = (Returned recs, waitDelays)
       end.
Proof.
  intros attempt result.
  assert (Hstep : forall fuel recs a,
    (length recs < 3)%nat -> (a < 5)%nat ->
    loop getHomeMiniatureUrl pages channelSource (S fuel) recs a
    = match attempt (S a) with
      | None => (Thrown, [])
      | Some recs' =>
        if (3 <=? length recs')%nat
        then loop getHomeMiniatureUrl pages channelSource fuel recs' (S a)
        else
          (fst (loop getHomeMiniatureUrl pages channelSource fuel recs' (S a)),
           nth a waitDelays 0
           :: snd (loop getHomeMiniatureUrl pages channelSource fuel recs' (S a)))
      end).
  { intros fuel recs a Hr Ha. rewrite loop_step.
    apply Nat.ltb_lt in Hr, Ha. rewrite Hr, Ha. cbn [andb].
    unfold attempt. destruct (getRecommendations _ _ _ _) as [recs' |]; [| reflexivity].
    destruct (Nat.leb_spec 3 (length recs')) as [H | H].
    - apply Nat.ltb_ge in H. now rewrite H.
    - apply Nat.ltb_lt in H. now rewrite H. }
  assert (Hdone : forall fuel recs a,
    (3 <=? length recs)%nat = true ->
    loop getHomeMiniatureUrl pages channelSource (S fuel) recs a
    = (Returned recs, [])).
  { intros fuel recs a H. apply loop_enough. apply Nat.leb_le in H.
    now apply Nat.ltb_ge. }
  assert (Hlast : forall fuel recs,
    loop getHomeMiniatureUrl pages channelSource (S fuel) recs 5
    = (Returned recs, [])).
  { intros fuel recs. rewrite loop_step. now rewrite andb_false_r. }
  unfold result, getRecommendationsToInject. change maxAttempts with 5%nat.
  rewrite Hstep by (cbn; lia).
  destruct (attempt 1%nat) as [r1 |] eqn:E1;
    [| exists 1%nat; rewrite E1; repeat split; auto; intros j Hj; lia].
  destruct (3 <=? length r1)%nat eqn:L1.
  { exists 1%nat. rewrite E1, L1, Hdone by exact L1.
    repeat split; auto. intros j Hj; lia. }
  apply Nat.leb_gt in L1.
  rewrite Hstep by lia.
  destruct (attempt 2%nat) as [r2 |] eqn:E2.
  2:{ exists 2%nat. rewrite E2. repeat split; auto.
      intros j Hj. assert (j = 1%nat) as -> by lia. eauto. }
  destruct (3 <=? length r2)%nat eqn:L2.
  { exists 2%nat. rewrite E2, L2, Hdone by exact L2.
    repeat split; auto.
    intros j Hj. assert (j = 1%nat) as -> by lia. eauto. }
  apply Nat.leb_gt in L2.
  rewrite Hstep by lia.
  assert (H12 : forall j, (1 <= j < 3)%nat ->
            exists recs, attempt j = Some recs /\ (length recs < 3)%nat).
  { intros j Hj. assert (j = 1 \/ j = 2)%nat as [-> | ->] by lia; eauto. }
  destruct (attempt 3%nat) as [r3 |] eqn:E3;
    [| exists 3%nat; rewrite E3; repeat split; auto].
  destruct (3 <=? length r3)%nat eqn:L3.
  { exists 3%nat. rewrite E3, L3, Hdone by exact L3. repeat split; auto. }
  apply Nat.leb_gt in L3.
  rewrite Hstep by lia.
  assert (H13 : forall j, (1 <= j < 4)%nat ->
            exists recs, attempt j = Some recs /\ (length recs < 3)%nat).
  { intros j Hj. assert (j < 3 \/ j = 3)%nat as [H | ->] by lia; eauto.
    apply H12; lia. }
  destruct (attempt 4%nat) as [r4 |] eqn:E4;
    [| exists 4%nat; rewrite E4; repeat split; auto].
  destruct (3 <=? length r4)%nat eqn:L4.
  { exists 4%nat. rewrite E4, L4, Hdone by exact L4. repeat split; auto. }
  apply Nat.leb_gt in L4.
  rewrite Hstep by lia.
  assert (H14 : forall j, (1 <= j < 5)%nat ->
            exists recs, attempt j = Some recs /\ (length recs < 3)%nat).
  { intros j Hj. assert (j < 4 \/ j = 4)%nat as [H | ->] by lia; eauto.
    apply H13; lia. }
  exists 5%nat.
  destruct (attempt 5%nat) as [r5 |] eqn:E5; [| repeat split; auto].
  rewrite Hlast.
  destruct (3 <=? length r5)%nat eqn:L5; repeat split; auto.
Qed.

Lemma check_images (img : RecommendationBase -> option bool)
    (l : list RecommendationBase) :
  match mapM (fun r => exists_ ← img r; Some (exists_, r)) l with
  | Some filtered =>
    Forall (fun r => is_Some (img r)) l
    /\ map snd (List.filter fst filtered)
       = List.filter (fun r => bool_decide (img r = Some true)) l
  | None => exists r, r ∈ l /\ img r = None
  end.
Proof.
  induction l as [| r l IH]; [split; [constructor | reflexivity] |].
  cbn [mapM]. destruct (img r) as [b |] eqn:Er; cbn [mbind option_bind].
  2:{ exists r. split; [left | exact Er]. }
  destruct (mapM _ l) as [filtered |]; cbn [mbind option_bind mret option_ret].
  - destruct IH as [Hall Heq]. split.
    + constructor; [rewrite Er; eauto | exact Hall].
    + cbn [List.filter fst]. rewrite Er.
      destruct b; cbn [map snd]; [rewrite bool_decide_eq_true_2 by reflexivity
                                 | rewrite bool_decide_eq_false_2 by discriminate];
        now rewrite Heq.
  - destruct IH as (r' & Hin & Hr'). exists r'. split; [now right | exact Hr'].
Qed.


Lemma concat_two (sep a b : string) :
  String.concat sep [a; b] = a +:+ sep +:+ b.
Proof. reflexivity. Qed.

Lemma concat_three (sep a b c : string) :
  String.concat sep [a; b; c] = a +:+ sep +:+ b +:+ sep +:+ c.
Proof. reflexivity. Qed.

(** X25.  [hashHomeShownEvent] does not tell the three lists apart when a
    video id holds the separator [-]: moving the text after a [-] from the
    default recommendation to the replacement gives the same hash; and an
    event without [shown] hashes like one with an empty [shown]. *)
Theorem hashHomeShownEvent_collides (a b c t1 u1 t2 u2 t3 u3 t4 u4 : string)
    (rest : option (list RecommendationBase))
    (extra1 extra2 : option (option string * option Z)) :
  hashHomeShownEvent
    (mkHomeShownEvent [mkRecommendationBase (a +:+ "-" +:+ b) t1 u1]
       [mkRecommendationBase c t2 u2] rest extra1)
  = hashHomeShownEvent
      (mkHomeShownEvent [mkRecommendationBase a t3 u3]
         [mkRecommendationBase (b +:+ "-" +:+ c) t4 u4] rest extra2)
  /\ forall d r,
       hashHomeShownEvent (mkHomeShownEvent d r None extra1)
       = hashHomeShownEvent (mkHomeShownEvent d r (Some []) extra1).
Proof.
  split; [| reflexivity].
  unfold hashHomeShownEvent, hasRecommendations.
  cbn [defaultRecommendations replacementSource shown map rb_videoId].
  rewrite !concat_three. cbn [String.concat].
  now rewrite !string_app_assoc.
Qed.

(** X26.  [triggerEvent] posts a home-shown event once: after a call that
    handed an event to [postEvent], a further call with the lists unchanged
    answers [true] and posts nothing, whatever became of the first post. *)
Theorem triggerEvent_posts_once (st st' : HomeState) (e : HomeShownEvent)
    (awaited : bool) :
  triggerEvent st = (Posts e awaited, st') ->
  triggerEvent st' = (Answers true, st')
  /\ latestEventSentHash st' = Some (hashHomeShownEvent e).
Proof.
  unfold triggerEvent.
  destruct (length (st_homeVideos st) =? 0)%nat eqn:Eh; [discriminate |].
  destruct (st_hasIntervention st) eqn:Ei; cbn [negb].
  - destruct (length (st_shown st) =? 0)%nat eqn:Es; [discriminate |].
    destruct (length (st_replacementSource st) =? 0)%nat eqn:Er; [discriminate |].
    destruct (bool_decide _) eqn:Ed; [discriminate |].
    intros [= <- <- <-].
    cbn [set_latestEventSentHash st_homeVideos st_hasIntervention st_shown
         st_replacementSource latestEventSentHash st_channelSource
         st_channelPos].
    rewrite Eh, Ei, Es, Er. cbn [negb].
    rewrite bool_decide_eq_true_2 by reflexivity. auto.
  - destruct (bool_decide _) eqn:Ed; [discriminate |].
    intros [= <- <- <-].
    cbn [set_latestEventSentHash st_homeVideos st_hasIntervention st_shown
         st_replacementSource latestEventSentHash st_channelSource
         st_channelPos].
    rewrite Eh, Ei. cbn [negb].
    rewrite bool_decide_eq_true_2 by reflexivity. auto.
Qed.

End HomeAppFacts.

(** ** The background script *)

Section BackgroundFacts.
Import Background.

Lemma notify_others (tabId : nat) (ids : list nat) (st : State) :
  fold_left
    (fun st' id =>
       if negb (id =? tabId)%nat
       then sendMessage id your_tab_is_not_active tabId st'
       else st')
    ids st
  = mkState (tabIds st)
      (sent st
       ++ map (fun id => mkMessage id your_tab_is_not_active tabId)
            (List.filter (fun id => negb (id =? tabId)%nat) ids)).
Proof.
  revert st. induction ids as [| id ids IH]; intros st.
  - cbn. rewrite app_nil_r. now destruct st.
  - cbn [fold_left List.filter]. rewrite IH.
    destruct (negb (id =? tabId)%nat); [| reflexivity].
    cbn [sendMessage tabIds sent map]. now rewrite <- app_assoc.
Qed.

Lemma onActivated_state (tabId : nat) (st : State) :
  onActivated (Some tabId) st
  = mkState (tabIds st)
      (sent st
       ++ mkMessage tabId your_tab_is_active tabId
          :: map (fun id => mkMessage id your_tab_is_not_active tabId)
               (List.filter (fun id => negb (id =? tabId)%nat) (tabIds st))).
Proof.
  unfold onActivated. rewrite notify_others.
  cbn [sendMessage tabIds sent]. now rewrite <- app_assoc.
Qed.

Lemma elem_of_set_delete (id x : nat) (s : list nat) :
  x ∈ set_delete id s <-> x ∈ s /\ x <> id.
Proof.
  unfold set_delete. rewrite !list_elem_of_In, filter_In.
  rewrite negb_true_iff, Nat.eqb_neq. reflexivity.
Qed.

Lemma NoDup_set_delete (id : nat) (s : list nat) :
  NoDup s -> NoDup (set_delete id s).
Proof.
  induction 1 as [| x l Hx Hl IH]; [constructor |].
  unfold set_delete. cbn [List.filter].
  destruct (negb (x =? id)%nat); [| exact IH].
  constructor; [| exact IH].
  intros Hin. apply elem_of_set_delete in Hin. tauto.
Qed.

Lemma elem_of_set_add (id x : nat) (s : list nat) :
  x ∈ set_add id s <-> x ∈ s \/ x = id.
Proof.
  unfold set_add. destruct (bool_decide (id ∈ s)) eqn:E.
  - apply bool_decide_eq_true in E. split; [auto | intros [H | ->]; auto].
  - rewrite elem_of_app, list_elem_of_singleton. reflexivity.
Qed.

Lemma NoDup_set_add (id : nat) (s : list nat) :
  NoDup s -> NoDup (set_add id s).
Proof.
  intros H. unfold set_add. destruct (bool_decide (id ∈ s)) eqn:E; [exact H |].
  apply bool_decide_eq_false in E.
  apply list.NoDup_app. split; [exact H |]. split.
  - intros x Hx Hx'. apply list_elem_of_singleton in Hx'. now subst.
  - apply NoDup_singleton.
Qed.

(** What [main] leaves: the known tabs, and to whom it wrote. *)
Lemma main_state (initialTabs : list (option nat)) (activeTab : option nat)
    (st : State) :
  NoDup (tabIds st) ->
  NoDup (tabIds (main initialTabs activeTab st))
  /\ (forall id, id ∈ tabIds (main initialTabs activeTab st)
                 <-> id ∈ tabIds st \/ Some id ∈ initialTabs)
  /\ exists new,
       sent (main initialTabs activeTab st) = sent st ++ new
       /\ Forall (fun m => Some (msg_to m) ∈ initialTabs) new.
Proof.
  revert st. induction initialTabs as [| [id |] tabs IH]; intros st Hnd.
  - cbn. split; [exact Hnd |]. split.
    + intros id. rewrite elem_of_nil. tauto.
    + exists []. now rewrite app_nil_r.
  - unfold main. cbn [fold_left].
    set (st1 := if bool_decide (Some id = activeTab) then _ else _).
    assert (Ht : tabIds st1 = set_add id (tabIds st))
      by (unfold st1; destruct (bool_decide _); reflexivity).
    assert (Hs : exists m, sent st1 = sent st ++ [m] /\ msg_to m = id).
    { unfold st1; destruct (bool_decide _); cbn [sendMessage sent]; eauto. }
    destruct (IH st1) as (Hnd' & Hin & new & Hnew & Hall).
    { rewrite Ht. now apply NoDup_set_add. }
    fold (main tabs activeTab st1).
    split; [exact Hnd' |]. split.
    + intros x. rewrite Hin, Ht, elem_of_set_add, elem_of_cons.
      split; [intros [[H | ->] | H]; auto | intros [H | [[= ->] | H]]; auto].
    + destruct Hs as (m & Hm & Hto). exists (m :: new). split.
      * rewrite Hnew, Hm, <- app_assoc. reflexivity.
      * constructor; [rewrite Hto; left |].
        eapply Forall_impl; [| exact Hall]. intros m' Hm'. now right.
  - unfold main. cbn [fold_left]. fold (main tabs activeTab st).
    destruct (IH st Hnd) as (Hnd' & Hin & new & Hnew & Hall).
    split; [exact Hnd' |]. split.
    + intros x. rewrite Hin, elem_of_cons.
      split; [intros [H | H]; auto | intros [H | [[=] | H]]; auto].
    + exists new. split; [exact Hnew |].
      eapply Forall_impl; [| exact Hall]. intros m' Hm'. now right.
Qed.

(** What the handlers leave: they only forget tabs, and write "not active"
    to known tabs only. *)
Lemma run_state (events : list TabEvent) (st : State) :
  NoDup (tabIds st) ->
  NoDup (tabIds (run events st))
  /\ (forall id, id ∈ tabIds (run events st)
                 <-> id ∈ tabIds st /\ Removed id ∉ events)
  /\ exists new,
       sent (run events st) = sent st ++ new
       /\ Forall (fun m => msg_type m = your_tab_is_not_active ->
                           msg_to m ∈ tabIds st) new.
Proof.
  revert st. induction events as [| e events IH]; intros st Hnd.
  - cbn. split; [exact Hnd |]. split.
    + intros id. rewrite elem_of_nil. tauto.
    + exists []. now rewrite app_nil_r.
  - unfold run. cbn [fold_left]. fold (run events (handle st e)).
    destruct e as [[tabId |] | tabId]; cbn [handle].
    + rewrite onActivated_state.
      set (st1 := mkState _ _).
      destruct (IH st1 Hnd) as (Hnd' & Hin & new & Hnew & Hall).
      split; [exact Hnd' |]. split.
      * intros x. rewrite Hin. cbn [st1 tabIds]. rewrite elem_of_cons.
        split; [intros [H1 H2]; split; [exact H1 | intros [[=] | H]; auto]
               | intros [H1 H2]; auto].
      * eexists. split.
        -- rewrite Hnew. cbn [st1 sent]. rewrite <- app_assoc. reflexivity.
        -- apply Forall_app. split; [| exact Hall].
           constructor; [discriminate |].
           apply Forall_forall. intros m Hm _.
           apply in_map_iff in Hm as (id & <- & Hid).
           apply filter_In in Hid as [Hid _]. now apply list_elem_of_In.
    + cbn [onActivated].
      destruct (IH st Hnd) as (Hnd' & Hin & new & Hnew & Hall).
      split; [exact Hnd' |]. split; [| eauto].
      intros x. rewrite Hin, elem_of_cons.
      split; [intros [H1 H2]; split; [exact H1 | intros [[=] | H]; auto]
             | intros [H1 H2]; auto].
    + unfold onRemoved.
      set (st1 := mkState _ _).
      destruct (IH st1) as (Hnd' & Hin & new & Hnew & Hall).
      { now apply NoDup_set_delete. }
      split; [exact Hnd' |]. split.
      * intros x. rewrite Hin. cbn [st1 tabIds].
        rewrite elem_of_set_delete, elem_of_cons.
        split.
        -- intros [[H1 H2] H3]. split; [exact H1 |].
           intros [[= ->] | H]; auto.
        -- intros [H1 H2].
           split; [split; [exact H1 | intros ->; apply H2; now left]
                  | intros H; apply H2; now right].
      * exists new. split; [exact Hnew |].
        eapply Forall_impl; [| exact Hall]. cbn [st1 tabIds].
        intros m Hm Ht. apply Hm in Ht. apply elem_of_set_delete in Ht. tauto.
Qed.



(** X29.  When a tab is activated, that tab is told it is active, every
    other known tab is told it is not, each exactly once, and nobody else
    is told anything. *)
Theorem activation_tells_every_known_tab (tabId : nat) (st : State) :
  NoDup (tabIds st) ->
  exists new,
    sent (onActivated (Some tabId) st) = sent st ++ new
    /\ NoDup new
    /\ forall m, m ∈ new
         <-> m = mkMessage tabId your_tab_is_active tabId
             \/ exists id, id ∈ tabIds st /\ id <> tabId
                           /\ m = mkMessage id your_tab_is_not_active tabId.
Proof.
  intros Hnd. rewrite onActivated_state. cbn [sent].
  eexists. split; [reflexivity |].
  assert (Hin : forall m,
    m ∈ map (fun id => mkMessage id your_tab_is_not_active tabId)
          (List.filter (fun id => negb (id =? tabId)%nat) (tabIds st))
    <-> exists id, id ∈ tabIds st /\ id <> tabId
                   /\ m = mkMessage id your_tab_is_not_active tabId).
  { intros m. rewrite list_elem_of_In, in_map_iff. split.
    - intros (id & <- & Hid). apply filter_In in Hid as [Hid Hne].
      exists id. rewrite list_elem_of_In.
      apply negb_true_iff, Nat.eqb_neq in Hne. auto.
    - intros (id & Hid & Hne & ->). exists id. split; [reflexivity |].
      apply filter_In. rewrite <- list_elem_of_In.
      split; [exact Hid |]. now apply negb_true_iff, Nat.eqb_neq. }
  split.
  - constructor.
    + intros H. apply Hin in H as (id & _ & _ & [=]).
    + assert (Hinj : Inj eq eq
                (fun id => mkMessage id your_tab_is_not_active tabId))
        by (intros x y [=]; assumption).
      apply (NoDup_fmap_2 _ _ (NoDup_set_delete tabId _ Hnd)).
  - intros m. rewrite elem_of_cons, Hin. reflexivity.
Qed.

End BackgroundFacts.

(** ** lib.ts: walkTree *)

Lemma Json_induction (P : Json -> Prop) :
  P JNull ->
  (forall text, P (JOther text)) ->
  (forall items, Forall P items -> P (JArray items)) ->
  (forall entries, Forall (fun kv => P (snd kv)) entries -> P (JObject entries)) ->
  forall node, P node.
Proof.
  intros Hnull Hother Harray Hobject. fix IH 1. intros [| text | items | entries].
  - exact Hnull.
  - apply Hother.
  - apply Harray. induction items as [| value rest IHrest]; constructor.
    + apply IH.
    + exact IHrest.
  - apply Hobject. induction entries as [| [key value] rest IHrest]; constructor.
    + apply IH.
    + exact IHrest.
Qed.

Section WalkTree.
Variable answer : Json -> list string -> Json -> AndThen.
Variable root : Json.

Lemma reach_leaf (node : Json) (path : list string) (x : Json * list string) :
  (forall key value, ~ child node key value) ->
  reach answer root node path x <-> x = (node, path).
Proof.
  intros Hleaf. split.
  - intros H. destruct H as [| node path key value x _ Hc _]; [reflexivity |].
    destruct (Hleaf _ _ Hc).
  - intros ->. constructor.
Qed.

Lemma reach_stop (node : Json) (path : list string) (x : Json * list string) :
  answer node path root = stop ->
  reach answer root node path x <-> x = (node, path).
Proof.
  intros Hstop. split.
  - intros H. destruct H as [| node path key value x Hr _ _]; [reflexivity |].
    congruence.
  - intros ->. constructor.
Qed.

Lemma reach_recurse (node : Json) (path : list string) (x : Json * list string) :
  answer node path root = recurse ->
  reach answer root node path x
  <-> x = (node, path)
      \/ exists key value,
           child node key value /\ reach answer root value (path ++ [key]) x.
Proof.
  intros Hrec. split.
  - intros H. destruct H as [| node path key value x _ Hc Hx]; [now left |].
    right. eauto.
  - intros [-> | (key & value & Hc & Hx)]; [constructor |].
    eapply reach_below; eauto.
Qed.

Lemma walk_reach (node : Json) :
  forall path calls x,
    x ∈ walk (recording answer) root node path calls
    <-> x ∈ calls \/ reach answer root node path x.
Proof.
  induction node as [| text | items IH | entries IH] using Json_induction;
    intros path calls x; cbn [walk recording].
  - rewrite reach_leaf by (intros key value Hc; inversion Hc).
    destruct (answer JNull path root);
      rewrite elem_of_app, list_elem_of_singleton; reflexivity.
  - rewrite reach_leaf by (intros key value Hc; inversion Hc).
    destruct (answer (JOther text) path root);
      rewrite elem_of_app, list_elem_of_singleton; reflexivity.
  - destruct (answer (JArray items) path root) eqn:Ha.
    2:{ rewrite reach_stop by exact Ha.
        rewrite elem_of_app, list_elem_of_singleton. reflexivity. }
    rewrite reach_recurse by exact Ha.
    assert (Heach : forall rest index calls',
      Forall (fun node => forall path calls x,
                x ∈ walk (recording answer) root node path calls
                <-> x ∈ calls \/ reach answer root node path x) rest ->
      x ∈ (fix each (items : list Json) (index : nat)
               (s : list (Json * list string)) {struct items} :=
             match items with
             | [] => s
             | value :: rest =>
               each rest (S index)
                 (walk (recording answer) root value
                    (path ++ [toString index]) s)
             end) rest index calls'
      <-> x ∈ calls'
          \/ exists i value,
               rest !! i = Some value
               /\ reach answer root value (path ++ [toString (index + i)]) x).
    { induction rest as [| value rest IHrest]; intros index calls' Hall.
      - split; [auto | intros [H | (i & value & Hl & _)]; [exact H | discriminate]].
      - inversion Hall as [| ? ? Hvalue Hrest]; subst.
        rewrite (IHrest _ _ Hrest), Hvalue. split.
        + intros [[H | H] | (i & v & Hl & Hr)]; [now left | |].
          * right. exists 0%nat, value. rewrite Nat.add_0_r. auto.
          * right. exists (S i), v. rewrite Nat.add_succ_r. auto.
        + intros [H | ([| i] & v & Hl & Hr)]; [now left; left | |].
          * injection Hl as ->. rewrite Nat.add_0_r in Hr. left. now right.
          * right. exists i, v. rewrite Nat.add_succ_r in Hr. auto. }
    rewrite (Heach items 0%nat _ IH), elem_of_app, list_elem_of_singleton.
    split.
    + intros [[H | H] | (i & value & Hl & Hr)]; [now left | right; now left |].
      right. right. exists (toString i), value. split; [now constructor | exact Hr].
    + intros [H | [H | (key & value & Hc & Hr)]];
        [left; now left | left; now right |].
      right. inversion Hc; subst. eauto.
  - destruct (answer (JObject entries) path root) eqn:Ha.
    2:{ rewrite reach_stop by exact Ha.
        rewrite elem_of_app, list_elem_of_singleton. reflexivity. }
    rewrite reach_recurse by exact Ha.
    assert (Heach : forall rest calls',
      Forall (fun kv => forall path calls x,
                x ∈ walk (recording answer) root (snd kv) path calls
                <-> x ∈ calls \/ reach answer root (snd kv) path x) rest ->
      x ∈ (fix each (entries : list (string * Json))
               (s : list (Json * list string)) {struct entries} :=
             match entries with
             | [] => s
             | (key, value) :: rest =>
               each rest
                 (walk (recording answer) root value (path ++ [key]) s)
             end) rest calls'
      <-> x ∈ calls'
          \/ exists key value,
               (key, value) ∈ rest
               /\ reach answer root value (path ++ [key]) x).
    { induction rest as [| [key value] rest IHrest]; intros calls' Hall.
      - split; [auto | intros [H | (k & v & Hl & _)]; [exact H |]].
        now apply elem_of_nil in Hl.
      - inversion Hall as [| ? ? Hvalue Hrest]; subst. cbn [snd] in Hvalue.
        rewrite (IHrest _ Hrest), Hvalue. split.
        + intros [[H | H] | (k & v & Hl & Hr)]; [now left | |].
          * right. exists key, value. split; [left | exact H].
          * right. exists k, v. split; [now right | exact Hr].
        + intros [H | (k & v & Hl & Hr)]; [now left; left |].
          apply elem_of_cons in Hl as [[= -> ->] | Hl].
          * left. now right.
          * right. eauto. }
    rewrite (Heach entries _ IH), elem_of_app, list_elem_of_singleton.
    split.
    + intros [[H | H] | (key & value & Hl & Hr)]; [now left | right; now left |].
      right. right. exists key, value. split; [now constructor | exact Hr].
    + intros [H | [H | (key & value & Hc & Hr)]];
        [left; now left | left; now right |].
      right. inversion Hc; subst. eauto.
Qed.

End WalkTree.

(** X30.  [walkTree] calls the callback on the root with the empty path,
    and on the items and entries, each with its own path from the root, of
    every node for which the callback answered [recurse]; it calls it on
    nothing else: nothing below a node for which the callback answered
    [stop], and nothing below [null] or a value that is not an object. *)
Theorem walkTree_visits_what_is_reached
    (answer : Json -> list string -> Json -> AndThen) (root : Json)
    (x : Json * list string) :
  x ∈ walkTree (recording answer) root [] <-> reach answer root root [] x.
Proof.
  unfold walkTree. rewrite walk_reach, elem_of_nil. tauto.
Qed.

(** ** The further properties on concrete cases *)

Module CaseFacts.

Import Reference Scenario Cases.


Lemma legacy_value_migrates_witness :
  exists st',
    getFrom localArea "cfg" legacy_area = (Ok (Some "control"), st')
    /\ st' !! (namespace +:+ "cfg") = Some "control"
    /\ st' !! "cfg" = None
    /\ getFrom localArea "cfg" st' = (Ok (Some "control"), st').
Proof.
  exact (legacy_value_migrates localArea "cfg" "control" legacy_area
           eq_refl eq_refl ltac:(discriminate)).
Defined.

Lemma setAuth_round_trip_witness :
  getAuth 0%nat (snd (setAuth 0%nat "P2" (signed_in "S1")))
  = (Ok "P2", snd (setAuth 0%nat "P2" (signed_in "S1"))).
Proof.
  exact (proj1 (setAuth_round_trip 0%nat "P2" (signed_in "S1")
                  (mkApiVars "https://collector" "P1" "S1" None) eq_refl)).
Defined.

Lemma logout_clears_identity_and_queue_witness :
  logout 0%nat [] (signed_in "S1")
  = (Ok tt, logged_out 0%nat (signed_in "S1"))
  /\ apis (logged_out 0%nat (signed_in "S1")) !! 0%nat
     = Some (mkApiVars "https://collector" "" "" None).
Proof.
  pose proof (logout_clears_identity_and_queue 0%nat (signed_in "S1")
                (mkApiVars "https://collector" "P1" "S1" None) eq_refl) as H.
  exact (conj (proj1 H) (proj1 (proj2 H))).
Defined.



Lemma logout_does_not_cancel_session_creation_witness :
  exists k r w',
    exec (newSession 0%nat) [] (signed_in "") []
    = (Suspended (length (requests (signed_in ""))) k,
       session_requested 0%nat (signed_in ""), [],
       [(createSession_request (mkApiVars "https://collector" "P1" "" None),
         signed_in "")])
    /\ exec (k (Success (VSession (mkSession "S2")))) []
          (fire (length (requests (signed_in "")))
                (logged_out 0%nat (session_requested 0%nat (signed_in "")))) []
       = (Finished r, w', [], [])
    /\ participantCode (apis w' !!! 0%nat) = ""
    /\ sessionUuid (apis w' !!! 0%nat) = "S2"
    /\ getSession 0%nat w' = (Ok (Some "S2"), w').
Proof.
  refine (logout_does_not_cancel_session_creation 0%nat (signed_in "")
            (mkApiVars "https://collector" "P1" "" None)
            (VSession (mkSession "S2")) eq_refl _ eq_refl _).
  - discriminate.
  - vm_compute. discriminate.
Defined.

Lemma postEvent_fails_with_session_creation_witness :
  exec (postEvent 0%nat page_view true) [server_error; accepted]
       (signed_in "") []
  = (Finished (Exn (creation_failed "Internal Server Error")),
     interfere server_error
       (fire (length (requests (signed_in "")))
             (session_requested 0%nat (signed_in ""))),
     [accepted],
     [(createSession_request (apis (signed_in "") !!! 0%nat), signed_in "")])
  /\ localStorage (fire (length (requests (signed_in "")))
                        (session_requested 0%nat (signed_in "")))
     = localStorage (signed_in "").
Proof.
  refine (postEvent_fails_with_session_creation 0%nat page_view true
            (signed_in "") server_error "Internal Server Error" None [accepted]
            _ eq_refl eq_refl eq_refl eq_refl).
  vm_compute. discriminate.
Defined.

Lemma failed_retry_waits_a_minute_witness :
  exec (sweepEntry failed_entry) [accepted] (world_of failed_retry) []
  = (Finished (Ok failed_entry), world_of failed_retry, [accepted], []).
Proof.
  refine (failed_retry_waits_a_minute queued_P1 failed_entry [offline]
            (world_of offline_post) (world_of failed_retry)
            (rest_of failed_retry) (trace_of failed_retry)
            [accepted] (world_of failed_retry) _ _ _ _).
  - vm_compute. reflexivity.
  - intros [_ H]. vm_compute in H. discriminate.
  - vm_compute. reflexivity.
  - vm_compute. reflexivity.
Defined.

Lemma sweep_rewrites_its_snapshot_witness :
  exists remaining,
    loadStoredEvents (world_of one_swept) = (Ok remaining, world_of one_swept)
    /\ (length remaining <= length (entries (world_of offline_post)))%nat
    /\ Forall (fun s => exists s0, In s0 (entries (world_of offline_post))
                                   /\ same_entry s0 s)
         remaining.
Proof.
  refine (sweep_rewrites_its_snapshot [offline] (world_of offline_post)
            (world_of one_swept) (rest_of one_swept) (trace_of one_swept)
            (entries (world_of offline_post)) _ _).
  - vm_compute. reflexivity.
  - vm_compute. reflexivity.
Defined.

Lemma idle_sweep_keeps_queue_witness :
  exists w',
    exec retryToPostStoredEvents [accepted] (world_of one_swept) []
    = (Finished (Ok tt), w', [accepted], [])
    /\ loadStoredEvents w' = (Ok (entries (world_of one_swept)), w').
Proof.
  refine (idle_sweep_keeps_queue [accepted] (world_of one_swept)
            (entries (world_of one_swept)) _ _).
  - vm_compute. reflexivity.
  - vm_compute. repeat constructor.
Defined.


Lemma entry_without_identity_is_dropped_witness :
  exists w1,
    exec (sweepEntry orphan) [accepted] anonymous []
    = (Finished (Ok (set_persisted true (retried orphan))), w1, [accepted], [])
    /\ requests w1 = requests anonymous.
Proof.
  refine (entry_without_identity_is_dropped orphan [accepted] anonymous
            eq_refl eq_refl _).
  intros [_ H]. discriminate.
Defined.


Lemma removeLettersAfter_first_occurrence_witness :
  removeLettersAfter "&" "dQw4w9WgXcQ&t=42s" = "dQw4w9WgXcQ"
  /\ ~ occurs "&" (removeLettersAfter "&" "dQw4w9WgXcQ&t=42s")
  /\ (removeLettersAfter "&" "dQw4w9WgXcQ&t=42s" = "dQw4w9WgXcQ&t=42s"
      \/ exists rest,
           "dQw4w9WgXcQ&t=42s"
           = removeLettersAfter "&" "dQw4w9WgXcQ&t=42s" +:+ "&" +:+ rest).
Proof.
  split; [vm_compute; reflexivity |].
  apply (removeLettersAfter_first_occurrence "&" "dQw4w9WgXcQ&t=42s").
  discriminate.
Defined.

Lemma triggerEvent_posts_once_witness :
  HomeApp.triggerEvent
    (HomeApp.set_latestEventSentHash (Some "a,b,c--") scraped)
  = (HomeApp.Answers true,
     HomeApp.set_latestEventSentHash (Some "a,b,c--") scraped)
  /\ HomeApp.latestEventSentHash
       (HomeApp.set_latestEventSentHash (Some "a,b,c--") scraped)
     = Some (HomeApp.hashHomeShownEvent home_shown).
Proof.
  apply (triggerEvent_posts_once scraped _ home_shown false).
  vm_compute. reflexivity.
Defined.


Lemma activation_tells_every_known_tab_witness :
  exists new,
    Background.sent (Background.onActivated (Some 2%nat) two_tabs)
    = Background.sent two_tabs ++ new
    /\ NoDup new
    /\ forall m, m ∈ new
         <-> m = Background.mkMessage 2 Background.your_tab_is_active 2
             \/ exists id, id ∈ Background.tabIds two_tabs /\ id <> 2%nat
                  /\ m = Background.mkMessage id
                           Background.your_tab_is_not_active 2.
Proof.
  apply (activation_tells_every_known_tab 2%nat two_tabs).
  apply (bool_decide_unpack _). vm_compute. exact I.
Defined.

End CaseFacts.
